(** * Sudoku-Solver: a shallow embedding of [grid.c] and [resolution.c]

    The grid of the solver is a record of flat arrays: the cells, and three
    availability tables.  Arrays are lists read with a default and written
    with stdpp's in-place insert; the C code never grows an array, and an
    access outside an array (undefined in C) reads the default and writes
    nothing here.  Every function that takes a [tGrid *] and mutates it is a
    function from the grid to the new grid (and the returned value). *)

From stdpp Require Import base option list.
From Stdlib Require Import Lia ZArith.

(** ** Types *)

(** Modelled from the spec: [types.c] is absent.  [tIntSize] and [tIntN] are
    the integer types of indices, values and counts; every quantity the
    solver stores in them is bounded by [S + 1] (or by the number of cells of
    a group for a count), so they are taken as [nat].  A position is a row
    and a column. *)
Record tPosition := mkPos { row : nat; column : nat }.

(** Modelled from the spec: [tCell.c] is absent.  A cell has a value ([0] =
    empty), a boolean-per-candidate array of [S + 1] slots, slot [0] unused,
    and a cached count of its candidates. *)
Record tCell := mkCell {
  _value : nat;
  hasCandidate : list bool;
  _candidateCount : nat
}.

(** Modelled from the spec: the grid structure is declared in the absent
    [types.c]; its fields are those that [grid_create] initialises. *)
Record tGrid := mkGrid {
  N : nat;
  cells : list tCell;
  _isColumnFree : list bool;
  _isRowFree : list bool;
  _isBlockFree : list bool
}.

(** Reading an array: [a[i]], with a default outside the array. *)
Definition rd {A} (d : A) (a : list A) (i : nat) : A := default d (a !! i).

(** A cell as [calloc] leaves it: no value, [hasCandidate = NULL], count 0. *)
Definition cell_zero : tCell := mkCell 0 [] 0.

(** ** Macros of the absent [utils.c] and [tCell.c] *)

(** Modelled from the spec: [at2d] and [at3d] of the absent [utils.c], the
    row-major index in a flat array of the given inner dimensions. *)
Definition at2d (width r c : nat) : nat := r * width + c.
Definition at3d (dim2 dim3 i j k : nat) : nat := (i * dim2 + j) * dim3 + k.

(** Modelled from the spec: [has_value(c)] is [c.value ≠ 0]. *)
Definition cell_hasValue (cell : tCell) : bool := negb (_value cell =? 0).

(** Modelled from the spec: [has_candidate(c, v)]. *)
Definition cell_hasCandidate (cell : tCell) (v : nat) : bool :=
  rd false (hasCandidate cell) v.

(** Modelled from the spec: [candidate_count(c)], the cached count. *)
Definition cell_candidate_count (cell : tCell) : nat := _candidateCount cell.

(** The first index [≥ v] whose slot is set, scanning upwards; past the end
    of the array when there is none. *)
Fixpoint first_set (l : list bool) (v : nat) : nat :=
  match l with
  | [] => v
  | b :: l' => if b then v else first_set l' (S v)
  end.

(** Modelled from the spec: [first_candidate(c)], the smallest [v ≥ 1] with
    [has_candidate]; the spec defines it only when the cell has a candidate. *)
Definition cell_get_first_candidate (cell : tCell) : nat :=
  first_set (drop 1 (hasCandidate cell)) 1.

(** The index of the [k]-th set slot ([k] counted from 1) at or after [v]. *)
Fixpoint kth_set (l : list bool) (v k : nat) : nat :=
  match l with
  | [] => v
  | b :: l' =>
      if b then match k with
                | 0 | 1 => v
                | S k' => kth_set l' (S v) k'
                end
      else kth_set l' (S v) k
  end.

(** Modelled from the spec: [k-th candidate(c, k)], 1-indexed enumeration of
    the candidates in ascending order. *)
Definition cell_candidateAt (cell : tCell) (k : nat) : nat :=
  kth_set (drop 1 (hasCandidate cell)) 1 k.

(** ** Loops *)

(** The indices of [for (i = a; i < b; i++)]. *)
Definition range (a b : nat) : list nat := seq a (b - a).

(** The cells of the rectangle [rStart ≤ r < rEnd], [cStart ≤ c < cEnd], in
    the order in which the nested loops
    [for (r = rStart; r < rEnd; r++) for (c = cStart; c < cEnd; c++)]
    visit them. *)
Definition rect (rStart rEnd cStart cEnd : nat) : list (nat * nat) :=
  r ← range rStart rEnd; c ← range cStart cEnd; [(r, c)].

(** ** [grid.c]: macros *)

Definition grid_size (g : tGrid) : nat := N g * N g.

Definition grid_cellAt (g : tGrid) (r c : nat) : tCell :=
  rd cell_zero (cells g) (at2d (grid_size g) r c).

Definition grid_cellAtPos (g : tGrid) (pos : tPosition) : tCell :=
  grid_cellAt g (row pos) (column pos).

(** [grid_cellAt(g, r, c) = cell] *)
Definition grid_setCellAt (g : tGrid) (r c : nat) (cell : tCell) : tGrid :=
  mkGrid (N g) (<[at2d (grid_size g) r c := cell]> (cells g))
         (_isColumnFree g) (_isRowFree g) (_isBlockFree g).

Definition grid_markValueFree (isFree : bool) (g : tGrid) (r c v : nat) : tGrid :=
  mkGrid (N g) (cells g)
    (<[at2d (grid_size g + 1) c v := isFree]> (_isColumnFree g))
    (<[at2d (grid_size g + 1) r v := isFree]> (_isRowFree g))
    (<[at3d (N g) (grid_size g + 1) (r / N g) (c / N g) v := isFree]>
       (_isBlockFree g)).

Definition grid_blockIndex (g : tGrid) (index : nat) : nat :=
  index - index mod N g.

Definition grid_possible (g : tGrid) (r c v : nat) : bool :=
  rd false (_isColumnFree g) (at2d (grid_size g + 1) c v)
  && rd false (_isRowFree g) (at2d (grid_size g + 1) r v)
  && rd false (_isBlockFree g)
       (at3d (N g) (grid_size g + 1) (r / N g) (c / N g) v).

Definition grid_cellPossibleValuesCount (g : tGrid) (r c : nat) : nat :=
  fold_left (fun out val => out + Nat.b2n (grid_possible g r c val))
            (range 1 (grid_size g + 1)) 0.

(** ** [grid.c]: the propagation primitives *)

Definition grid_cell_removeCandidate (g : tGrid) (r c candidate : nat)
  : tGrid * bool :=
  let cell := grid_cellAt g r c in
  if (cell_candidate_count cell =? 1)
     && (cell_get_first_candidate cell =? candidate)
  then
    let onlyCandidate := cell_get_first_candidate cell in
    let g1 := grid_setCellAt g r c
                (mkCell onlyCandidate
                        (<[candidate := false]> (hasCandidate cell)) 0) in
    (grid_markValueFree false g1 r c candidate, true)
  else
    let possible := cell_hasCandidate cell candidate in
    if possible then
      (grid_setCellAt g r c
         (mkCell (_value cell)
                 (<[candidate := false]> (hasCandidate cell))
                 (pred (_candidateCount cell))), true)
    else (g, false).

(** [memset(a, false, n)]: the first [n] slots are cleared. *)
Definition memset_false (n : nat) (a : list bool) : list bool :=
  replicate (min n (length a)) false ++ drop n a.

Definition grid_cell_provideValue (g : tGrid) (r c value : nat) : tGrid :=
  let cell := grid_cellAt g r c in
  let g1 := grid_setCellAt g r c
              (mkCell value
                      (memset_false (grid_size g + 1) (hasCandidate cell)) 0) in
  grid_markValueFree false g1 r c value.

(** The assertions of [grid_cell_provideValue]. *)
Definition grid_cell_provideValue_pre (g : tGrid) (r c value : nat) : Prop :=
  grid_possible g r c value = true
  /\ 1 <= value <= grid_size g
  /\ cell_hasValue (grid_cellAt g r c) = false.

(** [for (i ...) progress |= step(grid, i);] *)
Definition or_loop {I} (step : tGrid -> I -> tGrid * bool) (l : list I)
    (gp : tGrid * bool) : tGrid * bool :=
  fold_left (fun gp i => let '(g', b) := step (fst gp) i in (g', snd gp || b))
            l gp.

Definition grid_removeCandidateFromRow (g : tGrid) (r candidate : nat)
  : tGrid * bool :=
  or_loop (fun g c => grid_cell_removeCandidate g r c candidate)
          (range 0 (grid_size g)) (g, false).

Definition grid_removeCandidateFromColumn (g : tGrid) (c candidate : nat)
  : tGrid * bool :=
  or_loop (fun g r => grid_cell_removeCandidate g r c candidate)
          (range 0 (grid_size g)) (g, false).

Definition grid_removeCandidateFromBlock (g : tGrid) (r c candidate : nat)
  : tGrid * bool :=
  let blockRow := grid_blockIndex g r in
  let blockCol := grid_blockIndex g c in
  or_loop (fun g rc => grid_cell_removeCandidate g rc.1 rc.2 candidate)
          (rect blockRow (blockRow + N g) blockCol (blockCol + N g)) (g, false).

(** ** [resolution.c]: naked and hidden singleton *)

Definition technique_nakedSingleton (g : tGrid) (r c : nat) : tGrid * bool :=
  let cell := grid_cellAt g r c in
  if cell_candidate_count cell =? 1 then
    let candidate := cell_get_first_candidate cell in
    let '(g1, p1) := grid_removeCandidateFromRow g r candidate in
    let '(g2, p2) := grid_removeCandidateFromColumn g1 c candidate in
    let '(g3, p3) := grid_removeCandidateFromBlock g2 r c candidate in
    (g3, false || p1 || p2 || p3)
  else (g, false).

(** [candidateCounts[candidate] += cell_hasCandidate(cell, candidate)] for
    every candidate of one cell. *)
Definition count_cell_candidates (size : nat) (cell : tCell)
    (candidateCounts : list nat) : list nat :=
  fold_left
    (fun counts candidate =>
       <[candidate := rd 0 counts candidate
                      + Nat.b2n (cell_hasCandidate cell candidate)]> counts)
    (range 1 (size + 1)) candidateCounts.

(** The counting pass over the scan rectangle, from a zeroed array. *)
Definition count_candidates (g : tGrid) (cellsToScan : list (nat * nat))
  : list nat :=
  fold_left (fun counts rc =>
               count_cell_candidates (grid_size g) (grid_cellAt g rc.1 rc.2)
                                     counts)
            cellsToScan (replicate (grid_size g + 1) 0).

(** [while (candidate <= size && candidateCounts[candidate] != 1) candidate++;]
    with [remaining = size + 1 - candidate] iterations left at most. *)
Fixpoint search_unique (candidateCounts : list nat) (candidate remaining : nat)
  : nat :=
  match remaining with
  | 0 => candidate
  | S remaining' =>
      if rd 0 candidateCounts candidate =? 1 then candidate
      else search_unique candidateCounts (S candidate) remaining'
  end.

(** The result is [None] when the function reaches [dbg_fail], which aborts
    the program; otherwise the returned candidate ([0] = none found) and the
    contents of [*candidatePosition] on return. *)
Definition technique_hiddenSingleton_findUniqueCandidate (g : tGrid)
    (rStart rEnd cStart cEnd : nat) (candidatePosition : tPosition)
  : option (nat * tPosition) :=
  let candidateCounts := count_candidates g (rect rStart rEnd cStart cEnd) in
  let candidate := search_unique candidateCounts 1 (grid_size g) in
  if candidate =? grid_size g + 1 then Some (0, candidatePosition)
  else
    match find (fun rc => cell_hasCandidate (grid_cellAt g rc.1 rc.2) candidate)
               (rect rStart rEnd cStart cEnd) with
    | Some rc => Some (candidate, mkPos rc.1 rc.2)
    | None => None
    end.

(** The three groups a hidden singleton is searched in. *)
Inductive tGroup := Block | Row | Column.

(** What [technique_hiddenSingleton] does once a unique candidate is found
    in a group: provide the value and remove the candidate from the two
    other groups of the cell. *)
Definition hiddenSingleton_commit (group : tGroup) (g : tGrid)
    (candidatePos : tPosition) (candidate : nat) : tGrid :=
  let g := grid_cell_provideValue g (row candidatePos) (column candidatePos)
                                  candidate in
  match group with
  | Block =>
      let g := (grid_removeCandidateFromRow g (row candidatePos) candidate).1 in
      (grid_removeCandidateFromColumn g (column candidatePos) candidate).1
  | Row =>
      let g := (grid_removeCandidateFromBlock g (row candidatePos)
                  (column candidatePos) candidate).1 in
      (grid_removeCandidateFromColumn g (column candidatePos) candidate).1
  | Column =>
      let g := (grid_removeCandidateFromBlock g (row candidatePos)
                  (column candidatePos) candidate).1 in
      (grid_removeCandidateFromRow g (row candidatePos) candidate).1
  end.

(** One of the three [if ((candidate = findUniqueCandidate(...)) != 0)]
    statements; the state is the grid, [candidatePos] and [progress]. *)
Definition hiddenSingleton_group (group : tGroup)
    (rStart rEnd cStart cEnd : nat) (st : tGrid * tPosition * bool)
  : option (tGrid * tPosition * bool) :=
  let '(g, candidatePos, progress) := st in
  '(candidate, candidatePos) ←
    technique_hiddenSingleton_findUniqueCandidate g rStart rEnd cStart cEnd
                                                  candidatePos;
  if candidate =? 0 then Some (g, candidatePos, progress)
  else Some (hiddenSingleton_commit group g candidatePos candidate,
             candidatePos, true).

(** [candidatePos] is not initialised in the source; it is read only after
    a search has assigned it. *)
Definition technique_hiddenSingleton (g : tGrid) (r c : nat)
  : option (tGrid * bool) :=
  let blockRow := grid_blockIndex g r in
  let blockCol := grid_blockIndex g c in
  st ← hiddenSingleton_group Block blockRow (blockRow + N g)
                             blockCol (blockCol + N g) (g, mkPos 0 0, false);
  st ← hiddenSingleton_group Row r (r + 1) 0 (grid_size st.1.1) st;
  st ← hiddenSingleton_group Column 0 (grid_size st.1.1) c (c + 1) st;
  Some (st.1.1, st.2).

(** ** [resolution.c]: naked pair *)

(** [for (i ...; i < end && guard; i++) body] *)
Fixpoint for_while {St I} (guard : St -> bool) (body : St -> I -> St)
    (l : list I) (s : St) : St :=
  match l with
  | [] => s
  | i :: l' => if guard s then for_while guard body l' (body s i) else s
  end.

Definition technique_nakedPair_isPairCell (cell : tCell) (pair : nat * nat)
  : bool :=
  (cell_candidate_count cell =? 2)
  && cell_hasCandidate cell pair.1 && cell_hasCandidate cell pair.2.

(** The search of a second pair cell in the block: [pair.count] after the
    two nested loops, both guarded by [pair.count < 2]. *)
Definition nakedPair_count (g : tGrid) (r c : nat) (pair : nat * nat)
    (blockRow blockCol : nat) : nat :=
  for_while (fun count => count <? 2)
    (fun count r' =>
       for_while (fun count => count <? 2)
         (fun count c' =>
            count + Nat.b2n ((negb (r' =? r) || negb (c' =? c))
                             && technique_nakedPair_isPairCell
                                  (grid_cellAt g r' c') pair))
         (range blockCol (blockCol + N g)) count)
    (range blockRow (blockRow + N g)) 1.

(** The body of the removal loop of [technique_nakedPair]. *)
Definition nakedPair_remove (pair : nat * nat) (g : tGrid) (rc : nat * nat)
  : tGrid * bool :=
  let isNotPairCell :=
    negb (technique_nakedPair_isPairCell (grid_cellAt g rc.1 rc.2) pair) in
  let '(g1, b1) := if isNotPairCell
                   then grid_cell_removeCandidate g rc.1 rc.2 pair.1
                   else (g, false) in
  let '(g2, b2) := if isNotPairCell
                   then grid_cell_removeCandidate g1 rc.1 rc.2 pair.2
                   else (g1, false) in
  (g2, b1 || b2).

Definition technique_nakedPair (g : tGrid) (r c : nat) : tGrid * bool :=
  let cellRowColumn := grid_cellAt g r c in
  if cell_candidate_count cellRowColumn =? 2 then
    let blockRow := grid_blockIndex g r in
    let blockCol := grid_blockIndex g c in
    let pair := (cell_candidateAt cellRowColumn 1,
                 cell_candidateAt cellRowColumn 2) in
    if nakedPair_count g r c pair blockRow blockCol =? 2 then
      or_loop (nakedPair_remove pair)
              (rect blockRow (blockRow + N g) blockCol (blockCol + N g))
              (g, false)
    else (g, false)
  else (g, false).

(** ** [resolution.c]: hidden pair *)

Definition PAIR_SIZE : nat := 2.

(** The state of the scan of [technique_hiddenPair_findPairCells]:
    the two counters, [pairCellPositions[1]], and whether the scan executed
    [return false]. *)
Record tPairScan := mkPairScan {
  nbPairCells : nat;
  nbPairCellsContainingOtherCandidates : nat;
  secondPairCell : tPosition;
  returnedFalse : bool
}.

(** The guard of both loops; a scan that has returned is left at once. *)
Definition findPairCells_guard (s : tPairScan) : bool :=
  negb (returnedFalse s) && (nbPairCells s <=? PAIR_SIZE + 1).

(** The body of the inner loop, for the cell [(r, c)]. *)
Definition findPairCells_body (g : tGrid) (candidates : nat * nat)
    (firstPairCell : tPosition) (r : nat) (s : tPairScan) (c : nat)
  : tPairScan :=
  if (r =? row firstPairCell) && (c =? column firstPairCell) then s
  else
    let cell := grid_cellAt g r c in
    if cell_hasCandidate cell candidates.1 && cell_hasCandidate cell candidates.2
    then
      mkPairScan
        (nbPairCells s + 1)
        (nbPairCellsContainingOtherCandidates s
         + Nat.b2n (PAIR_SIZE <? cell_candidate_count cell))
        (if nbPairCells s <? PAIR_SIZE then mkPos r c else secondPairCell s)
        false
    else if cell_hasCandidate cell candidates.1
            || cell_hasCandidate cell candidates.2
    then mkPairScan (nbPairCells s) (nbPairCellsContainingOtherCandidates s)
                    (secondPairCell s) true
    else s.

(** [pairCellPositions] is the pair [(p0, p1)]; only [p1] is written, and
    the function returns it together with its result. *)
Definition technique_hiddenPair_findPairCells (g : tGrid)
    (candidates : nat * nat) (rStart rEnd cStart cEnd : nat)
    (pairCellPositions : tPosition * tPosition) : bool * tPosition :=
  let s :=
    for_while findPairCells_guard
      (fun s r =>
         for_while findPairCells_guard
           (findPairCells_body g candidates pairCellPositions.1 r)
           (range cStart cEnd) s)
      (range rStart rEnd)
      (mkPairScan 1 0 pairCellPositions.2 false) in
  if returnedFalse s then (false, secondPairCell s)
  else ((nbPairCells s =? PAIR_SIZE)
        && (0 <? nbPairCellsContainingOtherCandidates s),
        secondPairCell s).

(** The pairs [(candidates[0], candidates[1])] that the two loops of
    [technique_hiddenPair_findPair] reach past their [continue]. *)
Definition findPair_pairs (size : nat) (firstPairCell : tCell)
  : list (nat * nat) :=
  c0 ← range 1 (size + 1);
  if cell_hasCandidate firstPairCell c0 then
    c1 ← range (c0 + 1) (size + 1);
    if cell_hasCandidate firstPairCell c1 then [(c0, c1)] else []
  else [].

(** The search over those pairs, returning at the first pair whose cells
    are found. *)
Fixpoint findPair_search (g : tGrid) (rStart rEnd cStart cEnd : nat)
    (pairs : list (nat * nat)) (pairCellPositions : tPosition * tPosition)
  : option (nat * nat) * tPosition :=
  match pairs with
  | [] => (None, pairCellPositions.2)
  | candidates :: pairs' =>
      let '(found, p1) :=
        technique_hiddenPair_findPairCells g candidates rStart rEnd cStart cEnd
                                           pairCellPositions in
      if found then (Some candidates, p1)
      else findPair_search g rStart rEnd cStart cEnd pairs'
                           (pairCellPositions.1, p1)
  end.

(** The result is the pair found, if any, and [pairCellPositions[1]]. *)
Definition technique_hiddenPair_findPair (g : tGrid)
    (rStart rEnd cStart cEnd : nat) (pairCellPositions : tPosition * tPosition)
  : option (nat * nat) * tPosition :=
  let firstPairCell := grid_cellAtPos g pairCellPositions.1 in
  findPair_search g rStart rEnd cStart cEnd
                  (findPair_pairs (grid_size g) firstPairCell)
                  pairCellPositions.

Definition removePairCells_step (candidates : nat * nat) (pos : tPosition)
    (g : tGrid) (candidate : nat) : tGrid * bool :=
  if negb (candidate =? candidates.1) && negb (candidate =? candidates.2)
  then grid_cell_removeCandidate g (row pos) (column pos) candidate
  else (g, false).

Definition technique_hiddenPair_removePairCells (g : tGrid)
    (pairCellPositions : tPosition * tPosition) (candidates : nat * nat)
  : tGrid * bool :=
  let gp := or_loop (removePairCells_step candidates pairCellPositions.1)
                    (range 1 (grid_size g + 1)) (g, false) in
  or_loop (removePairCells_step candidates pairCellPositions.2)
          (range 1 (grid_size g + 1)) gp.

(** One of the three statements
    [progress |= (count >= 2 && findPair(...)) && removePairCells(...)];
    the state is the grid, [pairCellPositions[1]] and [progress]. *)
Definition hiddenPair_group (r c : nat) (rStart rEnd cStart cEnd : nat)
    (st : tGrid * tPosition * bool) : tGrid * tPosition * bool :=
  let '(g, p1, progress) := st in
  if 2 <=? cell_candidate_count (grid_cellAt g r c) then
    match technique_hiddenPair_findPair g rStart rEnd cStart cEnd
                                        (mkPos r c, p1) with
    | (Some candidates, p1') =>
        let '(g', b) :=
          technique_hiddenPair_removePairCells g (mkPos r c, p1') candidates in
        (g', p1', progress || b)
    | (None, p1') => (g, p1', progress)
    end
  else st.

Definition technique_hiddenPair (g : tGrid) (r c : nat) : tGrid * bool :=
  let blockRow := grid_blockIndex g r in
  let blockCol := grid_blockIndex g c in
  let st := hiddenPair_group r c blockRow (blockRow + N g)
                             blockCol (blockCol + N g) (g, mkPos 0 0, false) in
  let st := hiddenPair_group r c r (r + 1) 0 (grid_size st.1.1) st in
  let st := hiddenPair_group r c 0 (grid_size st.1.1) c (c + 1) st in
  (st.1.1, st.2).

(** ** [resolution.c]: X-wing *)

(** The state of the counting loop of one column (or row) pair:
    [rows] (or [columns]), [candidateInBothCount] and [candidateCounts]. *)
Record tXWingScan := mkXWingScan {
  lines : nat * nat;
  candidateInBothCount : nat;
  candidateCounts : nat * nat
}.

Definition x_wing_scan_step (has1 has2 : nat -> bool) (s : tXWingScan)
    (i : nat) : tXWingScan :=
  let counts := ((candidateCounts s).1 + Nat.b2n (has1 i),
                 (candidateCounts s).2 + Nat.b2n (has2 i)) in
  if has1 i && has2 i then
    mkXWingScan
      (if candidateInBothCount s <? 2 then
         (if candidateInBothCount s =? 0 then (i, (lines s).2)
          else ((lines s).1, i))
       else lines s)
      (candidateInBothCount s + 1) counts
  else mkXWingScan (lines s) (candidateInBothCount s) counts.

(** [rows] is not initialised in the source; it is read only when both of
    its slots have been assigned. *)
Definition x_wing_scan (size : nat) (has1 has2 : nat -> bool) : tXWingScan :=
  fold_left (x_wing_scan_step has1 has2) (range 0 size)
            (mkXWingScan (0, 0) 0 (0, 0)).

Definition x_wing_found (s : tXWingScan) : bool :=
  (candidateInBothCount s =? 2) && ((candidateCounts s).1 =? 2)
  && ((candidateCounts s).2 =? 2).

(** The elimination loop: [cell i j] is the cell of line [i] at offset [j],
    and the offsets [j1] and [j2] are skipped. *)
Definition x_wing_eliminate (cellOf : nat -> nat -> nat * nat)
    (j1 j2 candidate : nat) (i1 i2 : nat) (g : tGrid) (j : nat)
  : tGrid * bool :=
  let keep := negb (j =? j1) && negb (j =? j2) in
  let '(g1, b1) :=
    if keep then grid_cell_removeCandidate g (cellOf i1 j).1 (cellOf i1 j).2
                                           candidate
    else (g, false) in
  let '(g2, b2) :=
    if keep then grid_cell_removeCandidate g1 (cellOf i2 j).1 (cellOf i2 j).2
                                           candidate
    else (g1, false) in
  (g2, b1 || b2).

(** The body of the vertical pass for the columns [colAC < colBD] and one
    candidate. *)
Definition x_wing_vertical_step (g : tGrid) (colAC colBD candidate : nat)
  : tGrid * bool :=
  let s := x_wing_scan (grid_size g)
             (fun r => cell_hasCandidate (grid_cellAt g r colAC) candidate)
             (fun r => cell_hasCandidate (grid_cellAt g r colBD) candidate) in
  if x_wing_found s then
    or_loop (x_wing_eliminate (fun r c => (r, c)) colAC colBD candidate
                              (lines s).1 (lines s).2)
            (range 0 (grid_size g)) (g, false)
  else (g, false).

(** The body of the horizontal pass for the rows [rowAB < rowCD] and one
    candidate. *)
Definition x_wing_horizontal_step (g : tGrid) (rowAB rowCD candidate : nat)
  : tGrid * bool :=
  let s := x_wing_scan (grid_size g)
             (fun c => cell_hasCandidate (grid_cellAt g rowAB c) candidate)
             (fun c => cell_hasCandidate (grid_cellAt g rowCD c) candidate) in
  if x_wing_found s then
    or_loop (x_wing_eliminate (fun c r => (r, c)) rowAB rowCD candidate
                              (lines s).1 (lines s).2)
            (range 0 (grid_size g)) (g, false)
  else (g, false).

(** The triples [(i1, i2, candidate)] of the three outer loops of a pass. *)
Definition x_wing_triples (size : nat) : list (nat * nat * nat) :=
  i1 ← range 0 size; i2 ← range (i1 + 1) size;
  candidate ← range 1 (size + 1); [(i1, i2, candidate)].

Definition technique_x_wing (g : tGrid) : tGrid * bool :=
  let gp :=
    or_loop (fun g t => x_wing_vertical_step g t.1.1 t.1.2 t.2)
            (x_wing_triples (grid_size g)) (g, false) in
  or_loop (fun g t => x_wing_horizontal_step g t.1.1 t.1.2 t.2)
          (x_wing_triples (grid_size g)) gp.

(** ** [resolution.c]: the fixpoint driver *)

(** A loop whose body may abort the program ([None]). *)
Fixpoint for_abort {St I} (body : St -> I -> option St) (l : list I) (s : St)
  : option St :=
  match l with
  | [] => Some s
  | i :: l' => s' ← body s i; for_abort body l' s'
  end.

(** The body of the two loops of [perform_simpleTechniques]; each
    [continue] leaves the body with the state reached so far. *)
Definition perform_cell (gp : tGrid * bool) (rc : nat * nat)
  : option (tGrid * bool) :=
  let '(g, progress) := gp in
  if cell_hasValue (grid_cellAt g rc.1 rc.2) then Some (g, progress)
  else
    let '(g1, b1) := technique_nakedSingleton g rc.1 rc.2 in
    if cell_hasValue (grid_cellAt g1 rc.1 rc.2) then Some (g1, progress || b1)
    else
      '(g2, b2) ← technique_hiddenSingleton g1 rc.1 rc.2;
      if cell_hasValue (grid_cellAt g2 rc.1 rc.2)
      then Some (g2, progress || b1 || b2)
      else
        let '(g3, b3) := technique_nakedPair g2 rc.1 rc.2 in
        if cell_hasValue (grid_cellAt g3 rc.1 rc.2)
        then Some (g3, progress || b1 || b2 || b3)
        else
          let '(g4, b4) := technique_hiddenPair g3 rc.1 rc.2 in
          Some (g4, progress || b1 || b2 || b3 || b4).

(** [None] when a hidden-singleton search aborts the program. *)
Definition perform_simpleTechniques (g : tGrid) : option (tGrid * bool) :=
  for_abort perform_cell (rect 0 (grid_size g) 0 (grid_size g)) (g, false).

(** ** [resolution.c]: backtracking *)

(** The state of the search loop of [technique_backtracking_swap_cells]:
    [iMin] and [possibleValCountMin]. *)
Definition swap_cells_step (g : tGrid) (emptyCellPositions : list tPosition)
    (s : nat * nat) (i : nat) : nat * nat :=
  let pos := rd (mkPos 0 0) emptyCellPositions i in
  let possibleValCountI :=
    grid_cellPossibleValuesCount g (row pos) (column pos) in
  if possibleValCountI <? s.2 then (i, possibleValCountI) else s.

Definition technique_backtracking_swap_cells (g : tGrid)
    (emptyCellPositions : list tPosition) (emptyCellCount iHere : nat)
  : list tPosition :=
  let pos := rd (mkPos 0 0) emptyCellPositions iHere in
  let s := fold_left (swap_cells_step g emptyCellPositions)
                     (range (iHere + 1) emptyCellCount)
                     (iHere,
                      grid_cellPossibleValuesCount g (row pos) (column pos)) in
  let iMin := s.1 in
  let tmp := rd (mkPos 0 0) emptyCellPositions iHere in
  <[iMin := tmp]>
    (<[iHere := rd (mkPos 0 0) emptyCellPositions iMin]> emptyCellPositions).

(** [grid_cellAtPos(grid, pos)._value = value] *)
Definition grid_setValueAtPos (g : tGrid) (pos : tPosition) (value : nat)
  : tGrid :=
  let cell := grid_cellAtPos g pos in
  grid_setCellAt g (row pos) (column pos)
                 (mkCell value (hasCandidate cell) (_candidateCount cell)).

(** The loop over the values of one cell; [recurse] is the recursive call
    [technique_backtracking(grid, emptyCellPositions, emptyCellCount,
    iCellPosition + 1)], [None] when it does not return. *)
Fixpoint backtracking_values
    (recurse : tGrid -> list tPosition -> option (tGrid * list tPosition * bool))
    (pos : tPosition) (values : list nat) (g : tGrid)
    (emptyCellPositions : list tPosition)
  : option (tGrid * list tPosition * bool) :=
  match values with
  | [] => Some (g, emptyCellPositions, false)
  | value :: values' =>
      if grid_possible g (row pos) (column pos) value then
        let g1 := grid_markValueFree false g (row pos) (column pos) value in
        match recurse g1 emptyCellPositions with
        | None => None
        | Some (g2, ps2, true) =>
            Some (grid_setValueAtPos g2 pos value, ps2, true)
        | Some (g2, ps2, false) =>
            backtracking_values recurse pos values'
              (grid_markValueFree true g2 (row pos) (column pos) value) ps2
        end
      else backtracking_values recurse pos values' g emptyCellPositions
  end.

(** The recursion of [technique_backtracking], with the depth left as fuel:
    [None] when the fuel runs out. *)
Fixpoint backtracking_fuel (fuel : nat) (g : tGrid)
    (emptyCellPositions : list tPosition) (emptyCellCount iCellPosition : nat)
  : option (tGrid * list tPosition * bool) :=
  if iCellPosition =? emptyCellCount then Some (g, emptyCellPositions, true)
  else
    match fuel with
    | 0 => None
    | S fuel' =>
        let emptyCellPositions :=
          technique_backtracking_swap_cells g emptyCellPositions emptyCellCount
                                            iCellPosition in
        let pos := rd (mkPos 0 0) emptyCellPositions iCellPosition in
        backtracking_values
          (fun g ps => backtracking_fuel fuel' g ps emptyCellCount
                                         (iCellPosition + 1))
          pos (range 1 (grid_size g + 1)) g emptyCellPositions
    end.

(** Each call recurses on [iCellPosition + 1] and stops at
    [emptyCellCount], so [emptyCellCount - iCellPosition] levels are enough;
    a call with [iCellPosition > emptyCellCount] (excluded by the assertion
    of the source) never comes back. *)
Definition technique_backtracking (g : tGrid)
    (emptyCellPositions : list tPosition) (emptyCellCount iCellPosition : nat)
  : option (tGrid * list tPosition * bool) :=
  backtracking_fuel (emptyCellCount - iCellPosition) g emptyCellPositions
                    emptyCellCount iCellPosition.

(** ** [grid.c]: the loader *)

Definition ERROR_INVALID_DATA : Z := (-1)%Z.

Definition grid_create (n : nat) : tGrid := mkGrid n [] [] [] [].

(** A loop whose body may return from the function: [inl] carries the state
    at the [return], [inr] the state after the loop. *)
Fixpoint for_return {St I} (body : St -> I -> St + St) (l : list I) (s : St)
  : St + St :=
  match l with
  | [] => inr s
  | i :: l' =>
      match body s i with
      | inl s' => inl s'
      | inr s' => for_return body l' s'
      end
  end.

(** The body of the first pair of loops of [grid_load]: allocate the
    candidates of the cell, and set and mark its value if it has one. *)
Definition grid_load_value (gridValues : list nat) (g : tGrid) (rc : nat * nat)
  : tGrid + tGrid :=
  let value := rd 0 gridValues (at2d (grid_size g) rc.1 rc.2) in
  let cell := grid_cellAt g rc.1 rc.2 in
  let allocated := replicate (grid_size g + 1) false in
  let g1 := grid_setCellAt g rc.1 rc.2
              (mkCell (_value cell) allocated (_candidateCount cell)) in
  if negb (value =? 0) then
    if grid_size g <? value then inl g1
    else
      inr (grid_markValueFree false
             (grid_setCellAt g1 rc.1 rc.2
                (mkCell value allocated (_candidateCount cell)))
             rc.1 rc.2 value)
  else inr g1.

(** The body of the second pair of loops: the candidates of an empty cell. *)
Definition grid_load_candidates (g : tGrid) (rc : nat * nat) : tGrid :=
  if cell_hasValue (grid_cellAt g rc.1 rc.2) then g
  else
    fold_left
      (fun g candidate =>
         let cell := grid_cellAt g rc.1 rc.2 in
         let possible := grid_possible g rc.1 rc.2 candidate in
         grid_setCellAt g rc.1 rc.2
           (mkCell (_value cell)
                   (<[candidate := possible]> (hasCandidate cell))
                   (_candidateCount cell + Nat.b2n possible)))
      (range 1 (grid_size g + 1)) g.

(** [inStream] is the sequence of 32-bit values that the stream holds;
    [fread] delivers the first [S·S] of them, or fewer when the stream is
    shorter.  The result is the returned code and the grid [*g]. *)
Definition grid_load (inStream : list nat) (g : tGrid) : Z * tGrid :=
  let size := grid_size g in
  if length inStream <? size * size then (ERROR_INVALID_DATA, g)
  else
    let gridValues := take (size * size) inStream in
    let g0 := mkGrid (N g)
                (replicate (size * size) cell_zero)
                (replicate (size * (size + 1)) true)
                (replicate (size * (size + 1)) true)
                (replicate (N g * N g * (size + 1)) true) in
    match for_return (grid_load_value gridValues) (rect 0 size 0 size) g0 with
    | inl g1 => (ERROR_INVALID_DATA, g1)
    | inr g1 =>
        (0%Z, fold_left grid_load_candidates (rect 0 size 0 size) g1)
    end.

(** ** The data model: well-formed grids and their invariants *)

(** The candidates of a cell, in ascending order. *)
Definition cell_candidates (size : nat) (cell : tCell) : list nat :=
  List.filter (cell_hasCandidate cell) (range 1 (size + 1)).

(** The arrays have the sizes that [grid_load] allocates. *)
Definition grid_wf (g : tGrid) : Prop :=
  length (cells g) = grid_size g * grid_size g
  /\ Forall (fun cell => length (hasCandidate cell) = grid_size g + 1) (cells g)
  /\ length (_isColumnFree g) = grid_size g * (grid_size g + 1)
  /\ length (_isRowFree g) = grid_size g * (grid_size g + 1)
  /\ length (_isBlockFree g) = N g * N g * (grid_size g + 1).

(** The cell invariant: the cached count is the number of candidates, and a
    cell that has a value has no candidate. *)
Definition cell_invariant (size : nat) (cell : tCell) : Prop :=
  _candidateCount cell = length (cell_candidates size cell)
  /\ (_value cell <> 0 -> cell_candidates size cell = []).

Definition grid_cell_invariant (g : tGrid) : Prop :=
  Forall (cell_invariant (grid_size g)) (cells g).

(** What backtracking is said to leave alone: the candidate array and the
    cached count of every cell. *)
Definition grid_candidates (g : tGrid) : list (list bool * nat) :=
  (fun cell => (hasCandidate cell, _candidateCount cell)) <$> cells g.

(** The value of every cell. *)
Definition grid_values (g : tGrid) : list nat := _value <$> cells g.

(** The number of cells, among those scanned, that have [v] as a
    candidate. *)
Definition occurrences (g : tGrid) (cellsToScan : list (nat * nat)) (v : nat)
  : nat :=
  length (List.filter
            (fun rc => cell_hasCandidate (grid_cellAt g rc.1 rc.2) v)
            cellsToScan).

#[global] Instance grid_wf_dec g : Decision (grid_wf g).
Proof. unfold grid_wf. apply _. Defined.

#[global] Instance cell_invariant_dec size cell :
  Decision (cell_invariant size cell).
Proof. unfold cell_invariant. apply _. Defined.

#[global] Instance grid_cell_invariant_dec g : Decision (grid_cell_invariant g).
Proof. unfold grid_cell_invariant. apply _. Defined.

(** ** Example grids, for [N = 2] *)

(** The empty 4×4 grid, as [grid_load] builds it. *)
Definition grid_empty4 : tGrid :=
  (grid_load (replicate 16 0) (grid_create 2)).2.

(** A 4×4 puzzle in which the columns 0, 1 and 2 have the candidate 1 in
    the rows 1 and 3 only. *)
Definition puzzle_threeColumns : list nat :=
  [2; 3; 4; 0;
   0; 0; 0; 0;
   3; 4; 2; 0;
   0; 0; 0; 0].

Definition grid_threeColumns : tGrid :=
  (grid_load puzzle_threeColumns (grid_create 2)).2.

(** A 4×4 puzzle with two 1s in its first row: no solution. *)
Definition puzzle_unsolvable : list nat :=
  [1; 1; 0; 0;
   0; 0; 0; 0;
   0; 0; 0; 0;
   0; 0; 0; 0].

Definition grid_unsolvable : tGrid :=
  (grid_load puzzle_unsolvable (grid_create 2)).2.

(** The positions of the empty cells of a grid, in row-major order. *)
Definition emptyCells (g : tGrid) : list tPosition :=
  rc ← rect 0 (grid_size g) 0 (grid_size g);
  if cell_hasValue (grid_cellAt g rc.1 rc.2) then [] else [mkPos rc.1 rc.2].

(** ** Steps that touch one cell *)

(** The position [rc] is a cell of the grid. *)
Definition in_grid (g : tGrid) (rc : nat * nat) : Prop :=
  rc.1 < grid_size g /\ rc.2 < grid_size g.

(** The cell that [grid_cell_removeCandidate] leaves at the position it is
    called on, and the result it returns, as functions of the cell found
    there. *)
Definition cell_removeCandidate (candidate : nat) (cell : tCell) : tCell :=
  if (cell_candidate_count cell =? 1)
     && (cell_get_first_candidate cell =? candidate)
  then mkCell (cell_get_first_candidate cell)
              (<[candidate := false]> (hasCandidate cell)) 0
  else if cell_hasCandidate cell candidate
       then mkCell (_value cell) (<[candidate := false]> (hasCandidate cell))
                   (pred (_candidateCount cell))
       else cell.

Definition cell_removeCandidate_progress (candidate : nat) (cell : tCell)
  : bool :=
  (cell_candidate_count cell =? 1)
  && (cell_get_first_candidate cell =? candidate)
  || cell_hasCandidate cell candidate.

(** A loop step that, for the index [i], reads and writes the one cell at
    [pos i]: it leaves there [F i] of the cell it found and returns [B i]
    of it; it may also write to the availability tables. *)
Record cell_step {I} (pos : I -> nat * nat) (F : I -> tCell -> tCell)
    (B : I -> tCell -> bool) (step : tGrid -> I -> tGrid * bool) : Prop := {
  cell_step_N g i : N (step g i).1 = N g;
  cell_step_wf g i :
    grid_wf g -> in_grid g (pos i) -> grid_wf (step g i).1;
  cell_step_at g i :
    grid_wf g -> in_grid g (pos i) ->
    grid_cellAt (step g i).1 (pos i).1 (pos i).2
    = F i (grid_cellAt g (pos i).1 (pos i).2);
  cell_step_progress g i :
    grid_wf g -> in_grid g (pos i) ->
    (step g i).2 = B i (grid_cellAt g (pos i).1 (pos i).2);
  cell_step_frame g i rc :
    grid_wf g -> in_grid g (pos i) -> in_grid g rc -> rc <> pos i ->
    grid_cellAt (step g i).1 rc.1 rc.2 = grid_cellAt g rc.1 rc.2
}.

(** ** The two passes of X-wing, seen as one *)

(** The vertical pass pairs columns and eliminates along rows; the
    horizontal pass pairs rows and eliminates along columns. *)
Inductive tPass := Vertical | Horizontal.

(** The cell of the paired line [a] (a column in the vertical pass, a row
    in the horizontal pass) at the crossing index [b]. *)
Definition pass_cell (pass : tPass) (a b : nat) : nat * nat :=
  match pass with
  | Vertical => (b, a)
  | Horizontal => (a, b)
  end.

Definition pass_cellAt (pass : tPass) (g : tGrid) (a b : nat) : tCell :=
  grid_cellAt g (pass_cell pass a b).1 (pass_cell pass a b).2.

(** The body of a pass for the lines [a1 < a2] and one candidate. *)
Definition x_wing_step (pass : tPass) (g : tGrid) (a1 a2 candidate : nat)
  : tGrid * bool :=
  match pass with
  | Vertical => x_wing_vertical_step g a1 a2 candidate
  | Horizontal => x_wing_horizontal_step g a1 a2 candidate
  end.

(** Among the cells of the line [a], those at the crossing indices [b1]
    and [b2], and no other, have the candidate [v]. *)
Definition confined (pass : tPass) (g : tGrid) (a v b1 b2 : nat) : Prop :=
  forall b, b < grid_size g ->
    cell_hasCandidate (pass_cellAt pass g a b) v = (b =? b1) || (b =? b2).

(** ** Propagation keeps what is settled *)

(** A grid in the state that propagation works on: well formed, with the
    cell invariant at every cell. *)
Definition propagated (g : tGrid) : Prop := grid_wf g /\ grid_cell_invariant g.

(** From [cell] to [cell']: a value, once set, stays, and no candidate
    appears. *)
Definition cell_kept (cell cell' : tCell) : Prop :=
  (_value cell <> 0 -> _value cell' = _value cell)
  /\ (forall w, cell_hasCandidate cell' w = true ->
                cell_hasCandidate cell w = true).

Definition grid_kept (g g' : tGrid) : Prop :=
  N g' = N g /\ Forall2 cell_kept (cells g) (cells g').

(** What every propagation step does to a propagated grid. *)
Definition sound_step (g g' : tGrid) : Prop :=
  propagated g -> propagated g' /\ grid_kept g g'.

(** The indices of the set slots of an array, counted from [a]. *)
Fixpoint set_slots (l : list bool) (a : nat) : list nat :=
  match l with
  | [] => []
  | b :: l' => if b then a :: set_slots l' (S a) else set_slots l' (S a)
  end.

(** ** The loader, cell by cell *)

(** The value that the stream gives to the cell [rc]. *)
Definition stream_value (size : nat) (gridValues : list nat) (rc : nat * nat)
  : nat :=
  rd 0 gridValues (at2d size rc.1 rc.2).

(** The candidates loop of [grid_load] on one cell, given which values are
    possible at its position. *)
Definition cell_fill (possible : nat -> bool) (size : nat) (cell : tCell)
  : tCell :=
  fold_left
    (fun cell candidate =>
       mkCell (_value cell)
              (<[candidate := possible candidate]> (hasCandidate cell))
              (_candidateCount cell + Nat.b2n (possible candidate)))
    (range 1 (size + 1)) cell.

(** [grid_write]: the values of the cells, row by row, as the 32-bit words
    written to the stream. *)
Definition grid_write (g : tGrid) : list nat :=
  (fun rc => _value (grid_cellAt g rc.1 rc.2))
    <$> rect 0 (grid_size g) 0 (grid_size g).

(** The arrays of the grid have the sizes that [grid_load] allocates; the
    candidates of the cells may not be allocated yet. *)
Definition grid_sized (g : tGrid) : Prop :=
  length (cells g) = grid_size g * grid_size g
  /\ length (_isColumnFree g) = grid_size g * (grid_size g + 1)
  /\ length (_isRowFree g) = grid_size g * (grid_size g + 1)
  /\ length (_isBlockFree g) = N g * N g * (grid_size g + 1).

(** The cell that the second loops of [grid_load] leave at [rc]. *)
Definition grid_filled_cell (g : tGrid) (rc : nat * nat) : tCell :=
  let cell := grid_cellAt g rc.1 rc.2 in
  if cell_hasValue cell then cell
  else cell_fill (grid_possible g rc.1 rc.2) (grid_size g) cell.

(** A stream that [grid_load] accepts for a grid of side [size]: it holds
    [size · size] values at least, and the first [size · size] are at most
    [size]. *)
Definition stream_valid (size : nat) (inStream : list nat) : Prop :=
  size * size <= length inStream
  /\ Forall (fun v => v <= size) (take (size * size) inStream).

(** The first loops of [grid_load] mark [v] in the table slot [i]: some
    cell of the stream has the value [v ≠ 0] and [slot] of it is [i]. *)
Definition stream_marks (size : nat) (vals : list nat)
    (slot : nat * nat -> nat -> nat) (i : nat) : bool :=
  existsb (fun rc => negb (stream_value size vals rc =? 0)
                     && (slot rc (stream_value size vals rc) =? i))
          (rect 0 size 0 size).

(** * Properties *)

(** Closed goals on the example grids are decided by evaluation. *)
Ltac decide_with d := apply (@bool_decide_unpack _ d); vm_compute; exact I.

Arguments grid_cell_removeCandidate : simpl never.
Arguments grid_cell_provideValue : simpl never.
Arguments grid_removeCandidateFromRow : simpl never.
Arguments grid_removeCandidateFromColumn : simpl never.
Arguments grid_removeCandidateFromBlock : simpl never.
Arguments technique_nakedSingleton : simpl never.
Arguments technique_hiddenSingleton_findUniqueCandidate : simpl never.
Arguments hiddenSingleton_group : simpl never.
Arguments technique_hiddenSingleton : simpl never.
Arguments technique_nakedPair : simpl never.
Arguments technique_hiddenPair_findPair : simpl never.
Arguments technique_hiddenPair_removePairCells : simpl never.
Arguments hiddenPair_group : simpl never.
Arguments technique_hiddenPair : simpl never.
Arguments technique_x_wing : simpl never.
Arguments perform_cell : simpl never.
Arguments grid_possible : simpl never.

(** ** Arrays *)

Lemma rd_insert_eq {A} (d x : A) a i :
  i < length a -> rd d (<[i := x]> a) i = x.
Proof. intros Hi. unfold rd. by rewrite list_lookup_insert_eq. Qed.

Lemma rd_insert_ne {A} (d x : A) a i j :
  i <> j -> rd d (<[i := x]> a) j = rd d a j.
Proof. intros Hij. unfold rd. by rewrite list_lookup_insert_ne. Qed.

Lemma rd_insert {A} (d x : A) a i j :
  rd d (<[i := x]> a) j = if decide (i = j /\ i < length a) then x else rd d a j.
Proof.
  case_decide as H.
  - destruct H as [-> Hlt]. by apply rd_insert_eq.
  - destruct (decide (i = j)) as [->|Hne]; [|by apply rd_insert_ne].
    rewrite list_insert_ge; [done|lia].
Qed.

Lemma rd_ge {A} (d : A) a i : length a <= i -> rd d a i = d.
Proof. intros Hi. unfold rd. by rewrite lookup_ge_None_2. Qed.

Lemma rd_true_lt (a : list bool) i : rd false a i = true -> i < length a.
Proof.
  intros H. destruct (decide (i < length a)); [done|].
  rewrite rd_ge in H; [done|lia].
Qed.

Lemma rd_replicate {A} (d x : A) n i : i < n -> rd d (replicate n x) i = x.
Proof. intros Hi. unfold rd. by rewrite lookup_replicate_2. Qed.

Lemma rd_Forall {A} (P : A -> Prop) d a i : P d -> Forall P a -> P (rd d a i).
Proof.
  intros Hd Ha. unfold rd. destruct (a !! i) as [x|] eqn:E; [|done].
  simpl. eapply Forall_lookup_1; eauto.
Qed.

Lemma at2d_lt w h r c : r < h -> c < w -> at2d w r c < h * w.
Proof. unfold at2d. nia. Qed.

Lemma at2d_inj w r c r' c' :
  c < w -> c' < w -> at2d w r c = at2d w r' c' -> r = r' /\ c = c'.
Proof.
  unfold at2d. intros Hc Hc' H.
  assert (r = r') as -> by (destruct (lt_eq_lt_dec r r') as [[?|?]|?]; nia).
  split; [done|lia].
Qed.

Lemma at3d_lt d1 d2 d3 i j k :
  i < d1 -> j < d2 -> k < d3 -> at3d d2 d3 i j k < d1 * d2 * d3.
Proof.
  unfold at3d. intros Hi Hj Hk.
  assert (i * d2 + j < d1 * d2) by nia. nia.
Qed.

Lemma at3d_inj d2 d3 i j k i' j' k' :
  j < d2 -> j' < d2 -> k < d3 -> k' < d3 ->
  at3d d2 d3 i j k = at3d d2 d3 i' j' k' -> i = i' /\ j = j' /\ k = k'.
Proof.
  unfold at3d. intros Hj Hj' Hk Hk' H.
  destruct (at2d_inj d3 (i * d2 + j) k (i' * d2 + j') k' Hk Hk' H) as [H1 ->].
  destruct (at2d_inj d2 i j i' j' Hj Hj' H1) as [-> ->]. done.
Qed.

Lemma elem_of_range a b i : i ∈ range a b <-> a <= i < b.
Proof. unfold range. rewrite elem_of_seq. lia. Qed.

Lemma NoDup_range a b : NoDup (range a b).
Proof. apply NoDup_seq. Qed.

Lemma elem_of_rect r0 r1 c0 c1 r c :
  (r, c) ∈ rect r0 r1 c0 c1 <-> (r0 <= r < r1) /\ (c0 <= c < c1).
Proof.
  unfold rect. rewrite list_elem_of_bind. split.
  - intros (r' & H & Hr). apply list_elem_of_bind in H as (c' & H & Hc).
    apply list_elem_of_singleton in H. simplify_eq.
    by rewrite <- !elem_of_range.
  - intros [Hr Hc]. exists r. rewrite elem_of_range. split; [|done].
    apply list_elem_of_bind. exists c. rewrite elem_of_range.
    split; [|done]. by apply list_elem_of_singleton.
Qed.

(** ** Cells of a grid *)

Lemma grid_cellAt_set_eq g r c cell :
  at2d (grid_size g) r c < length (cells g) ->
  grid_cellAt (grid_setCellAt g r c cell) r c = cell.
Proof. intros H. unfold grid_cellAt. simpl. by apply rd_insert_eq. Qed.

Lemma grid_cellAt_set_ne g r c r' c' cell :
  at2d (grid_size g) r c <> at2d (grid_size g) r' c' ->
  grid_cellAt (grid_setCellAt g r c cell) r' c' = grid_cellAt g r' c'.
Proof. intros H. unfold grid_cellAt. simpl. by apply rd_insert_ne. Qed.

Lemma grid_cellAt_mark b g r c v r' c' :
  grid_cellAt (grid_markValueFree b g r c v) r' c' = grid_cellAt g r' c'.
Proof. done. Qed.

Lemma grid_wf_cell_index g r c :
  grid_wf g -> r < grid_size g -> c < grid_size g ->
  at2d (grid_size g) r c < length (cells g).
Proof. intros (-> & _) Hr Hc. by apply at2d_lt. Qed.

Lemma grid_wf_cell_length g r c :
  grid_wf g -> r < grid_size g -> c < grid_size g ->
  length (hasCandidate (grid_cellAt g r c)) = grid_size g + 1.
Proof.
  intros Hwf Hr Hc. pose proof (grid_wf_cell_index g r c Hwf Hr Hc) as Hi.
  destruct Hwf as (_ & Hcells & _).
  unfold grid_cellAt, rd. apply lookup_lt_is_Some_2 in Hi as [cell Hcell].
  rewrite Hcell. simpl. eapply Forall_lookup_1 in Hcells; eauto.
Qed.

(** ** Candidates of a cell *)

Lemma elem_of_cell_candidates size cell v :
  v ∈ cell_candidates size cell <->
  1 <= v <= size /\ cell_hasCandidate cell v = true.
Proof.
  unfold cell_candidates. rewrite list_elem_of_In, filter_In.
  rewrite <- list_elem_of_In, elem_of_range. intuition lia.
Qed.

Lemma cell_candidates_nil size cell :
  cell_candidates size cell = [] <->
  forall v, 1 <= v <= size -> cell_hasCandidate cell v = false.
Proof.
  split.
  - intros H v Hv. destruct (cell_hasCandidate cell v) eqn:E; [|done].
    assert (v ∈ cell_candidates size cell) as Hin
      by by apply elem_of_cell_candidates.
    rewrite H in Hin. by apply elem_of_nil in Hin.
  - intros H. destruct (cell_candidates size cell) as [|v l] eqn:E; [done|].
    assert (v ∈ cell_candidates size cell) as Hin by (rewrite E; left).
    apply elem_of_cell_candidates in Hin as [Hv Hhas].
    rewrite H in Hhas; done.
Qed.

Lemma filter_length_remove (f f' : nat -> bool) (l : list nat) v :
  NoDup l -> v ∈ l -> f v = true -> f' v = false ->
  (forall w, w <> v -> f' w = f w) ->
  length (List.filter f' l) + 1 = length (List.filter f l).
Proof.
  intros Hnd Hin Hf Hf' Hother. induction Hnd as [|x l Hx Hnd IH].
  - by apply elem_of_nil in Hin.
  - simpl. destruct (decide (x = v)) as [->|Hne].
    + rewrite Hf, Hf'. simpl.
      assert (List.filter f' l = List.filter f l) as ->; [|lia].
      apply filter_ext_in. intros w Hw. apply Hother.
      intros ->. by apply list_elem_of_In in Hw.
    + apply elem_of_cons in Hin as [->|Hin]; [done|].
      rewrite (Hother x Hne). destruct (f x); simpl; rewrite <- IH; auto.
Qed.

Lemma filter_ext_range (f f' : nat -> bool) a b :
  (forall w, a <= w < b -> f' w = f w) ->
  List.filter f' (range a b) = List.filter f (range a b).
Proof.
  intros H. apply filter_ext_in. intros w Hw. apply H.
  by apply list_elem_of_In, elem_of_range in Hw.
Qed.

(** The cell after [cell->hasCandidate[v] = false]. *)
Lemma cell_hasCandidate_clear_eq value cell v count :
  cell_hasCandidate (mkCell value (<[v := false]> (hasCandidate cell)) count) v
  = false.
Proof.
  unfold cell_hasCandidate. simpl. rewrite rd_insert.
  case_decide; [done|]. destruct (rd false (hasCandidate cell) v) eqn:E; [|done].
  apply rd_true_lt in E. naive_solver.
Qed.

Lemma cell_hasCandidate_clear_ne value cell v count w :
  w <> v ->
  cell_hasCandidate (mkCell value (<[v := false]> (hasCandidate cell)) count) w
  = cell_hasCandidate cell w.
Proof. intros H. unfold cell_hasCandidate. simpl. by rewrite rd_insert_ne. Qed.

Lemma cell_candidates_clear size value cell v count :
  1 <= v <= size -> cell_hasCandidate cell v = true ->
  length (cell_candidates size
            (mkCell value (<[v := false]> (hasCandidate cell)) count)) + 1
  = length (cell_candidates size cell).
Proof.
  intros Hv Hhas. unfold cell_candidates.
  apply (filter_length_remove _ _ _ v); auto using NoDup_range.
  - by apply elem_of_range; lia.
  - apply cell_hasCandidate_clear_eq.
  - intros w Hw. by apply cell_hasCandidate_clear_ne.
Qed.

Lemma first_set_spec l a :
  (exists i, rd false l i = true /\ first_set l a = a + i
             /\ forall j, j < i -> rd false l j = false)
  \/ (first_set l a = a + length l /\ forall j, rd false l j = false).
Proof.
  revert a. induction l as [|b l IH]; intros a; simpl.
  - right. split; [lia|]. intros j. by rewrite rd_ge by (simpl; lia).
  - destruct b.
    + left. exists 0. repeat split; [lia|]. intros j Hj. lia.
    + destruct (IH (S a)) as [(i & Hi & Hf & Hlt)|[Hf Hall]].
      * left. exists (S i). repeat split; [done|lia|].
        intros [|j] Hj; [done|]. apply Hlt. lia.
      * right. split; [lia|]. intros [|j]; [done|]. apply Hall.
Qed.

Lemma rd_drop {A} (d : A) n l i : rd d (drop n l) i = rd d l (n + i).
Proof. unfold rd. by rewrite lookup_drop. Qed.

(** The first candidate is a candidate, the least one, whenever the cell
    has a candidate at all. *)
Lemma cell_get_first_candidate_spec cell :
  (cell_hasCandidate cell (cell_get_first_candidate cell) = true
   /\ 1 <= cell_get_first_candidate cell
   /\ forall w, 1 <= w < cell_get_first_candidate cell ->
                cell_hasCandidate cell w = false)
  \/ (forall w, 1 <= w -> cell_hasCandidate cell w = false).
Proof.
  unfold cell_get_first_candidate, cell_hasCandidate.
  destruct (first_set_spec (drop 1 (hasCandidate cell)) 1)
    as [(i & Hi & -> & Hlt)|[_ Hall]].
  - left. rewrite rd_drop in Hi. repeat split; [done|lia|].
    intros w Hw. specialize (Hlt (w - 1)). rewrite rd_drop in Hlt.
    replace (1 + (w - 1)) with w in Hlt by lia. apply Hlt. lia.
  - right. intros w Hw. specialize (Hall (w - 1)). rewrite rd_drop in Hall.
    by replace (1 + (w - 1)) with w in Hall by lia.
Qed.

Lemma cell_candidates_length_1 size cell v :
  length (cell_candidates size cell) = 1 ->
  cell_get_first_candidate cell = v ->
  cell_candidates size cell = [v].
Proof.
  intros Hlen Hfirst.
  destruct (cell_candidates size cell) as [|w [|? ?]] eqn:E; try done.
  assert (w ∈ cell_candidates size cell) as Hw by (rewrite E; left).
  apply elem_of_cell_candidates in Hw as [Hw Hhas].
  destruct (cell_get_first_candidate_spec cell) as [(H1 & H2 & H3)|Hnone].
  - rewrite Hfirst in *.
    assert (v ∈ cell_candidates size cell) as Hv.
    { apply elem_of_cell_candidates. split; [|done].
      destruct (decide (v <= w)); [lia|]. rewrite H3 in Hhas; [done|lia]. }
    rewrite E in Hv. apply list_elem_of_singleton in Hv. by subst.
  - rewrite Hnone in Hhas; [done|lia].
Qed.

Lemma cell_candidates_singleton_first size cell v :
  cell_candidates size cell = [v] -> cell_get_first_candidate cell = v.
Proof.
  intros E.
  assert (v ∈ cell_candidates size cell) as Hv by (rewrite E; left).
  apply elem_of_cell_candidates in Hv as [Hv Hhas].
  destruct (cell_get_first_candidate_spec cell) as [(H1 & H2 & H3)|Hnone].
  - assert (cell_get_first_candidate cell ∈ cell_candidates size cell) as Hin.
    { apply elem_of_cell_candidates. split; [|done].
      destruct (decide (cell_get_first_candidate cell <= v)); [lia|].
      rewrite H3 in Hhas; [done|lia]. }
    rewrite E in Hin. by apply list_elem_of_singleton in Hin.
  - rewrite Hnone in Hhas; [done|lia].
Qed.

(** ** The cell invariant *)

Lemma cell_invariant_zero size : cell_invariant size cell_zero.
Proof.
  assert (cell_candidates size cell_zero = []) as E.
  { apply cell_candidates_nil. intros v _. unfold cell_hasCandidate.
    apply rd_ge. simpl. lia. }
  split; [by rewrite E|done].
Qed.

Lemma grid_cell_invariant_at g r c :
  grid_cell_invariant g -> cell_invariant (grid_size g) (grid_cellAt g r c).
Proof.
  intros H. unfold grid_cellAt.
  apply (rd_Forall (cell_invariant (grid_size g)));
    [apply cell_invariant_zero|done].
Qed.

Lemma grid_cell_invariant_set g r c cell :
  grid_cell_invariant g -> cell_invariant (grid_size g) cell ->
  grid_cell_invariant (grid_setCellAt g r c cell).
Proof. intros H Hcell. by apply Forall_insert. Qed.

Lemma rd_memset_false n a i : i < n -> rd false (memset_false n a) i = false.
Proof.
  intros Hi. unfold memset_false, rd.
  destruct (decide (i < length a)).
  - rewrite lookup_app_l by (rewrite length_replicate; lia).
    by rewrite lookup_replicate_2 by lia.
  - rewrite lookup_ge_None_2; [done|].
    rewrite length_app, length_replicate, length_drop. lia.
Qed.

(** What [grid_cell_removeCandidate] does to the cell in its two writing
    branches keeps the invariant of the cell. *)
Lemma cell_invariant_commit size cell v :
  1 <= v <= size -> cell_invariant size cell ->
  cell_candidate_count cell = 1 -> cell_get_first_candidate cell = v ->
  cell_candidates size (mkCell v (<[v := false]> (hasCandidate cell)) 0) = [].
Proof.
  intros Hv [Hcount _] Hone Hfirst. unfold cell_candidate_count in Hone.
  rewrite Hone in Hcount. symmetry in Hcount.
  pose proof (cell_candidates_length_1 _ _ _ Hcount Hfirst) as E.
  assert (cell_hasCandidate cell v = true) as Hhas.
  { eapply elem_of_cell_candidates. rewrite E. left. }
  pose proof (cell_candidates_clear size v cell v 0 Hv Hhas) as Hlen.
  rewrite E in Hlen. change (length [v]) with 1 in Hlen.
  apply nil_length_inv. lia.
Qed.

Lemma cell_invariant_remove size cell v :
  1 <= v <= size -> cell_invariant size cell ->
  cell_hasCandidate cell v = true ->
  cell_invariant size
    (mkCell (_value cell) (<[v := false]> (hasCandidate cell))
            (pred (_candidateCount cell))).
Proof.
  intros Hv [Hcount Hvalue] Hhas.
  pose proof (cell_candidates_clear size (_value cell) cell v
                (pred (_candidateCount cell)) Hv Hhas) as Hlen.
  split; simpl.
  - lia.
  - intros Hne. specialize (Hvalue Hne).
    assert (v ∈ cell_candidates size cell) as Hin
      by by apply elem_of_cell_candidates.
    rewrite Hvalue in Hin. by apply elem_of_nil in Hin.
Qed.

Lemma grid_cell_removeCandidate_invariant g r c v :
  1 <= v <= grid_size g -> grid_cell_invariant g ->
  grid_cell_invariant (grid_cell_removeCandidate g r c v).1.
Proof.
  intros Hv Hinv. unfold grid_cell_removeCandidate.
  pose proof (grid_cell_invariant_at g r c Hinv) as Hcell.
  destruct (_ && _) eqn:Hcond; simpl.
  - apply andb_true_iff in Hcond as [H1%Nat.eqb_eq H2%Nat.eqb_eq].
    apply (grid_cell_invariant_set g r c); [done|].
    pose proof (cell_invariant_commit _ _ _ Hv Hcell H1 H2) as E.
    rewrite H2. split; simpl; [by rewrite E|done].
  - destruct (cell_hasCandidate _ v) eqn:Hhas; simpl; [|done].
    apply grid_cell_invariant_set; [done|].
    by apply cell_invariant_remove.
Qed.

Lemma grid_cell_provideValue_invariant g r c v :
  grid_cell_invariant g -> grid_cell_invariant (grid_cell_provideValue g r c v).
Proof.
  intros Hinv. unfold grid_cell_provideValue.
  apply (grid_cell_invariant_set g r c); [done|].
  assert (cell_candidates (grid_size g)
            (mkCell v (memset_false (grid_size g + 1)
                         (hasCandidate (grid_cellAt g r c))) 0) = []) as E.
  { apply cell_candidates_nil. intros w Hw. unfold cell_hasCandidate. simpl.
    apply rd_memset_false. lia. }
  split; simpl; [by rewrite E|done].
Qed.

(** C8: the cell invariant (the cached count is the number of candidates
    among [1..S], and a cell with a value has no candidate) holds at every
    cell after [grid_cell_removeCandidate] (called, as it asserts, with a
    candidate in [1..S]) and after [grid_cell_provideValue] (called under its
    asserted precondition), whenever it held at every cell before. *)
Theorem cell_invariant_preserved g r c v :
  grid_cell_invariant g ->
  (1 <= v <= grid_size g ->
   grid_cell_invariant (grid_cell_removeCandidate g r c v).1)
  /\ (grid_cell_provideValue_pre g r c v ->
      grid_cell_invariant (grid_cell_provideValue g r c v)).
Proof.
  intros Hinv. split.
  - intros Hv. by apply grid_cell_removeCandidate_invariant.
  - intros _. by apply grid_cell_provideValue_invariant.
Qed.

Lemma cell_invariant_preserved_witness :
  grid_cell_invariant (grid_cell_removeCandidate grid_threeColumns 1 0 4).1
  /\ grid_cell_invariant (grid_cell_provideValue grid_threeColumns 1 0 4).
Proof.
  destruct (cell_invariant_preserved grid_threeColumns 1 0 4) as [H1 H2].
  - decide_with (grid_cell_invariant_dec grid_threeColumns).
  - split.
    + apply H1. vm_compute. lia.
    + apply H2. repeat split; vm_compute; (reflexivity || lia).
Defined.

(** ** [grid_cell_removeCandidate] *)

Lemma block_coord_lt n i : i < n * n -> i / n < n.
Proof. intros H. apply Nat.Div0.div_lt_upper_bound. lia. Qed.

(** After [grid_markValueFree(false, ...)] on a well-formed grid the three
    entries read [false]. *)
Lemma grid_markValueFree_read isFree g r c v :
  grid_wf g -> r < grid_size g -> c < grid_size g -> v <= grid_size g ->
  let g' := grid_markValueFree isFree g r c v in
  rd false (_isColumnFree g') (at2d (grid_size g + 1) c v) = isFree
  /\ rd false (_isRowFree g') (at2d (grid_size g + 1) r v) = isFree
  /\ rd false (_isBlockFree g')
        (at3d (N g) (grid_size g + 1) (r / N g) (c / N g) v) = isFree.
Proof.
  intros (_ & _ & Hcol & Hrow & Hblock) Hr Hc Hv. simpl.
  repeat split; apply rd_insert_eq.
  - rewrite Hcol. apply at2d_lt; lia.
  - rewrite Hrow. apply at2d_lt; lia.
  - rewrite Hblock. apply at3d_lt; [by apply block_coord_lt..|lia].
Qed.

Lemma grid_wf_setCellAt g r c cell :
  grid_wf g -> length (hasCandidate cell) = grid_size g + 1 ->
  grid_wf (grid_setCellAt g r c cell).
Proof.
  intros (H1 & H2 & H3) Hcell. split; [|split]; simpl; try done.
  - by rewrite length_insert.
  - by apply Forall_insert.
Qed.

(** C1: on a well-formed grid, for a cell [(r, c)] of the grid that
    satisfies the cell invariant and a candidate [v] in [1..S],
    [grid_cell_removeCandidate] (i) returns false and leaves the grid
    unchanged when the cell does not have [v]; (ii) when [v] is the only
    candidate of the cell, sets the value to [v], leaves no candidate and a
    count of 0, marks [v] unavailable in the row, the column and the block,
    and returns true; (iii) otherwise clears [v] alone among the candidates,
    decrements the count by one, keeps the value and the availability
    tables, and returns true.  No other cell changes in any case. *)
Theorem grid_cell_removeCandidate_cases g r c v :
  grid_wf g -> r < grid_size g -> c < grid_size g -> 1 <= v <= grid_size g ->
  cell_invariant (grid_size g) (grid_cellAt g r c) ->
  let size := grid_size g in
  let cell := grid_cellAt g r c in
  let g' := (grid_cell_removeCandidate g r c v).1 in
  let progress := (grid_cell_removeCandidate g r c v).2 in
  let cell' := grid_cellAt g' r c in
  (cell_hasCandidate cell v = false -> progress = false /\ g' = g)
  /\ (cell_candidates size cell = [v] ->
      progress = true
      /\ _value cell' = v
      /\ cell_candidates size cell' = []
      /\ _candidateCount cell' = 0
      /\ rd false (_isRowFree g') (at2d (size + 1) r v) = false
      /\ rd false (_isColumnFree g') (at2d (size + 1) c v) = false
      /\ rd false (_isBlockFree g')
            (at3d (N g) (size + 1) (r / N g) (c / N g) v) = false)
  /\ (cell_hasCandidate cell v = true -> cell_candidates size cell <> [v] ->
      progress = true
      /\ cell_hasCandidate cell' v = false
      /\ (forall w, w <> v -> cell_hasCandidate cell' w = cell_hasCandidate cell w)
      /\ _candidateCount cell' + 1 = _candidateCount cell
      /\ _value cell' = _value cell
      /\ _isRowFree g' = _isRowFree g
      /\ _isColumnFree g' = _isColumnFree g
      /\ _isBlockFree g' = _isBlockFree g)
  /\ (forall r' c', r' < size -> c' < size -> (r', c') <> (r, c) ->
      grid_cellAt g' r' c' = grid_cellAt g r' c').
Proof.
  intros Hwf Hr Hc Hv Hinv size cell g' progress cell'.
  pose proof (grid_wf_cell_index g r c Hwf Hr Hc) as Hidx.
  subst g' progress cell'. unfold grid_cell_removeCandidate.
  fold cell. subst size.
  destruct ((cell_candidate_count cell =? 1)
            && (cell_get_first_candidate cell =? v)) eqn:Hcond.
  - apply andb_true_iff in Hcond as [H1%Nat.eqb_eq H2%Nat.eqb_eq].
    assert (cell_candidates (grid_size g) cell = [v]) as E.
    { apply cell_candidates_length_1; [|done]. destruct Hinv as [Hcount _].
      fold cell in Hcount. by rewrite <- Hcount. }
    assert (cell_hasCandidate cell v = true) as Hhas.
    { eapply elem_of_cell_candidates. rewrite E. left. }
    cbn [fst snd]. rewrite grid_cellAt_mark, grid_cellAt_set_eq by done.
    split; [congruence|]. split; [|split; [congruence|]].
    + intros _.
      assert (grid_wf (grid_setCellAt g r c
                (mkCell (cell_get_first_candidate cell)
                        (<[v := false]> (hasCandidate cell)) 0))) as Hwf'.
      { apply grid_wf_setCellAt; [done|]. simpl. rewrite length_insert.
        by apply grid_wf_cell_length. }
      destruct (grid_markValueFree_read false _ r c v Hwf' Hr Hc (proj2 Hv))
        as (Hm1 & Hm2 & Hm3).
      split; [done|]. split; [exact H2|].
      split; [rewrite H2; by apply cell_invariant_commit|].
      split; [done|]. split; [exact Hm2|]. split; [exact Hm1|exact Hm3].
    + intros r' c' Hr' Hc' Hne. rewrite grid_cellAt_mark.
      apply grid_cellAt_set_ne. intros Heq.
      apply at2d_inj in Heq as [-> ->]; done.
  - destruct (cell_hasCandidate cell v) eqn:Hhas.
    + cbn [fst snd]. rewrite grid_cellAt_set_eq by done.
      split; [done|]. split; [|split].
      * intros E. exfalso.
        pose proof (cell_candidates_singleton_first _ _ _ E) as Hfirst.
        destruct Hinv as [Hcount _]. fold cell in Hcount. rewrite E in Hcount.
        unfold cell_candidate_count in Hcond. rewrite Hcount, Hfirst in Hcond.
        simpl in Hcond. by rewrite Nat.eqb_refl in Hcond.
      * intros _ _. repeat split; try done.
        -- apply cell_hasCandidate_clear_eq.
        -- intros w Hw. by apply cell_hasCandidate_clear_ne.
        -- simpl. destruct Hinv as [Hcount _].
           assert (v ∈ cell_candidates (grid_size g) cell) as Hin
             by by apply elem_of_cell_candidates.
           fold cell in Hcount. rewrite Hcount.
           destruct (cell_candidates (grid_size g) cell); [|simpl; lia].
           by apply elem_of_nil in Hin.
      * intros r' c' Hr' Hc' Hne. apply grid_cellAt_set_ne. intros Heq.
        apply at2d_inj in Heq as [-> ->]; done.
    + cbn [fst snd]. split; [done|]. split; [|split; [done|done]].
      intros E.
      assert (v ∈ cell_candidates (grid_size g) cell) as Hin by (rewrite E; left).
      apply elem_of_cell_candidates in Hin as [_ Hin]. congruence.
Qed.

Lemma grid_cell_removeCandidate_cases_witness :
  (grid_cell_removeCandidate grid_threeColumns 1 0 1).2 = true
  /\ cell_hasCandidate
       (grid_cellAt (grid_cell_removeCandidate grid_threeColumns 1 0 1).1 1 0) 1
     = false.
Proof.
  destruct (grid_cell_removeCandidate_cases grid_threeColumns 1 0 1)
    as (_ & _ & H & _).
  - decide_with (grid_wf_dec grid_threeColumns).
  - vm_compute. lia.
  - vm_compute. lia.
  - vm_compute. lia.
  - decide_with (cell_invariant_dec (grid_size grid_threeColumns)
                   (grid_cellAt grid_threeColumns 1 0)).
  - destruct H as (H1 & H2 & _).
    + vm_compute. reflexivity.
    + vm_compute. discriminate.
    + exact (conj H1 H2).
Defined.

(** ** No progress, no change *)

Lemma or_loop_cons {I} (step : tGrid -> I -> tGrid * bool) i l gp :
  or_loop step (i :: l) gp
  = or_loop step l ((step gp.1 i).1, gp.2 || (step gp.1 i).2).
Proof. unfold or_loop. simpl. by destruct (step gp.1 i). Qed.

Lemma or_loop_app {I} (step : tGrid -> I -> tGrid * bool) l1 l2 gp :
  or_loop step (l1 ++ l2) gp = or_loop step l2 (or_loop step l1 gp).
Proof. unfold or_loop. by rewrite fold_left_app. Qed.

(** A step that reports no progress only when it changed nothing. *)
Definition quiet_step {I} (step : tGrid -> I -> tGrid * bool) : Prop :=
  forall g i, (step g i).2 = false -> (step g i).1 = g.

Lemma or_loop_false {I} (step : tGrid -> I -> tGrid * bool) l gp :
  quiet_step step ->
  (or_loop step l gp).2 = false ->
  gp.2 = false /\ (or_loop step l gp).1 = gp.1.
Proof.
  intros Hstep. revert gp. induction l as [|i l IH]; intros gp H.
  - done.
  - rewrite or_loop_cons in *. apply IH in H as [H1 H2]. simpl in *.
    apply orb_false_iff in H1 as [H1 H3]. rewrite H2. split; [done|].
    by apply Hstep.
Qed.

(** An invariant of the steps is an invariant of the loop. *)
Lemma or_loop_preserves {I} (P : tGrid -> Prop)
    (step : tGrid -> I -> tGrid * bool) l gp :
  (forall g i, P g -> P (step g i).1) -> P gp.1 -> P (or_loop step l gp).1.
Proof.
  intros Hstep. revert gp. induction l as [|i l IH]; intros gp H; [done|].
  rewrite or_loop_cons. apply IH. simpl. by apply Hstep.
Qed.

Lemma grid_cell_removeCandidate_false g r c v :
  (grid_cell_removeCandidate g r c v).2 = false ->
  (grid_cell_removeCandidate g r c v).1 = g.
Proof.
  unfold grid_cell_removeCandidate. destruct (_ && _); [done|].
  by destruct (cell_hasCandidate _ _).
Qed.

Lemma grid_removeCandidateFromRow_false g r v :
  (grid_removeCandidateFromRow g r v).2 = false ->
  (grid_removeCandidateFromRow g r v).1 = g.
Proof.
  intros H. apply or_loop_false in H as [_ H]; [done|].
  intros g' c. apply grid_cell_removeCandidate_false.
Qed.

Lemma grid_removeCandidateFromColumn_false g c v :
  (grid_removeCandidateFromColumn g c v).2 = false ->
  (grid_removeCandidateFromColumn g c v).1 = g.
Proof.
  intros H. apply or_loop_false in H as [_ H]; [done|].
  intros g' r. apply grid_cell_removeCandidate_false.
Qed.

Lemma grid_removeCandidateFromBlock_false g r c v :
  (grid_removeCandidateFromBlock g r c v).2 = false ->
  (grid_removeCandidateFromBlock g r c v).1 = g.
Proof.
  intros H. apply or_loop_false in H as [_ H]; [done|].
  intros g' rc. apply grid_cell_removeCandidate_false.
Qed.

Lemma technique_nakedSingleton_false g r c :
  (technique_nakedSingleton g r c).2 = false ->
  (technique_nakedSingleton g r c).1 = g.
Proof.
  unfold technique_nakedSingleton. destruct (_ =? 1); [|done].
  set (v := cell_get_first_candidate _).
  destruct (grid_removeCandidateFromRow g r v) as [g1 p1] eqn:E1.
  destruct (grid_removeCandidateFromColumn g1 c v) as [g2 p2] eqn:E2.
  destruct (grid_removeCandidateFromBlock g2 r c v) as [g3 p3] eqn:E3.
  simpl. intros H.
  apply orb_false_iff in H as [H ->]. apply orb_false_iff in H as [-> ->].
  pose proof (grid_removeCandidateFromRow_false g r v) as H1.
  rewrite E1 in H1. simpl in H1. specialize (H1 eq_refl). subst g1.
  pose proof (grid_removeCandidateFromColumn_false g c v) as H2.
  rewrite E2 in H2. simpl in H2. specialize (H2 eq_refl). subst g2.
  pose proof (grid_removeCandidateFromBlock_false g r c v) as H3.
  rewrite E3 in H3. simpl in H3. by specialize (H3 eq_refl).
Qed.

Lemma hiddenSingleton_group_false group r0 r1 c0 c1 g pos progress g' pos' :
  hiddenSingleton_group group r0 r1 c0 c1 (g, pos, progress)
  = Some (g', pos', false) ->
  g' = g /\ progress = false.
Proof.
  unfold hiddenSingleton_group.
  destruct (technique_hiddenSingleton_findUniqueCandidate _ _ _ _ _ _)
    as [[candidate pos1]|]; simpl; [|done].
  destruct (candidate =? 0); intros H; by simplify_eq.
Qed.

Lemma technique_hiddenSingleton_false g r c g' :
  technique_hiddenSingleton g r c = Some (g', false) -> g' = g.
Proof.
  unfold technique_hiddenSingleton. intros H.
  apply bind_Some in H as ([[g1 pos1] p1] & E1 & H).
  apply bind_Some in H as ([[g2 pos2] p2] & E2 & H).
  apply bind_Some in H as ([[g3 pos3] p3] & E3 & H).
  cbn [fst snd] in *. simplify_eq.
  apply hiddenSingleton_group_false in E3 as [-> ->].
  apply hiddenSingleton_group_false in E2 as [-> ->].
  by apply hiddenSingleton_group_false in E1 as [-> _].
Qed.

Lemma nakedPair_remove_quiet pair : quiet_step (nakedPair_remove pair).
Proof.
  intros g rc. unfold nakedPair_remove.
  destruct (negb _); [|done].
  destruct (grid_cell_removeCandidate g rc.1 rc.2 pair.1) as [g1 b1] eqn:E1.
  destruct (grid_cell_removeCandidate g1 rc.1 rc.2 pair.2) as [g2 b2] eqn:E2.
  simpl. intros [-> ->]%orb_false_iff.
  pose proof (grid_cell_removeCandidate_false g rc.1 rc.2 pair.1) as H1.
  rewrite E1 in H1. specialize (H1 eq_refl). simpl in H1. subst g1.
  pose proof (grid_cell_removeCandidate_false g rc.1 rc.2 pair.2) as H2.
  rewrite E2 in H2. by specialize (H2 eq_refl).
Qed.

Lemma technique_nakedPair_false g r c :
  (technique_nakedPair g r c).2 = false -> (technique_nakedPair g r c).1 = g.
Proof.
  unfold technique_nakedPair. destruct (_ =? 2); [|done].
  destruct (_ =? 2); [|done]. intros H.
  apply or_loop_false in H as [_ H]; [done|]. apply nakedPair_remove_quiet.
Qed.

Lemma removePairCells_step_quiet candidates pos :
  quiet_step (removePairCells_step candidates pos).
Proof.
  intros g v. unfold removePairCells_step. destruct (_ && _); [|done].
  apply grid_cell_removeCandidate_false.
Qed.

Lemma technique_hiddenPair_removePairCells_false g positions candidates :
  (technique_hiddenPair_removePairCells g positions candidates).2 = false ->
  (technique_hiddenPair_removePairCells g positions candidates).1 = g.
Proof.
  unfold technique_hiddenPair_removePairCells. intros H.
  apply or_loop_false in H as [H1 H2]; [|apply removePairCells_step_quiet].
  apply or_loop_false in H1 as [_ H1]; [|apply removePairCells_step_quiet].
  by rewrite H2, H1.
Qed.

Lemma hiddenPair_group_false r c r0 r1 c0 c1 st :
  (hiddenPair_group r c r0 r1 c0 c1 st).2 = false ->
  (hiddenPair_group r c r0 r1 c0 c1 st).1.1 = st.1.1 /\ st.2 = false.
Proof.
  destruct st as [[g p1] progress]. unfold hiddenPair_group.
  destruct (2 <=? _); [|done].
  destruct (technique_hiddenPair_findPair _ _ _ _ _ _) as [[candidates|] p1'];
    [|done].
  destruct (technique_hiddenPair_removePairCells _ _ _) as [g' b] eqn:E.
  simpl. intros [-> ->]%orb_false_iff. split; [|done].
  pose proof (technique_hiddenPair_removePairCells_false
                g (mkPos r c, p1') candidates) as H.
  rewrite E in H. by specialize (H eq_refl).
Qed.

Lemma technique_hiddenPair_false g r c :
  (technique_hiddenPair g r c).2 = false -> (technique_hiddenPair g r c).1 = g.
Proof.
  unfold technique_hiddenPair. cbn zeta. cbn [fst snd]. intros H.
  apply hiddenPair_group_false in H as [H3 H].
  apply hiddenPair_group_false in H as [H2 H].
  apply hiddenPair_group_false in H as [H1 _].
  rewrite H3, H2, H1. done.
Qed.

Lemma perform_cell_false g progress rc g' :
  perform_cell (g, progress) rc = Some (g', false) ->
  g' = g /\ progress = false.
Proof.
  unfold perform_cell.
  destruct (cell_hasValue _); [intros; by simplify_eq|].
  destruct (technique_nakedSingleton g rc.1 rc.2) as [g1 b1] eqn:E1.
  pose proof (technique_nakedSingleton_false g rc.1 rc.2) as H1.
  rewrite E1 in H1. simpl in H1.
  destruct (cell_hasValue _).
  { intros [= <- H]. apply orb_false_iff in H as [-> ->]. auto. }
  destruct (technique_hiddenSingleton g1 rc.1 rc.2) as [[g2 b2]|] eqn:E2;
    cbn [mbind option_bind]; [|done].
  assert (b2 = false -> g2 = g1) as H2.
  { intros ->. by apply technique_hiddenSingleton_false in E2. }
  destruct (cell_hasValue _).
  { intros [= <- H]. apply orb_false_iff in H as [H ->].
    apply orb_false_iff in H as [-> ->]. rewrite H2, H1; auto. }
  destruct (technique_nakedPair g2 rc.1 rc.2) as [g3 b3] eqn:E3.
  pose proof (technique_nakedPair_false g2 rc.1 rc.2) as H3.
  rewrite E3 in H3. simpl in H3.
  destruct (cell_hasValue _).
  { intros [= <- H]. apply orb_false_iff in H as [H ->].
    apply orb_false_iff in H as [H ->].
    apply orb_false_iff in H as [-> ->]. rewrite H3, H2, H1; auto. }
  destruct (technique_hiddenPair g3 rc.1 rc.2) as [g4 b4] eqn:E4.
  pose proof (technique_hiddenPair_false g3 rc.1 rc.2) as H4.
  rewrite E4 in H4. simpl in H4.
  intros [= <- H]. apply orb_false_iff in H as [H ->].
  apply orb_false_iff in H as [H ->]. apply orb_false_iff in H as [H ->].
  apply orb_false_iff in H as [-> ->]. rewrite H4, H3, H2, H1; auto.
Qed.

Lemma for_abort_perform_cell_false l g progress g' :
  for_abort perform_cell l (g, progress) = Some (g', false) ->
  g' = g /\ progress = false.
Proof.
  revert g progress. induction l as [|rc l IH]; intros g progress H; simpl in H.
  - by simplify_eq.
  - destruct (perform_cell (g, progress) rc) as [[g1 p1]|] eqn:E; simpl in H;
      [|done].
    apply IH in H as [-> ->]. by apply perform_cell_false in E.
Qed.

(** C7: if [perform_simpleTechniques] returns false then it left the grid
    unchanged, and a second call returns false as well and leaves the grid
    identical, in every field. *)
Theorem perform_simpleTechniques_idempotent g g' :
  perform_simpleTechniques g = Some (g', false) ->
  g' = g /\ perform_simpleTechniques g' = Some (g', false).
Proof.
  intros H. pose proof H as H'. unfold perform_simpleTechniques in H'.
  apply for_abort_perform_cell_false in H' as [-> _]. done.
Qed.

Lemma perform_simpleTechniques_idempotent_witness :
  grid_empty4 = grid_empty4
  /\ perform_simpleTechniques grid_empty4 = Some (grid_empty4, false).
Proof.
  apply (perform_simpleTechniques_idempotent grid_empty4 grid_empty4).
  vm_compute. reflexivity.
Defined.

(** ** Backtracking *)

Lemma rd_true_lookup (a : list bool) i : rd false a i = true -> a !! i = Some true.
Proof. unfold rd. destruct (a !! i) as [[]|]; simpl; congruence. Qed.

Lemma insert_true_false (a : list bool) i :
  rd false a i = true -> <[i := true]> (<[i := false]> a) = a.
Proof.
  intros H%rd_true_lookup. rewrite list_insert_insert_eq.
  by apply list_insert_id.
Qed.

(** Undoing a tentative mark restores the grid. *)
Lemma grid_markValueFree_undo g r c v :
  grid_possible g r c v = true ->
  grid_markValueFree true (grid_markValueFree false g r c v) r c v = g.
Proof.
  unfold grid_possible. intros [[H1 H2]%andb_true_iff H3]%andb_true_iff.
  destruct g as [n cs col rw blk]. unfold grid_markValueFree, grid_size in *.
  simpl in *. f_equal; by apply insert_true_false.
Qed.

Lemma grid_candidates_setValueAtPos g pos value :
  grid_candidates (grid_setValueAtPos g pos value) = grid_candidates g.
Proof.
  unfold grid_candidates, grid_setValueAtPos, grid_cellAtPos, grid_cellAt.
  simpl. set (i := at2d _ _ _). unfold rd.
  destruct (cells g !! i) as [cell|] eqn:E; simpl.
  - rewrite list_fmap_insert. simpl.
    apply list_insert_id. by rewrite list_lookup_fmap, E.
  - by rewrite list_insert_ge by by apply lookup_ge_None_1.
Qed.

(** The outcome of a backtracking call entered with the grid [g]: it
    returns, the candidates of every cell are those of [g], and on failure
    the whole grid is [g] again. *)
Definition backtracking_post (g : tGrid)
    (res : option (tGrid * list tPosition * bool)) : Prop :=
  exists g' ps' b,
    res = Some (g', ps', b)
    /\ grid_candidates g' = grid_candidates g
    /\ N g' = N g
    /\ (b = false -> g' = g).

Lemma backtracking_values_post recurse pos values g ps :
  (forall g1 ps1, backtracking_post g1 (recurse g1 ps1)) ->
  backtracking_post g (backtracking_values recurse pos values g ps).
Proof.
  intros Hrec. revert g ps. induction values as [|value values IH];
    intros g ps; simpl.
  - by exists g, ps, false.
  - destruct (grid_possible g (row pos) (column pos) value) eqn:Hposs; [|done].
    destruct (Hrec (grid_markValueFree false g (row pos) (column pos) value) ps)
      as (g2 & ps2 & b & -> & Hcand & HN & Hfail).
    destruct b.
    + exists (grid_setValueAtPos g2 pos value), ps2, true.
      rewrite grid_candidates_setValueAtPos. done.
    + rewrite (Hfail eq_refl), grid_markValueFree_undo by done. apply IH.
Qed.

Lemma backtracking_fuel_post fuel g ps count i :
  i <= count -> count - i <= fuel ->
  backtracking_post g (backtracking_fuel fuel g ps count i).
Proof.
  revert g ps i. induction fuel as [|fuel IH]; intros g ps i Hi Hfuel; simpl.
  - replace i with count by lia. rewrite Nat.eqb_refl. by exists g, ps, true.
  - destruct (i =? count) eqn:E; [by exists g, ps, true|].
    apply Nat.eqb_neq in E. apply backtracking_values_post.
    intros g1 ps1. apply IH; lia.
Qed.

(** C5: a call of [technique_backtracking] with a start index within the
    array returns, and when it returns false the three availability tables
    and the value of every cell are what they were at entry. *)
Theorem technique_backtracking_failure_restores g ps count i :
  i <= count ->
  exists g' ps' b,
    technique_backtracking g ps count i = Some (g', ps', b)
    /\ (b = false ->
        _isRowFree g' = _isRowFree g
        /\ _isColumnFree g' = _isColumnFree g
        /\ _isBlockFree g' = _isBlockFree g
        /\ grid_values g' = grid_values g).
Proof.
  intros Hi.
  destruct (backtracking_fuel_post (count - i) g ps count i Hi (le_n _))
    as (g' & ps' & b & E & _ & _ & Hfail).
  exists g', ps', b. split; [done|]. by intros ->%Hfail.
Qed.

Lemma technique_backtracking_failure_restores_witness :
  exists g' ps' b,
    technique_backtracking grid_unsolvable (emptyCells grid_unsolvable) 14 0
    = Some (g', ps', b)
    /\ (b = false ->
        _isRowFree g' = _isRowFree grid_unsolvable
        /\ _isColumnFree g' = _isColumnFree grid_unsolvable
        /\ _isBlockFree g' = _isBlockFree grid_unsolvable
        /\ grid_values g' = grid_values grid_unsolvable).
Proof. apply technique_backtracking_failure_restores. lia. Defined.

(** C6: a call of [technique_backtracking] with a start index within the
    array returns, true or false, and the [hasCandidate] array and the
    [_candidateCount] of every cell are then what they were at entry (and
    the grid has the same cells and size factor). *)
Theorem technique_backtracking_keeps_candidates g ps count i :
  i <= count ->
  exists g' ps' b,
    technique_backtracking g ps count i = Some (g', ps', b)
    /\ grid_candidates g' = grid_candidates g
    /\ N g' = N g.
Proof.
  intros Hi.
  destruct (backtracking_fuel_post (count - i) g ps count i Hi (le_n _))
    as (g' & ps' & b & E & Hcand & HN & _).
  by exists g', ps', b.
Qed.

Lemma technique_backtracking_keeps_candidates_witness :
  exists g' ps' b,
    technique_backtracking grid_empty4 (emptyCells grid_empty4) 16 0
    = Some (g', ps', b)
    /\ grid_candidates g' = grid_candidates grid_empty4
    /\ N g' = N grid_empty4.
Proof. apply technique_backtracking_keeps_candidates. lia. Defined.

(** ** The search of a hidden singleton *)

(** A loop that adds [f i] to the slot [i] of an array, for distinct [i]. *)
Lemma fold_left_add_slots (f : nat -> nat) l counts v :
  NoDup l -> (forall i, i ∈ l -> i < length counts) ->
  let counts' := fold_left (fun cs i => <[i := rd 0 cs i + f i]> cs) l counts in
  length counts' = length counts
  /\ rd 0 counts' v = rd 0 counts v + (if decide (v ∈ l) then f v else 0).
Proof.
  intros Hnd. revert counts. induction Hnd as [|i l Hi Hnd IH];
    intros counts Hlen; cbn [fold_left].
  - split; [done|]. destruct (decide (v ∈ [])) as [H|_]; [|lia].
    by apply elem_of_nil in H.
  - destruct (IH (<[i := rd 0 counts i + f i]> counts)) as [IH1 IH2].
    { intros j Hj. rewrite length_insert. apply Hlen. by right. }
    rewrite IH1, length_insert. split; [done|]. rewrite IH2.
    destruct (decide (v = i)) as [->|Hne].
    + rewrite rd_insert_eq by (apply Hlen; left).
      destruct (decide (i ∈ l)) as [?|_]; [done|].
      destruct (decide (i ∈ i :: l)) as [_|Hn]; [lia|].
      exfalso. apply Hn. left.
    + rewrite rd_insert_ne by done.
      destruct (decide (v ∈ l)) as [Hin|Hnin];
        destruct (decide (v ∈ i :: l)) as [Hin'|Hnin']; try done.
      * exfalso. apply Hnin'. by right.
      * by apply elem_of_cons in Hin' as [?|?].
Qed.

Lemma count_cell_candidates_spec size cell counts v :
  length counts = size + 1 -> 1 <= v <= size ->
  length (count_cell_candidates size cell counts) = size + 1
  /\ rd 0 (count_cell_candidates size cell counts) v
     = rd 0 counts v + Nat.b2n (cell_hasCandidate cell v).
Proof.
  intros Hlen Hv. unfold count_cell_candidates.
  destruct (fold_left_add_slots
              (fun i => Nat.b2n (cell_hasCandidate cell i))
              (range 1 (size + 1)) counts v) as [H1 H2].
  - apply NoDup_range.
  - intros i Hi%elem_of_range. lia.
  - rewrite H1, H2. split; [done|]. rewrite decide_True; [done|].
    apply elem_of_range. lia.
Qed.

Lemma fold_count_cell_candidates g l counts v :
  length counts = grid_size g + 1 -> 1 <= v <= grid_size g ->
  let counts' :=
    fold_left (fun counts rc =>
                 count_cell_candidates (grid_size g) (grid_cellAt g rc.1 rc.2)
                                       counts) l counts in
  length counts' = grid_size g + 1
  /\ rd 0 counts' v = rd 0 counts v + occurrences g l v.
Proof.
  intros Hlen Hv. revert counts Hlen. unfold occurrences.
  induction l as [|rc l IH]; intros counts Hlen; simpl.
  - split; [done|lia].
  - destruct (count_cell_candidates_spec (grid_size g)
                (grid_cellAt g rc.1 rc.2) counts v Hlen Hv) as [H1 H2].
    destruct (IH _ H1) as [IH1 IH2]. split; [done|]. rewrite IH2, H2.
    destruct (cell_hasCandidate _ v); simpl; lia.
Qed.

(** The counting pass counts the occurrences of each candidate. *)
Lemma count_candidates_spec g l v :
  1 <= v <= grid_size g -> rd 0 (count_candidates g l) v = occurrences g l v.
Proof.
  intros Hv. unfold count_candidates.
  destruct (fold_count_cell_candidates g l
              (replicate (grid_size g + 1) 0) v) as [_ H]; [|done|].
  - by rewrite length_replicate.
  - rewrite H, rd_replicate; lia.
Qed.

Lemma search_unique_spec counts candidate remaining :
  let v := search_unique counts candidate remaining in
  (candidate <= v < candidate + remaining /\ rd 0 counts v = 1
   /\ forall w, candidate <= w < v -> rd 0 counts w <> 1)
  \/ (v = candidate + remaining
      /\ forall w, candidate <= w < candidate + remaining -> rd 0 counts w <> 1).
Proof.
  revert candidate. induction remaining as [|n IH]; intros candidate; simpl.
  - right. split; [lia|]. intros w Hw. lia.
  - destruct (rd 0 counts candidate =? 1) eqn:E.
    + apply Nat.eqb_eq in E. left. repeat split; [lia..|done|].
      intros w Hw. lia.
    + apply Nat.eqb_neq in E.
      destruct (IH (S candidate)) as [(H1 & H2 & H3)|[H1 H2]].
      * left. repeat split; [lia..|done|]. intros w Hw.
        destruct (decide (w = candidate)) as [->|]; [done|]. apply H3. lia.
      * right. split; [lia|]. intros w Hw.
        destruct (decide (w = candidate)) as [->|]; [done|]. apply H2. lia.
Qed.

(** C9: for every grid and scan rectangle,
    [technique_hiddenSingleton_findUniqueCandidate] does not reach its
    [dbg_fail].  Either some candidate occurs exactly once over the
    rectangle, and the function returns the least such candidate together
    with the position of a cell of the rectangle that holds it; or no
    candidate occurs exactly once, and it returns 0 (leaving the position
    as it was). *)
Theorem findUniqueCandidate_never_fails g rStart rEnd cStart cEnd pos :
  let scanned := rect rStart rEnd cStart cEnd in
  let result :=
    technique_hiddenSingleton_findUniqueCandidate g rStart rEnd cStart cEnd pos
  in
  (exists v r c,
     result = Some (v, mkPos r c)
     /\ 1 <= v <= grid_size g
     /\ occurrences g scanned v = 1
     /\ (forall w, 1 <= w < v -> occurrences g scanned w <> 1)
     /\ (r, c) ∈ scanned
     /\ cell_hasCandidate (grid_cellAt g r c) v = true)
  \/ (result = Some (0, pos)
      /\ forall v, 1 <= v <= grid_size g -> occurrences g scanned v <> 1).
Proof.
  intros scanned result. subst result.
  unfold technique_hiddenSingleton_findUniqueCandidate. fold scanned.
  destruct (search_unique_spec (count_candidates g scanned) 1 (grid_size g))
    as [(H1 & H2 & H3)|[H1 H2]];
    set (v := search_unique (count_candidates g scanned) 1 (grid_size g)) in *.
  - left. rewrite (proj2 (Nat.eqb_neq v (grid_size g + 1))) by lia.
    rewrite count_candidates_spec in H2 by lia.
    destruct (find _ scanned) as [[r c]|] eqn:E.
    + apply find_some in E as [Hin Hhas]. exists v, r, c.
      repeat split; [lia..|done| |by apply list_elem_of_In|done].
      intros w Hw. rewrite <- count_candidates_spec by lia. apply H3. lia.
    + exfalso. unfold occurrences in H2.
      destruct (List.filter _ scanned) as [|rc ?] eqn:Ef; [done|].
      assert (In rc (List.filter
                (fun rc => cell_hasCandidate (grid_cellAt g rc.1 rc.2) v)
                scanned)) as Hin by (rewrite Ef; left; done).
      apply filter_In in Hin as [Hin Hhas].
      pose proof (find_none _ _ E rc Hin) as Hno. simpl in Hno. congruence.
  - right. rewrite (proj2 (Nat.eqb_eq v (grid_size g + 1))) by lia.
    split; [done|]. intros w Hw. rewrite <- count_candidates_spec by lia.
    apply H2. lia.
Qed.

(** ** Loops over distinct cells *)

Lemma grid_wf_markValueFree b g r c v :
  grid_wf g -> grid_wf (grid_markValueFree b g r c v).
Proof.
  intros (H1 & H2 & H3 & H4 & H5). unfold grid_wf. simpl.
  by rewrite !length_insert.
Qed.

Lemma grid_cell_removeCandidate_N g r c v :
  N (grid_cell_removeCandidate g r c v).1 = N g.
Proof.
  unfold grid_cell_removeCandidate. destruct (_ && _); [done|].
  by destruct (cell_hasCandidate _ _).
Qed.

Lemma grid_cell_removeCandidate_wf g r c v :
  grid_wf g -> in_grid g (r, c) -> grid_wf (grid_cell_removeCandidate g r c v).1.
Proof.
  intros Hwf [Hr Hc]. simpl in *.
  pose proof (grid_wf_cell_length g r c Hwf Hr Hc) as Hlen.
  unfold grid_cell_removeCandidate. destruct (_ && _); simpl.
  - apply grid_wf_markValueFree, grid_wf_setCellAt; [done|].
    simpl. by rewrite length_insert.
  - destruct (cell_hasCandidate _ _); simpl; [|done].
    apply grid_wf_setCellAt; [done|]. simpl. by rewrite length_insert.
Qed.

Lemma grid_cell_removeCandidate_at g r c v :
  grid_wf g -> in_grid g (r, c) ->
  grid_cellAt (grid_cell_removeCandidate g r c v).1 r c
  = cell_removeCandidate v (grid_cellAt g r c).
Proof.
  intros Hwf [Hr Hc]. simpl in *.
  pose proof (grid_wf_cell_index g r c Hwf Hr Hc) as Hidx.
  unfold grid_cell_removeCandidate, cell_removeCandidate.
  destruct (_ && _); simpl.
  - by rewrite grid_cellAt_mark, grid_cellAt_set_eq.
  - destruct (cell_hasCandidate _ _); simpl; [|done].
    by rewrite grid_cellAt_set_eq.
Qed.

Lemma grid_cell_removeCandidate_progress g r c v :
  (grid_cell_removeCandidate g r c v).2
  = cell_removeCandidate_progress v (grid_cellAt g r c).
Proof.
  unfold grid_cell_removeCandidate, cell_removeCandidate_progress.
  destruct (_ && _); simpl; [done|]. by destruct (cell_hasCandidate _ _).
Qed.

Lemma grid_cell_removeCandidate_frame g r c v r' c' :
  in_grid g (r, c) -> in_grid g (r', c') -> (r', c') <> (r, c) ->
  grid_cellAt (grid_cell_removeCandidate g r c v).1 r' c' = grid_cellAt g r' c'.
Proof.
  intros [Hr Hc] [Hr' Hc'] Hne. simpl in *.
  assert (at2d (grid_size g) r c <> at2d (grid_size g) r' c') as Hidx.
  { intros [-> ->]%at2d_inj; done. }
  unfold grid_cell_removeCandidate. destruct (_ && _); simpl.
  - rewrite grid_cellAt_mark. by apply grid_cellAt_set_ne.
  - destruct (cell_hasCandidate _ _); simpl; [|done].
    by apply grid_cellAt_set_ne.
Qed.

(** [grid_cell_removeCandidate] at the position [pos i], when [keep i]. *)
Lemma cell_step_removeCandidate {I} (pos : I -> nat * nat) (keep : I -> bool)
    (v : nat) :
  cell_step pos
    (fun i cell => if keep i then cell_removeCandidate v cell else cell)
    (fun i cell => keep i && cell_removeCandidate_progress v cell)
    (fun g i => if keep i
                then grid_cell_removeCandidate g (pos i).1 (pos i).2 v
                else (g, false)).
Proof.
  split; intros g i; destruct (keep i); simpl; try done.
  - apply grid_cell_removeCandidate_N.
  - intros. apply grid_cell_removeCandidate_wf; [done|]. by destruct (pos i).
  - intros. apply grid_cell_removeCandidate_at; [done|]. by destruct (pos i).
  - intros. apply grid_cell_removeCandidate_progress.
  - intros [r' c'] Hwf Hi Hrc Hne. simpl.
    apply grid_cell_removeCandidate_frame; try done; by destruct (pos i).
Qed.

Lemma in_grid_N g g' rc : N g' = N g -> in_grid g rc -> in_grid g' rc.
Proof. unfold in_grid, grid_size. by intros ->. Qed.

Lemma existsb_ext_elem {A} (f f' : A -> bool) (l : list A) :
  (forall x, x ∈ l -> f x = f' x) -> existsb f l = existsb f' l.
Proof.
  induction l as [|x l IH]; intros H; simpl; [done|].
  rewrite H by left. rewrite IH; [done|]. intros y Hy. apply H. by right.
Qed.

(** A loop of one-cell steps over distinct cells of the grid does to each
    cell what its step does, and leaves the other cells alone. *)
Lemma or_loop_cell_step {I} (pos : I -> nat * nat) F B step
    (Hstep : cell_step pos F B step) (l : list I) gp :
  grid_wf gp.1 -> NoDup (pos <$> l) ->
  (forall i, i ∈ l -> in_grid gp.1 (pos i)) ->
  let res := or_loop step l gp in
  grid_wf res.1 /\ N res.1 = N gp.1
  /\ (forall i, i ∈ l ->
      grid_cellAt res.1 (pos i).1 (pos i).2
      = F i (grid_cellAt gp.1 (pos i).1 (pos i).2))
  /\ (forall rc, in_grid gp.1 rc -> rc ∉ pos <$> l ->
      grid_cellAt res.1 rc.1 rc.2 = grid_cellAt gp.1 rc.1 rc.2)
  /\ res.2
     = gp.2 || existsb (fun i => B i (grid_cellAt gp.1 (pos i).1 (pos i).2)) l.
Proof.
  revert gp. induction l as [|i l IH]; intros gp Hwf Hnd Hin; cbn zeta.
  - unfold or_loop. simpl. split; [done|]. split; [done|].
    split; [by intros ? ?%elem_of_nil|]. split; [done|].
    by rewrite orb_false_r.
  - rewrite or_loop_cons. rewrite fmap_cons in Hnd.
    apply NoDup_cons in Hnd as [Hi Hnd].
    assert (in_grid gp.1 (pos i)) as Hpi by (apply Hin; left).
    set (gp1 := ((step gp.1 i).1, gp.2 || (step gp.1 i).2)).
    assert (N gp1.1 = N gp.1) as HN by apply (cell_step_N _ _ _ _ Hstep).
    destruct (IH gp1) as (IH1 & IH2 & IH3 & IH4 & IH5).
    { by apply (cell_step_wf _ _ _ _ Hstep). }
    { done. }
    { intros j Hj. apply (in_grid_N gp.1); [done|]. apply Hin. by right. }
    assert (forall j, j ∈ l ->
              grid_cellAt gp1.1 (pos j).1 (pos j).2
              = grid_cellAt gp.1 (pos j).1 (pos j).2) as Hsame.
    { intros j Hj. apply (cell_step_frame _ _ _ _ Hstep); try done.
      - apply Hin. by right.
      - intros E. apply Hi. rewrite <- E. by apply list_elem_of_fmap_2. }
    split; [done|]. split; [by rewrite IH2|]. split; [|split].
    + intros j [->|Hj]%elem_of_cons.
      * rewrite IH4; [| by apply (in_grid_N gp.1) | done].
        by apply (cell_step_at _ _ _ _ Hstep).
      * rewrite IH3 by done. by rewrite Hsame.
    + intros rc Hrc Hnin. rewrite fmap_cons in Hnin.
      apply not_elem_of_cons in Hnin as [Hne Hnin].
      rewrite IH4; [| by apply (in_grid_N gp.1) | done].
      by apply (cell_step_frame _ _ _ _ Hstep).
    + rewrite IH5. simpl. rewrite (cell_step_progress _ _ _ _ Hstep) by done.
      rewrite <- orb_assoc. do 2 f_equal.
      apply existsb_ext_elem. intros j Hj. by rewrite Hsame.
Qed.

(** ** X-wing *)

Lemma cell_removeCandidate_has v cell w :
  cell_hasCandidate (cell_removeCandidate v cell) w
  = cell_hasCandidate cell w && negb (w =? v).
Proof.
  unfold cell_removeCandidate.
  destruct (decide (w = v)) as [->|Hne].
  - rewrite Nat.eqb_refl, andb_false_r.
    destruct (_ && _); [apply cell_hasCandidate_clear_eq|].
    destruct (cell_hasCandidate cell v) eqn:E; [|done].
    apply cell_hasCandidate_clear_eq.
  - rewrite (proj2 (Nat.eqb_neq w v)) by done. rewrite andb_true_r.
    destruct (_ && _); [by apply cell_hasCandidate_clear_ne|].
    destruct (cell_hasCandidate cell v); [|done].
    by apply cell_hasCandidate_clear_ne.
Qed.

Lemma range_cons a b : a < b -> range a b = a :: range (S a) b.
Proof.
  intros H. unfold range. replace (b - a) with (S (b - S a)) by lia. done.
Qed.

Lemma range_split a b c : a <= b <= c -> range a c = range a b ++ range b c.
Proof.
  intros H. unfold range. replace (c - a) with ((b - a) + (c - b)) by lia.
  rewrite seq_app. do 2 f_equal. lia.
Qed.

Lemma x_wing_scan_skip has1 has2 l s :
  (forall i, i ∈ l -> has1 i = false /\ has2 i = false) ->
  fold_left (x_wing_scan_step has1 has2) l s = s.
Proof.
  revert s. induction l as [|i l IH]; intros s H; simpl; [done|].
  rewrite IH by (intros j Hj; apply H; by right).
  destruct (H i) as [H1 H2]; [left|]. unfold x_wing_scan_step.
  rewrite H1, H2. simpl. rewrite !Nat.add_0_r. by destruct s as [? ? [? ?]].
Qed.

Lemma x_wing_scan_step_both has1 has2 s i :
  has1 i = true -> has2 i = true ->
  x_wing_scan_step has1 has2 s i
  = mkXWingScan
      (if candidateInBothCount s <? 2 then
         (if candidateInBothCount s =? 0 then (i, (lines s).2)
          else ((lines s).1, i))
       else lines s)
      (candidateInBothCount s + 1)
      ((candidateCounts s).1 + 1, (candidateCounts s).2 + 1).
Proof. intros H1 H2. unfold x_wing_scan_step. by rewrite H1, H2. Qed.

(** The counting loop finds the two crossing indices of a confined pair. *)
Lemma x_wing_scan_confined size has1 has2 b1 b2 :
  b1 < b2 < size ->
  (forall b, b < size -> has1 b = (b =? b1) || (b =? b2)) ->
  (forall b, b < size -> has2 b = (b =? b1) || (b =? b2)) ->
  x_wing_scan size has1 has2 = mkXWingScan (b1, b2) 2 (2, 2).
Proof.
  intros Hb H1 H2. unfold x_wing_scan.
  assert (forall l s, (forall i, i ∈ l -> i < size /\ i <> b1 /\ i <> b2) ->
            fold_left (x_wing_scan_step has1 has2) l s = s) as Hskip.
  { intros l s Hl. apply x_wing_scan_skip. intros i Hi.
    destruct (Hl i Hi) as (Hlt & Hn1 & Hn2).
    rewrite H1, H2 by done.
    by rewrite (proj2 (Nat.eqb_neq i b1)), (proj2 (Nat.eqb_neq i b2)). }
  assert (forall b, b = b1 \/ b = b2 -> has1 b = true /\ has2 b = true) as Hset.
  { intros b Hor. rewrite H1, H2 by (destruct Hor; lia).
    destruct Hor as [->| ->]; rewrite Nat.eqb_refl; by rewrite ?orb_true_r. }
  rewrite (range_split 0 b1 size) by lia.
  rewrite (range_cons b1 size) by lia.
  rewrite (range_split (S b1) b2 size) by lia.
  rewrite (range_cons b2 size) by lia.
  rewrite !fold_left_app. cbn [fold_left]. rewrite !fold_left_app.
  cbn [fold_left].
  rewrite (Hskip (range 0 b1)) by (intros i Hi%elem_of_range; lia).
  destruct (Hset b1) as [E1 E2]; [by left|].
  destruct (Hset b2) as [E3 E4]; [by right|].
  rewrite (x_wing_scan_step_both _ _ _ b1 E1 E2).
  rewrite (Hskip (range (S b1) b2)) by (intros i Hi%elem_of_range; lia).
  rewrite (x_wing_scan_step_both _ _ _ b2 E3 E4).
  by rewrite (Hskip (range (S b2) size)) by (intros i Hi%elem_of_range; lia).
Qed.

(** A loop whose step treats two cells in turn is the loop over the cells. *)
Lemma or_loop_two_cells {I J} (step1 : tGrid -> J -> tGrid * bool)
    (a b : I -> J) (l : list I) gp :
  or_loop (fun g i =>
             let '(g1, b1) := step1 g (a i) in
             let '(g2, b2) := step1 g1 (b i) in
             (g2, b1 || b2)) l gp
  = or_loop step1 (i ← l; [a i; b i]) gp.
Proof.
  revert gp. induction l as [|i l IH]; intros gp; [done|].
  rewrite bind_cons, or_loop_app, or_loop_cons, IH. f_equal.
  rewrite !or_loop_cons. simpl.
  destruct (step1 gp.1 (a i)) as [g1 b1]. simpl.
  destruct (step1 g1 (b i)) as [g2 b2]. simpl. by rewrite orb_assoc.
Qed.

Lemma pass_cell_inj pass a b a' b' :
  pass_cell pass a b = pass_cell pass a' b' -> a = a' /\ b = b'.
Proof. destruct pass; simpl; intros [= -> ->]; done. Qed.

Lemma pass_cell_in_grid pass g a b :
  a < grid_size g -> b < grid_size g -> in_grid g (pass_cell pass a b).
Proof. by destruct pass; split. Qed.

(** The elimination loop of a pass, for the crossing indices [b1 ≠ b2]:
    the cells at [b1] and [b2] of every line other than [a1] and [a2] lose
    the candidate; no other cell changes. *)
Lemma x_wing_eliminate_spec pass g a1 a2 v b1 b2 :
  grid_wf g -> b1 <> b2 -> b1 < grid_size g -> b2 < grid_size g ->
  let res := or_loop (x_wing_eliminate (fun i j => pass_cell pass j i)
                                       a1 a2 v b1 b2)
                     (range 0 (grid_size g)) (g, false) in
  forall a b, a < grid_size g -> b < grid_size g ->
    pass_cellAt pass res.1 a b
    = if ((b =? b1) || (b =? b2)) && (negb (a =? a1) && negb (a =? a2))
      then cell_removeCandidate v (pass_cellAt pass g a b)
      else pass_cellAt pass g a b.
Proof.
  intros Hwf Hb Hb1 Hb2 res a b Ha Hbb. subst res.
  set (keep := fun ij : nat * nat => negb (ij.2 =? a1) && negb (ij.2 =? a2)).
  set (pos := fun ij : nat * nat => pass_cell pass ij.2 ij.1).
  set (step1 := fun g (ij : nat * nat) =>
                  if keep ij
                  then grid_cell_removeCandidate g (pos ij).1 (pos ij).2 v
                  else (g, false)).
  pose proof (or_loop_two_cells step1 (fun j => (b1, j)) (fun j => (b2, j))
                (range 0 (grid_size g)) (g, false)) as Hflat.
  change (or_loop _ (range 0 (grid_size g)) (g, false))
    with (or_loop (x_wing_eliminate (fun i j => pass_cell pass j i)
                                    a1 a2 v b1 b2)
                  (range 0 (grid_size g)) (g, false)) in Hflat.
  rewrite Hflat. clear Hflat.
  set (l := j ← range 0 (grid_size g); [(b1, j); (b2, j)]).
  assert (forall ij, ij ∈ l <-> (ij.1 = b1 \/ ij.1 = b2) /\ ij.2 < grid_size g)
    as Hl.
  { intros [i j]. subst l. rewrite list_elem_of_bind. simpl. split.
    - intros (j' & Hin & Hj'%elem_of_range).
      apply elem_of_cons in Hin as [[= -> ->]|Hin]; [split; [by left|lia]|].
      apply list_elem_of_singleton in Hin as [= -> ->]. split; [by right|lia].
    - intros [Hi Hj]. exists j. rewrite elem_of_range. split; [|lia].
      destruct Hi as [->| ->]; [left|right; left]. }
  destruct (or_loop_cell_step pos _ _ step1
              (cell_step_removeCandidate pos keep v) l (g, false))
    as (_ & _ & Hin & Hout & _).
  - done.
  - apply NoDup_fmap_2_strong.
    + intros [i j] [i' j'] _ _ E. subst pos. simpl in E.
      by apply pass_cell_inj in E as [-> ->].
    + subst l. apply NoDup_bind; [| |apply NoDup_range].
      * intros j j' ij _ _ Hj Hj'.
        apply elem_of_cons in Hj as [->|Hj%list_elem_of_singleton];
          apply elem_of_cons in Hj' as [Hj'|Hj'%list_elem_of_singleton];
          by simplify_eq.
      * intros j _. apply NoDup_cons. split; [|apply NoDup_singleton].
        intros [=]%list_elem_of_singleton. done.
  - intros [i j] [Hi Hj]%Hl. subst pos. simpl in *.
    apply pass_cell_in_grid; [done|]. by destruct Hi as [->| ->].
  - unfold pass_cellAt. simpl in *.
    destruct ((b =? b1) || (b =? b2)) eqn:Eb.
    + specialize (Hin (b, a)). subst pos keep. simpl in Hin.
      rewrite Hin; [done|]. apply Hl. simpl. split; [|done].
      apply orb_true_iff in Eb as [->%Nat.eqb_eq| ->%Nat.eqb_eq]; auto.
    + simpl. apply (Hout (pass_cell pass a b)).
      * by apply pass_cell_in_grid.
      * intros ([i j] & E & [Hi Hj]%Hl)%list_elem_of_fmap. subst pos.
        simpl in *. apply pass_cell_inj in E as [-> ->].
        apply orb_false_iff in Eb as [E1%Nat.eqb_neq E2%Nat.eqb_neq].
        by destruct Hi.
Qed.

Lemma x_wing_step_confined pass g a1 a2 v b1 b2 :
  b1 < b2 < grid_size g ->
  confined pass g a1 v b1 b2 -> confined pass g a2 v b1 b2 ->
  x_wing_step pass g a1 a2 v
  = or_loop (x_wing_eliminate (fun i j => pass_cell pass j i) a1 a2 v b1 b2)
            (range 0 (grid_size g)) (g, false).
Proof.
  intros Hb H1 H2.
  destruct pass; unfold x_wing_step, x_wing_vertical_step,
    x_wing_horizontal_step.
  - by rewrite (x_wing_scan_confined (grid_size g)
                  (fun r => cell_hasCandidate (grid_cellAt g r a1) v)
                  (fun r => cell_hasCandidate (grid_cellAt g r a2) v)
                  b1 b2 Hb H1 H2).
  - by rewrite (x_wing_scan_confined (grid_size g)
                  (fun c => cell_hasCandidate (grid_cellAt g a1 c) v)
                  (fun c => cell_hasCandidate (grid_cellAt g a2 c) v)
                  b1 b2 Hb H1 H2).
Qed.

(** C4, as amended: one iteration of a pass of [technique_x_wing], on the
    grid as it stands when the iteration starts.  If, in that grid, each of
    the two columns [a1 < a2] has the candidate [v] in exactly the two rows
    [b1 < b2], then the iteration removes [v] from every cell of these rows
    in a column other than [a1] and [a2]; the four cells at the
    intersections keep [v], and no cell of another row changes.  The
    horizontal pass does the same with rows and columns exchanged. *)
Theorem x_wing_step_eliminates pass g a1 a2 v b1 b2 :
  grid_wf g -> a1 < a2 < grid_size g -> b1 < b2 < grid_size g ->
  confined pass g a1 v b1 b2 -> confined pass g a2 v b1 b2 ->
  let g' := (x_wing_step pass g a1 a2 v).1 in
  (forall a, a < grid_size g -> a <> a1 -> a <> a2 ->
     cell_hasCandidate (pass_cellAt pass g' a b1) v = false
     /\ cell_hasCandidate (pass_cellAt pass g' a b2) v = false)
  /\ (cell_hasCandidate (pass_cellAt pass g' a1 b1) v = true
      /\ cell_hasCandidate (pass_cellAt pass g' a1 b2) v = true
      /\ cell_hasCandidate (pass_cellAt pass g' a2 b1) v = true
      /\ cell_hasCandidate (pass_cellAt pass g' a2 b2) v = true)
  /\ (forall a b, a < grid_size g -> b < grid_size g -> b <> b1 -> b <> b2 ->
      pass_cellAt pass g' a b = pass_cellAt pass g a b).
Proof.
  intros Hwf Ha Hb H1 H2 g'. subst g'.
  rewrite (x_wing_step_confined pass g a1 a2 v b1 b2 Hb H1 H2).
  pose proof (x_wing_eliminate_spec pass g a1 a2 v b1 b2 Hwf
                ltac:(lia) ltac:(lia) ltac:(lia)) as Hspec.
  cbn zeta in Hspec. split; [|split].
  - intros a Hlt Hn1 Hn2.
    rewrite !Hspec by lia. rewrite !Nat.eqb_refl, orb_true_r. simpl.
    rewrite (proj2 (Nat.eqb_neq a a1)), (proj2 (Nat.eqb_neq a a2)) by done.
    simpl. rewrite !cell_removeCandidate_has, Nat.eqb_refl.
    by rewrite !andb_false_r.
  - rewrite !Hspec by lia. rewrite !Nat.eqb_refl. simpl.
    rewrite !andb_false_r. simpl.
    rewrite (H1 b1), (H1 b2), (H2 b1), (H2 b2) by lia.
    rewrite !Nat.eqb_refl. by rewrite !orb_true_r.
  - intros a b Hlt Hblt Hn1 Hn2. rewrite Hspec by done.
    by rewrite (proj2 (Nat.eqb_neq b b1)), (proj2 (Nat.eqb_neq b b2)).
Qed.

Lemma grid_threeColumns_confined a :
  a < 3 -> confined Vertical grid_threeColumns a 1 1 3.
Proof.
  intros Ha b Hb. assert (b < 4) as Hb' by exact Hb. clear Hb.
  destruct a as [|[|[|a]]]; [| | |exfalso; clear -Ha; lia];
    (destruct b as [|[|[|[|b]]]];
     [vm_compute; reflexivity..|exfalso; clear -Hb'; lia]).
Qed.

Lemma x_wing_step_eliminates_witness :
  let g := grid_threeColumns in
  let g' := (x_wing_step Vertical g 0 1 1).1 in
  (forall a, a < grid_size g -> a <> 0 -> a <> 1 ->
     cell_hasCandidate (pass_cellAt Vertical g' a 1) 1 = false
     /\ cell_hasCandidate (pass_cellAt Vertical g' a 3) 1 = false)
  /\ (cell_hasCandidate (pass_cellAt Vertical g' 0 1) 1 = true
      /\ cell_hasCandidate (pass_cellAt Vertical g' 0 3) 1 = true
      /\ cell_hasCandidate (pass_cellAt Vertical g' 1 1) 1 = true
      /\ cell_hasCandidate (pass_cellAt Vertical g' 1 3) 1 = true)
  /\ (forall a b, a < grid_size g -> b < grid_size g -> b <> 1 -> b <> 3 ->
      pass_cellAt Vertical g' a b = pass_cellAt Vertical g a b).
Proof.
  intros g.
  assert (grid_wf g) as Hwf by decide_with (grid_wf_dec grid_threeColumns).
  assert (0 < 1 < grid_size g) as Ha by (vm_compute; lia).
  assert (1 < 3 < grid_size g) as Hb by (vm_compute; lia).
  assert (confined Vertical g 0 1 1 3) as H0
    by (apply grid_threeColumns_confined; lia).
  assert (confined Vertical g 1 1 1 3) as H1
    by (apply grid_threeColumns_confined; lia).
  exact (x_wing_step_eliminates Vertical g 0 1 1 1 3 Hwf Ha Hb H0 H1).
Defined.

(** C4, as stated, fails on the whole of [technique_x_wing]: in the grid
    loaded from [puzzle_threeColumns] the columns 1 and 2 both have the
    candidate 1 in the rows 1 and 3 exactly, yet after [technique_x_wing]
    the cell (1, 0), of row 1 and outside both columns, still has the
    candidate 1, and the intersection cell (1, 2) has lost it: the
    iteration for the columns 0 and 1 ran first. *)
Lemma technique_x_wing_counterexample :
  confined Vertical grid_threeColumns 1 1 1 3
  /\ confined Vertical grid_threeColumns 2 1 1 3
  /\ cell_hasCandidate
       (grid_cellAt (technique_x_wing grid_threeColumns).1 1 0) 1 = true
  /\ cell_hasCandidate
       (grid_cellAt (technique_x_wing grid_threeColumns).1 1 2) 1 = false.
Proof.
  split; [apply grid_threeColumns_confined; lia|].
  split; [apply grid_threeColumns_confined; lia|].
  split; vm_compute; reflexivity.
Qed.

(** ** Availability after a mark *)

Lemma rd_insert_false (tbl : list bool) i j :
  i < length tbl -> rd false (<[i := false]> tbl) j = rd false tbl j && negb (i =? j).
Proof.
  intros Hi. rewrite rd_insert. destruct (Nat.eqb_spec i j) as [->|Hne].
  - rewrite decide_True by done. by rewrite andb_false_r.
  - rewrite decide_False by naive_solver. by rewrite andb_true_r.
Qed.

Lemma at2d_eqb w a b a' b' :
  b < w -> b' < w -> (at2d w a b =? at2d w a' b') = (a =? a') && (b =? b').
Proof.
  intros Hb Hb'. destruct (Nat.eqb_spec (at2d w a b) (at2d w a' b')) as [E|E].
  - apply at2d_inj in E as [-> ->]; [|done..]. by rewrite !Nat.eqb_refl.
  - destruct (Nat.eqb_spec a a') as [->|?]; [|done].
    destruct (Nat.eqb_spec b b') as [->|?]; done.
Qed.

Lemma at3d_eqb d2 d3 i j k i' j' k' :
  j < d2 -> j' < d2 -> k < d3 -> k' < d3 ->
  (at3d d2 d3 i j k =? at3d d2 d3 i' j' k')
  = (i =? i') && (j =? j') && (k =? k').
Proof.
  intros Hj Hj' Hk Hk'. unfold at3d.
  change ((i * d2 + j) * d3 + k) with (at2d d3 (at2d d2 i j) k).
  change ((i' * d2 + j') * d3 + k') with (at2d d3 (at2d d2 i' j') k').
  by rewrite !at2d_eqb.
Qed.

(** [grid_markValueFree(false, ...)] at [(r, c)] for [v] makes [v]
    impossible in the row [r], the column [c] and the block of [(r, c)], and
    changes [grid_possible] nowhere else. *)
Theorem grid_possible_after_mark g r c v r' c' v' :
  grid_wf g ->
  r < grid_size g -> c < grid_size g -> v <= grid_size g ->
  r' < grid_size g -> c' < grid_size g -> v' <= grid_size g ->
  grid_possible (grid_markValueFree false g r c v) r' c' v'
  = grid_possible g r' c' v'
    && negb ((v' =? v)
             && ((r' =? r) || (c' =? c)
                 || ((r' / N g =? r / N g) && (c' / N g =? c / N g)))).
Proof.
  intros (_ & _ & Hcol & Hrow & Hblock) Hr Hc Hv Hr' Hc' Hv'.
  unfold grid_possible, grid_markValueFree, grid_size in *. simpl.
  rewrite !rd_insert_false.
  - rewrite !at2d_eqb, at3d_eqb by first [lia | by apply block_coord_lt].
    rewrite (Nat.eqb_sym v' v), (Nat.eqb_sym r' r), (Nat.eqb_sym c' c),
      (Nat.eqb_sym (r' / N g)), (Nat.eqb_sym (c' / N g)).
    destruct (rd false (_isColumnFree g) _), (rd false (_isRowFree g) _),
      (rd false (_isBlockFree g) _), (v =? v'), (r =? r'), (c =? c'),
      (r / N g =? r' / N g), (c / N g =? c' / N g); done.
  - rewrite Hblock. apply at3d_lt; [by apply block_coord_lt..|lia].
  - rewrite Hrow. apply at2d_lt; lia.
  - rewrite Hcol. apply at2d_lt; lia.
Qed.

Lemma grid_possible_after_mark_witness :
  grid_possible (grid_markValueFree false grid_empty4 0 0 1) 1 1 1
  = grid_possible grid_empty4 1 1 1
    && negb ((1 =? 1)
             && ((1 =? 0) || (1 =? 0)
                 || ((1 / N grid_empty4 =? 0 / N grid_empty4)
                     && (1 / N grid_empty4 =? 0 / N grid_empty4)))).
Proof.
  assert (grid_wf grid_empty4) as Hwf by decide_with (grid_wf_dec grid_empty4).
  assert (0 < grid_size grid_empty4) as H0 by (vm_compute; lia).
  assert (1 < grid_size grid_empty4) as H1 by (vm_compute; lia).
  assert (1 <= grid_size grid_empty4) as H2 by (vm_compute; lia).
  exact (grid_possible_after_mark grid_empty4 0 0 1 1 1 1 Hwf H0 H0 H2 H1 H1 H2).
Defined.

(** ** Removing a candidate from a group *)

Lemma cell_get_first_candidate_in_range cell size :
  length (hasCandidate cell) = size + 1 ->
  cell_get_first_candidate cell <= size ->
  cell_hasCandidate cell (cell_get_first_candidate cell) = true.
Proof.
  intros Hlen Hle. unfold cell_get_first_candidate, cell_hasCandidate in *.
  destruct (first_set_spec (drop 1 (hasCandidate cell)) 1)
    as [(i & Hi & E & _)|[E _]].
  - rewrite E. by rewrite rd_drop in Hi.
  - rewrite E, length_drop in Hle. lia.
Qed.

(** Under the sizes of a well-formed grid, [grid_cell_removeCandidate]
    returns whether the cell had the candidate. *)
Lemma cell_removeCandidate_progress_has size cell v :
  length (hasCandidate cell) = size + 1 -> v <= size ->
  cell_removeCandidate_progress v cell = cell_hasCandidate cell v.
Proof.
  intros Hlen Hv. unfold cell_removeCandidate_progress.
  destruct (_ && _) eqn:E; [|done].
  apply andb_true_iff in E as [_ E%Nat.eqb_eq]. simpl. symmetry.
  rewrite <- E. apply (cell_get_first_candidate_in_range _ size); [done|lia].
Qed.

Lemma NoDup_rect r0 r1 c0 c1 : NoDup (rect r0 r1 c0 c1).
Proof.
  unfold rect. apply NoDup_bind; [| |apply NoDup_range].
  - intros r r' rc _ _ (c & H & _)%list_elem_of_bind (c' & H' & _)%list_elem_of_bind.
    apply list_elem_of_singleton in H, H'. by simplify_eq.
  - intros r _. apply NoDup_bind; [| |apply NoDup_range].
    + intros c c' rc _ _ H%list_elem_of_singleton H'%list_elem_of_singleton.
      by simplify_eq.
    + intros c _. apply NoDup_singleton.
Qed.

(** The loop of a [grid_removeCandidateFrom...] function over distinct
    cells of the grid. *)
Lemma remove_loop_spec {I} (pos : I -> nat * nat) v g (l : list I) :
  grid_wf g -> v <= grid_size g -> NoDup (pos <$> l) ->
  (forall i, i ∈ l -> in_grid g (pos i)) ->
  let res := or_loop (fun g i => grid_cell_removeCandidate g (pos i).1 (pos i).2 v)
                     l (g, false) in
  grid_wf res.1 /\ N res.1 = N g
  /\ (forall i, i ∈ l ->
      grid_cellAt res.1 (pos i).1 (pos i).2
      = cell_removeCandidate v (grid_cellAt g (pos i).1 (pos i).2))
  /\ (forall rc, in_grid g rc -> rc ∉ pos <$> l ->
      grid_cellAt res.1 rc.1 rc.2 = grid_cellAt g rc.1 rc.2)
  /\ (res.2 = true <->
      exists i, i ∈ l
        /\ cell_hasCandidate (grid_cellAt g (pos i).1 (pos i).2) v = true).
Proof.
  intros Hwf Hv Hnd Hin res.
  destruct (or_loop_cell_step pos _ _ _
              (cell_step_removeCandidate pos (fun _ => true) v) l (g, false)
              Hwf Hnd Hin) as (H1 & H2 & H3 & H4 & H5).
  split; [exact H1|]. split; [exact H2|]. split; [exact H3|].
  split; [exact H4|].
  assert (res.2
          = existsb (fun i => cell_removeCandidate_progress v
                                (grid_cellAt g (pos i).1 (pos i).2)) l) as E5
    by exact H5.
  rewrite E5, existsb_exists. split.
  - intros (i & Hi%list_elem_of_In & E). exists i. split; [done|].
    rewrite <- E. symmetry.
    apply (cell_removeCandidate_progress_has (grid_size g)); [|done].
    destruct (Hin i Hi). by apply grid_wf_cell_length.
  - intros (i & Hi & E). exists i. split; [by apply list_elem_of_In|].
    rewrite (cell_removeCandidate_progress_has (grid_size g)); [done| |done].
    destruct (Hin i Hi). by apply grid_wf_cell_length.
Qed.

Lemma grid_blockIndex_bounds g i :
  i < grid_size g ->
  grid_blockIndex g i <= i < grid_blockIndex g i + N g
  /\ grid_blockIndex g i + N g <= grid_size g
  /\ grid_blockIndex g i = N g * (i / N g).
Proof.
  unfold grid_size, grid_blockIndex. intros Hi.
  assert (N g <> 0) as Hn by (intros E; rewrite E in Hi; lia).
  pose proof (Nat.mod_upper_bound i (N g) Hn) as Hmod.
  pose proof (Nat.div_mod_eq i (N g)) as Hdiv.
  pose proof (block_coord_lt (N g) i Hi) as Hq.
  assert (N g * (i / N g) + N g <= N g * N g) by nia.
  lia.
Qed.

(** After [grid_removeCandidateFromRow] no cell of the row has the
    candidate; the other candidates of the row and all other rows are as
    before; the result tells whether some cell of the row had it. *)
Theorem grid_removeCandidateFromRow_spec g r v :
  grid_wf g -> r < grid_size g -> v <= grid_size g ->
  let res := grid_removeCandidateFromRow g r v in
  (forall c, c < grid_size g ->
     cell_hasCandidate (grid_cellAt res.1 r c) v = false)
  /\ (forall c w, c < grid_size g -> w <> v ->
      cell_hasCandidate (grid_cellAt res.1 r c) w
      = cell_hasCandidate (grid_cellAt g r c) w)
  /\ (forall r' c, r' < grid_size g -> c < grid_size g -> r' <> r ->
      grid_cellAt res.1 r' c = grid_cellAt g r' c)
  /\ (res.2 = true <->
      exists c, c < grid_size g
        /\ cell_hasCandidate (grid_cellAt g r c) v = true).
Proof.
  intros Hwf Hr Hv res. subst res. unfold grid_removeCandidateFromRow.
  destruct (remove_loop_spec (fun c => (r, c)) v g (range 0 (grid_size g)))
    as (_ & _ & H3 & H4 & H5); try done.
  { apply NoDup_fmap_2; [by intros ?? [= ->]|apply NoDup_range]. }
  { intros c Hc%elem_of_range. split; simpl; lia. }
  simpl in H3, H4, H5.
  assert (forall c, c < grid_size g -> c ∈ range 0 (grid_size g)) as Hrange
    by (intros c Hc; apply elem_of_range; lia).
  split; [|split; [|split]].
  - intros c Hc. rewrite H3 by auto.
    by rewrite cell_removeCandidate_has, Nat.eqb_refl, andb_false_r.
  - intros c w Hc Hw. rewrite H3 by auto.
    rewrite cell_removeCandidate_has.
    by rewrite (proj2 (Nat.eqb_neq w v)), andb_true_r.
  - intros r' c Hr' Hc Hne. apply (H4 (r', c)); [by split|].
    intros (c' & [= -> ->] & _)%list_elem_of_fmap. done.
  - rewrite H5. split.
    + intros (c & Hc%elem_of_range & E). exists c. split; [lia|done].
    + intros (c & Hc & E). exists c. split; [auto|done].
Qed.

(** After [grid_removeCandidateFromColumn] no cell of the column has the
    candidate; the other candidates of the column and all other columns are
    as before; the result tells whether some cell of the column had it. *)
Theorem grid_removeCandidateFromColumn_spec g c v :
  grid_wf g -> c < grid_size g -> v <= grid_size g ->
  let res := grid_removeCandidateFromColumn g c v in
  (forall r, r < grid_size g ->
     cell_hasCandidate (grid_cellAt res.1 r c) v = false)
  /\ (forall r w, r < grid_size g -> w <> v ->
      cell_hasCandidate (grid_cellAt res.1 r c) w
      = cell_hasCandidate (grid_cellAt g r c) w)
  /\ (forall r c', r < grid_size g -> c' < grid_size g -> c' <> c ->
      grid_cellAt res.1 r c' = grid_cellAt g r c')
  /\ (res.2 = true <->
      exists r, r < grid_size g
        /\ cell_hasCandidate (grid_cellAt g r c) v = true).
Proof.
  intros Hwf Hc Hv res. subst res. unfold grid_removeCandidateFromColumn.
  destruct (remove_loop_spec (fun r => (r, c)) v g (range 0 (grid_size g)))
    as (_ & _ & H3 & H4 & H5); try done.
  { apply NoDup_fmap_2; [by intros ?? [= ->]|apply NoDup_range]. }
  { intros r Hr%elem_of_range. split; simpl; lia. }
  simpl in H3, H4, H5.
  assert (forall r, r < grid_size g -> r ∈ range 0 (grid_size g)) as Hrange
    by (intros r Hr; apply elem_of_range; lia).
  split; [|split; [|split]].
  - intros r Hr. rewrite H3 by auto.
    by rewrite cell_removeCandidate_has, Nat.eqb_refl, andb_false_r.
  - intros r w Hr Hw. rewrite H3 by auto.
    rewrite cell_removeCandidate_has.
    by rewrite (proj2 (Nat.eqb_neq w v)), andb_true_r.
  - intros r c' Hr Hc' Hne. apply (H4 (r, c')); [by split|].
    intros (r' & [= -> ->] & _)%list_elem_of_fmap. done.
  - rewrite H5. split.
    + intros (r & Hr%elem_of_range & E). exists r. split; [lia|done].
    + intros (r & Hr & E). exists r. split; [auto|done].
Qed.

(** The cells of the block of [(r, c)]. *)
Lemma elem_of_block g r c r' c' :
  r < grid_size g -> c < grid_size g ->
  (r', c') ∈ rect (grid_blockIndex g r) (grid_blockIndex g r + N g)
                  (grid_blockIndex g c) (grid_blockIndex g c + N g)
  <-> r' < grid_size g /\ c' < grid_size g
      /\ r' / N g = r / N g /\ c' / N g = c / N g.
Proof.
  intros Hr Hc. rewrite elem_of_rect.
  destruct (grid_blockIndex_bounds g r Hr) as (Hr1 & Hr2 & Hr3).
  destruct (grid_blockIndex_bounds g c Hc) as (Hc1 & Hc2 & Hc3).
  assert (N g <> 0) as Hn by (unfold grid_size in Hr; intros E; rewrite E in Hr; lia).
  rewrite Hr3, Hc3 in *.
  assert (forall i q, N g * q <= i < N g * q + N g <-> i / N g = q) as Hq.
  { intros i q. split.
    - intros H. symmetry. apply (Nat.div_unique i (N g) q (i - N g * q)); lia.
    - intros <-. pose proof (Nat.div_mod_eq i (N g)).
      pose proof (Nat.mod_upper_bound i (N g) Hn). lia. }
  rewrite !Hq. split.
  - intros [E1 E2]. repeat split; try done.
    + pose proof (proj2 (Hq r' _) E1). lia.
    + pose proof (proj2 (Hq c' _) E2). lia.
  - tauto.
Qed.

(** After [grid_removeCandidateFromBlock] no cell of the block has the
    candidate; the other candidates of the block and all cells outside it
    are as before; the result tells whether some cell of the block had it. *)
Theorem grid_removeCandidateFromBlock_spec g r c v :
  grid_wf g -> r < grid_size g -> c < grid_size g -> v <= grid_size g ->
  let res := grid_removeCandidateFromBlock g r c v in
  let inBlock r' c' :=
    r' < grid_size g /\ c' < grid_size g
    /\ r' / N g = r / N g /\ c' / N g = c / N g in
  (forall r' c', inBlock r' c' ->
     cell_hasCandidate (grid_cellAt res.1 r' c') v = false)
  /\ (forall r' c' w, inBlock r' c' -> w <> v ->
      cell_hasCandidate (grid_cellAt res.1 r' c') w
      = cell_hasCandidate (grid_cellAt g r' c') w)
  /\ (forall r' c', r' < grid_size g -> c' < grid_size g -> ~ inBlock r' c' ->
      grid_cellAt res.1 r' c' = grid_cellAt g r' c')
  /\ (res.2 = true <->
      exists r' c', inBlock r' c'
        /\ cell_hasCandidate (grid_cellAt g r' c') v = true).
Proof.
  intros Hwf Hr Hc Hv res inBlock. subst res.
  unfold grid_removeCandidateFromBlock.
  set (block := rect _ _ _ _).
  assert (forall r' c', (r', c') ∈ block <-> inBlock r' c') as Hblock
    by (intros r' c'; by apply elem_of_block).
  destruct (remove_loop_spec (fun rc : nat * nat => rc) v g block)
    as (_ & _ & H3 & H4 & H5); try done.
  { rewrite list_fmap_id. apply NoDup_rect. }
  { intros [r' c'] (H1 & H2 & _)%Hblock. by split. }
  rewrite list_fmap_id in H4.
  split; [|split; [|split]].
  - intros r' c' Hin%Hblock. specialize (H3 (r', c') Hin). simpl in H3.
    rewrite H3.
    by rewrite cell_removeCandidate_has, Nat.eqb_refl, andb_false_r.
  - intros r' c' w Hin%Hblock Hw. specialize (H3 (r', c') Hin). simpl in H3.
    rewrite H3. rewrite cell_removeCandidate_has.
    by rewrite (proj2 (Nat.eqb_neq w v)), andb_true_r.
  - intros r' c' Hr' Hc' Hnin. apply (H4 (r', c')); [by split|].
    by rewrite Hblock.
  - rewrite H5. split.
    + intros ([r' c'] & Hin%Hblock & E). by exists r', c'.
    + intros (r' & c' & Hin%Hblock & E). by exists (r', c').
Qed.

Lemma grid_threeColumns_wf : grid_wf grid_threeColumns.
Proof. decide_with (grid_wf_dec grid_threeColumns). Qed.

Lemma grid_threeColumns_size : grid_size grid_threeColumns = 4.
Proof. vm_compute. reflexivity. Qed.

Lemma grid_removeCandidateFromRow_spec_witness :
  cell_hasCandidate
    (grid_cellAt (grid_removeCandidateFromRow grid_threeColumns 1 1).1 1 0) 1
  = false.
Proof.
  destruct (grid_removeCandidateFromRow_spec grid_threeColumns 1 1)
    as (H1 & _).
  - exact grid_threeColumns_wf.
  - rewrite grid_threeColumns_size. lia.
  - rewrite grid_threeColumns_size. lia.
  - assert (0 < grid_size grid_threeColumns) as H0
      by (rewrite grid_threeColumns_size; lia).
    exact (H1 0 H0).
Defined.

Lemma grid_removeCandidateFromColumn_spec_witness :
  cell_hasCandidate
    (grid_cellAt (grid_removeCandidateFromColumn grid_threeColumns 0 1).1 1 0) 1
  = false.
Proof.
  destruct (grid_removeCandidateFromColumn_spec grid_threeColumns 0 1)
    as (H1 & _).
  - exact grid_threeColumns_wf.
  - rewrite grid_threeColumns_size. lia.
  - rewrite grid_threeColumns_size. lia.
  - assert (1 < grid_size grid_threeColumns) as H0
      by (rewrite grid_threeColumns_size; lia).
    exact (H1 1 H0).
Defined.

Lemma grid_removeCandidateFromBlock_spec_witness :
  grid_cellAt (grid_removeCandidateFromBlock grid_threeColumns 1 0 1).1 3 3
  = grid_cellAt grid_threeColumns 3 3.
Proof.
  destruct (grid_removeCandidateFromBlock_spec grid_threeColumns 1 0 1)
    as (_ & _ & H3 & _).
  - exact grid_threeColumns_wf.
  - rewrite grid_threeColumns_size. lia.
  - rewrite grid_threeColumns_size. lia.
  - rewrite grid_threeColumns_size. lia.
  - assert (3 < grid_size grid_threeColumns) as H0
      by (rewrite grid_threeColumns_size; lia).
    refine (H3 3 3 H0 H0 _). intros (_ & _ & E & _).
    vm_compute in E. discriminate E.
Defined.

(** ** Propagation keeps the invariants, the values and only clears candidates *)

Lemma cell_kept_refl cell : cell_kept cell cell.
Proof. by split. Qed.

Lemma cell_kept_trans c1 c2 c3 :
  (_value c1 <> 0 -> _value c2 <> 0) ->
  cell_kept c1 c2 -> cell_kept c2 c3 -> cell_kept c1 c3.
Proof.
  intros Hnz [H1 H2] [H3 H4]. split.
  - intros Hne. rewrite H3 by auto. auto.
  - auto.
Qed.

Lemma grid_kept_refl g : grid_kept g g.
Proof.
  split; [done|]. apply Forall_Forall2_diag, Forall_forall.
  intros. apply cell_kept_refl.
Qed.

Lemma grid_kept_trans g1 g2 g3 :
  grid_kept g1 g2 -> grid_kept g2 g3 -> grid_kept g1 g3.
Proof.
  intros [HN1 H1] [HN2 H2]. split; [congruence|].
  apply Forall2_same_length_lookup in H1 as [Hl1 H1].
  apply Forall2_same_length_lookup in H2 as [Hl2 H2].
  apply Forall2_same_length_lookup. split; [congruence|].
  intros i x z Hx Hz.
  destruct (lookup_lt_is_Some_2 (cells g2) i) as [y Hy].
  { rewrite <- Hl1. by eapply lookup_lt_Some. }
  specialize (H1 i x y Hx Hy). specialize (H2 i y z Hy Hz).
  apply (cell_kept_trans x y z); [|done..].
  intros Hne. destruct H1 as [H1 _]. rewrite H1; done.
Qed.

Lemma sound_step_refl g : sound_step g g.
Proof. intros H. split; [done|apply grid_kept_refl]. Qed.

Lemma sound_step_trans g1 g2 g3 :
  sound_step g1 g2 -> sound_step g2 g3 -> sound_step g1 g3.
Proof.
  intros H12 H23 H1. destruct (H12 H1) as [H2 K12].
  destruct (H23 H2) as [H3 K23]. split; [done|].
  by apply (grid_kept_trans g1 g2 g3).
Qed.

(** Writing a cell that keeps the cell it replaces. *)
Lemma sound_step_setCellAt g r c cell :
  (propagated g ->
   length (hasCandidate cell) = length (hasCandidate (grid_cellAt g r c))
   /\ cell_invariant (grid_size g) cell
   /\ cell_kept (grid_cellAt g r c) cell) ->
  sound_step g (grid_setCellAt g r c cell).
Proof.
  intros H Hp. destruct (H Hp) as (Hlen & Hinv & Hkept).
  destruct Hp as [Hwf Hci]. unfold grid_cellAt, rd in *.
  set (i := at2d (grid_size g) r c) in *.
  destruct (cells g !! i) as [old|] eqn:E; simpl in *.
  - split; [split|split].
    + apply grid_wf_setCellAt; [done|]. rewrite Hlen.
      destruct Hwf as (_ & Hf & _). by eapply Forall_lookup_1 in Hf.
    + by apply grid_cell_invariant_set.
    + done.
    + simpl. apply Forall2_same_length_lookup. rewrite length_insert.
      split; [done|]. intros k x y Hx Hy.
      destruct (decide (k = i)) as [->|Hne].
      * rewrite list_lookup_insert_eq in Hy by by eapply lookup_lt_Some.
        by simplify_eq.
      * rewrite list_lookup_insert_ne in Hy by done. simplify_eq.
        apply cell_kept_refl.
  - assert (grid_setCellAt g r c cell = g) as ->; [|by apply sound_step_refl].
    unfold grid_setCellAt. fold i.
    rewrite list_insert_ge by by apply lookup_ge_None_1. by destruct g.
Qed.

Lemma sound_step_markValueFree b g r c v :
  sound_step g (grid_markValueFree b g r c v).
Proof.
  intros [Hwf Hci]. split; [split|].
  - by apply grid_wf_markValueFree.
  - exact Hci.
  - split; [done|]. simpl. apply Forall_Forall2_diag, Forall_forall.
    intros. apply cell_kept_refl.
Qed.

Lemma cell_kept_clear cell value v count :
  (_value cell <> 0 -> value = _value cell) ->
  cell_kept cell (mkCell value (<[v := false]> (hasCandidate cell)) count).
Proof.
  intros Hv. split; [done|]. intros w.
  destruct (decide (w = v)) as [->|Hne].
  - by rewrite cell_hasCandidate_clear_eq.
  - by rewrite cell_hasCandidate_clear_ne.
Qed.

Lemma cell_invariant_has_value size cell v :
  cell_invariant size cell -> 1 <= v <= size ->
  cell_hasCandidate cell v = true -> _value cell = 0.
Proof.
  intros [_ H] Hv Hhas. destruct (decide (_value cell = 0)); [done|].
  assert (v ∈ cell_candidates size cell) as Hin
    by by apply elem_of_cell_candidates.
  rewrite H in Hin by done. by apply elem_of_nil in Hin.
Qed.

Lemma sound_step_removeCandidate g r c v :
  1 <= v <= grid_size g ->
  sound_step g (grid_cell_removeCandidate g r c v).1.
Proof.
  intros Hv. unfold grid_cell_removeCandidate.
  destruct (_ && _) eqn:Hcond; simpl.
  - apply andb_true_iff in Hcond as [H1%Nat.eqb_eq H2%Nat.eqb_eq].
    eapply sound_step_trans; [|apply sound_step_markValueFree].
    apply sound_step_setCellAt. intros [Hwf Hci].
    pose proof (grid_cell_invariant_at g r c Hci) as Hcell.
    pose proof (cell_invariant_commit _ _ _ Hv Hcell H1 H2) as E.
    split; [simpl; by rewrite length_insert|]. split.
    + rewrite H2. split; simpl; [by rewrite E|done].
    + apply cell_kept_clear. intros Hne. exfalso.
      destruct Hcell as [Hcount Hval]. unfold cell_candidate_count in H1.
      rewrite Hval in Hcount by done. simpl in Hcount. lia.
  - destruct (cell_hasCandidate _ v) eqn:Hhas; simpl;
      [|apply sound_step_refl].
    apply sound_step_setCellAt. intros [Hwf Hci].
    pose proof (grid_cell_invariant_at g r c Hci) as Hcell.
    split; [simpl; by rewrite length_insert|]. split.
    + by apply cell_invariant_remove.
    + by apply cell_kept_clear.
Qed.

Lemma length_memset_false n a : length (memset_false n a) = length a.
Proof.
  unfold memset_false. rewrite length_app, length_replicate, length_drop. lia.
Qed.

Lemma rd_memset_false_ge n a i : n <= i -> rd false (memset_false n a) i = rd false a i.
Proof.
  intros Hi. unfold memset_false, rd.
  destruct (decide (n <= length a)).
  - rewrite lookup_app_r by (rewrite length_replicate; lia).
    rewrite length_replicate, lookup_drop. f_equal. f_equal. lia.
  - rewrite !lookup_ge_None_2; [done|lia|].
    rewrite length_app, length_replicate, length_drop. lia.
Qed.

(** [grid_cell_provideValue] on an empty cell. *)
Lemma sound_step_provideValue g r c v :
  (propagated g -> _value (grid_cellAt g r c) = 0) ->
  sound_step g (grid_cell_provideValue g r c v).
Proof.
  intros Hempty. unfold grid_cell_provideValue.
  eapply sound_step_trans; [|apply sound_step_markValueFree].
  apply sound_step_setCellAt. intros Hp. specialize (Hempty Hp).
  split; [simpl; by rewrite length_memset_false|]. split.
  - assert (cell_candidates (grid_size g)
              (mkCell v (memset_false (grid_size g + 1)
                           (hasCandidate (grid_cellAt g r c))) 0) = []) as E.
    { apply cell_candidates_nil. intros w Hw. unfold cell_hasCandidate. simpl.
      apply rd_memset_false. lia. }
    split; simpl; [by rewrite E|done].
  - split; [done|]. intros w. unfold cell_hasCandidate. simpl.
    destruct (decide (w < grid_size g + 1)).
    + by rewrite rd_memset_false.
    + by rewrite rd_memset_false_ge by lia.
Qed.

Lemma sound_step_N g g' : propagated g -> sound_step g g' -> N g' = N g.
Proof. intros Hp H. by destruct (H Hp) as [_ [HN _]]. Qed.

(** A loop of sound steps is sound. *)
Lemma sound_step_or_loop {I} (step : tGrid -> I -> tGrid * bool) l gp :
  (forall g i, i ∈ l -> N g = N gp.1 -> sound_step g (step g i).1) ->
  sound_step gp.1 (or_loop step l gp).1.
Proof.
  revert gp. induction l as [|i l IH]; intros gp Hstep Hp.
  - split; [done|apply grid_kept_refl].
  - rewrite or_loop_cons.
    destruct (Hstep gp.1 i ltac:(left) eq_refl Hp) as [Hp1 Hk1].
    set (gp1 := ((step gp.1 i).1, gp.2 || (step gp.1 i).2)).
    destruct (IH gp1) as [Hp' Hk']; [|done|].
    + intros g j Hj HN. apply Hstep; [by right|].
      rewrite HN. by destruct Hk1.
    + split; [done|]. by apply (grid_kept_trans gp.1 gp1.1).
Qed.

Lemma or_loop_N {I} (step : tGrid -> I -> tGrid * bool) l gp :
  (forall g i, N (step g i).1 = N g) -> N (or_loop step l gp).1 = N gp.1.
Proof.
  intros H. apply (or_loop_preserves (fun g => N g = N gp.1)); [|done].
  intros g i <-. apply H.
Qed.

(** ** The k-th candidate *)

Lemma kth_set_nth l a k :
  kth_set l a k = nth (k - 1) (set_slots l a) (a + length l).
Proof.
  revert a k. induction l as [|b l IH]; intros a k.
  - simpl. destruct (k - 1); simpl; lia.
  - cbn [kth_set set_slots length].
    replace (a + S (length l)) with (S a + length l) by lia.
    destruct b.
    + destruct k as [|[|k]]; [done..|].
      rewrite IH. replace (S (S k) - 1) with (S (S k - 1)) by lia. done.
    + apply IH.
Qed.

Lemma set_slots_filter l a :
  set_slots l a = List.filter (fun v => rd false l (v - a)) (seq a (length l)).
Proof.
  revert a. induction l as [|b l IH]; intros a; simpl; [done|].
  rewrite Nat.sub_diag. unfold rd at 1. simpl.
  assert (List.filter (fun v => rd false (b :: l) (v - a)) (seq (S a) (length l))
          = List.filter (fun v => rd false l (v - S a)) (seq (S a) (length l)))
    as ->.
  { apply filter_ext_in. intros v Hv%in_seq.
    replace (v - a) with (S (v - S a)) by lia. done. }
  rewrite <- IH. by destruct b.
Qed.

Lemma cell_candidates_set_slots size cell :
  length (hasCandidate cell) = size + 1 ->
  cell_candidates size cell = set_slots (drop 1 (hasCandidate cell)) 1.
Proof.
  intros Hlen. rewrite set_slots_filter, length_drop, Hlen.
  unfold cell_candidates, range.
  replace (size + 1 - 1) with size by lia.
  apply filter_ext_in. intros v Hv%in_seq.
  unfold cell_hasCandidate. rewrite rd_drop. f_equal. lia.
Qed.

(** The [k]-th candidate of a well-sized cell is its [k]-th candidate in
    ascending order. *)
Lemma cell_candidateAt_nth size cell k :
  length (hasCandidate cell) = size + 1 ->
  cell_candidateAt cell k = nth (k - 1) (cell_candidates size cell) (size + 1).
Proof.
  intros Hlen. unfold cell_candidateAt.
  rewrite kth_set_nth, <- (cell_candidates_set_slots size) by done.
  rewrite length_drop, Hlen. f_equal. lia.
Qed.

Lemma cell_candidateAt_range size cell k :
  length (hasCandidate cell) = size + 1 ->
  1 <= k <= length (cell_candidates size cell) ->
  1 <= cell_candidateAt cell k <= size
  /\ cell_hasCandidate cell (cell_candidateAt cell k) = true.
Proof.
  intros Hlen Hk. rewrite (cell_candidateAt_nth size) by done.
  apply elem_of_cell_candidates, list_elem_of_In, nth_In. lia.
Qed.

(** ** The techniques are sound steps *)

Lemma grid_size_N g g' : N g' = N g -> grid_size g' = grid_size g.
Proof. unfold grid_size. by intros ->. Qed.

Lemma grid_removeCandidateFromRow_N g r v :
  N (grid_removeCandidateFromRow g r v).1 = N g.
Proof. apply (or_loop_N _ _ (g, false)). intros. apply grid_cell_removeCandidate_N. Qed.

Lemma grid_removeCandidateFromColumn_N g c v :
  N (grid_removeCandidateFromColumn g c v).1 = N g.
Proof. apply (or_loop_N _ _ (g, false)). intros. apply grid_cell_removeCandidate_N. Qed.

Lemma grid_removeCandidateFromBlock_N g r c v :
  N (grid_removeCandidateFromBlock g r c v).1 = N g.
Proof. apply (or_loop_N _ _ (g, false)). intros. apply grid_cell_removeCandidate_N. Qed.

Lemma sound_step_removeCandidate_N g0 g r c v :
  1 <= v <= grid_size g0 -> N g = N g0 ->
  sound_step g (grid_cell_removeCandidate g r c v).1.
Proof.
  intros Hv HN. apply sound_step_removeCandidate.
  by rewrite (grid_size_N g0 g).
Qed.

Lemma sound_step_removeCandidateFromRow g r v :
  1 <= v <= grid_size g ->
  sound_step g (grid_removeCandidateFromRow g r v).1.
Proof.
  intros Hv. apply (sound_step_or_loop _ _ (g, false)).
  intros g' c _ HN. by apply (sound_step_removeCandidate_N g).
Qed.

Lemma sound_step_removeCandidateFromColumn g c v :
  1 <= v <= grid_size g ->
  sound_step g (grid_removeCandidateFromColumn g c v).1.
Proof.
  intros Hv. apply (sound_step_or_loop _ _ (g, false)).
  intros g' r _ HN. by apply (sound_step_removeCandidate_N g).
Qed.

Lemma sound_step_removeCandidateFromBlock g r c v :
  1 <= v <= grid_size g ->
  sound_step g (grid_removeCandidateFromBlock g r c v).1.
Proof.
  intros Hv. apply (sound_step_or_loop _ _ (g, false)).
  intros g' rc _ HN. by apply (sound_step_removeCandidate_N g).
Qed.

(** A cell of a well-formed grid that is not the default cell has the size
    of the grid. *)
Lemma grid_wf_cell_length_count g r c :
  grid_wf g -> _candidateCount (grid_cellAt g r c) <> 0 ->
  length (hasCandidate (grid_cellAt g r c)) = grid_size g + 1.
Proof.
  intros (_ & Hf & _) Hcount. unfold grid_cellAt, rd in *.
  destruct (cells g !! _) as [cell|] eqn:E; simpl in *; [|done].
  by eapply Forall_lookup_1 in Hf.
Qed.

Lemma sound_step_nakedSingleton g r c :
  sound_step g (technique_nakedSingleton g r c).1.
Proof.
  unfold technique_nakedSingleton.
  destruct (_ =? 1) eqn:E; [|apply sound_step_refl].
  apply Nat.eqb_eq in E. intros Hp. pose proof Hp as [Hwf Hci].
  set (v := cell_get_first_candidate _).
  assert (1 <= v <= grid_size g) as Hv.
  { pose proof (grid_cell_invariant_at g r c Hci) as [Hcount _].
    unfold cell_candidate_count in E. rewrite E in Hcount.
    eapply elem_of_cell_candidates.
    rewrite (cell_candidates_length_1 _ _ v); [left|done..]. }
  pose proof (sound_step_removeCandidateFromRow g r v Hv) as S1.
  pose proof (grid_removeCandidateFromRow_N g r v) as N1.
  destruct (grid_removeCandidateFromRow g r v) as [g1 p1]. simpl in *.
  assert (1 <= v <= grid_size g1) as Hv1 by by rewrite (grid_size_N g).
  pose proof (sound_step_removeCandidateFromColumn g1 c v Hv1) as S2.
  pose proof (grid_removeCandidateFromColumn_N g1 c v) as N2.
  destruct (grid_removeCandidateFromColumn g1 c v) as [g2 p2]. simpl in *.
  assert (1 <= v <= grid_size g2) as Hv2 by by rewrite (grid_size_N g1).
  pose proof (sound_step_removeCandidateFromBlock g2 r c v Hv2) as S3.
  destruct (grid_removeCandidateFromBlock g2 r c v) as [g3 p3]. simpl in *.
  by apply (sound_step_trans g g1 g3 S1 (sound_step_trans g1 g2 g3 S2 S3)).
Qed.

Lemma findUniqueCandidate_found g r0 r1 c0 c1 pos v p :
  technique_hiddenSingleton_findUniqueCandidate g r0 r1 c0 c1 pos = Some (v, p) ->
  v <> 0 ->
  1 <= v <= grid_size g
  /\ cell_hasCandidate (grid_cellAt g (row p) (column p)) v = true.
Proof.
  unfold technique_hiddenSingleton_findUniqueCandidate.
  set (l := rect r0 r1 c0 c1).
  destruct (search_unique_spec (count_candidates g l) 1 (grid_size g))
    as [(H1 & _)|[H1 _]];
    set (w := search_unique (count_candidates g l) 1 (grid_size g)) in *.
  - rewrite (proj2 (Nat.eqb_neq w (grid_size g + 1))) by lia.
    destruct (find _ l) as [rc|] eqn:E; [|done].
    intros [= <- <-] _. apply find_some in E as [_ E]. split; [lia|done].
  - rewrite (proj2 (Nat.eqb_eq w (grid_size g + 1))) by lia.
    by intros [= <- <-].
Qed.

Lemma sound_step_hiddenSingleton_commit group g p v :
  1 <= v <= grid_size g ->
  cell_hasCandidate (grid_cellAt g (row p) (column p)) v = true ->
  sound_step g (hiddenSingleton_commit group g p v).
Proof.
  intros Hv Hhas. unfold hiddenSingleton_commit.
  assert (sound_step g (grid_cell_provideValue g (row p) (column p) v)) as S0.
  { apply sound_step_provideValue. intros [_ Hci].
    apply (cell_invariant_has_value (grid_size g) _ v); [|done..].
    by apply grid_cell_invariant_at. }
  set (g0 := grid_cell_provideValue g (row p) (column p) v) in *.
  assert (N g0 = N g) as N0 by done.
  assert (1 <= v <= grid_size g0) as Hv0 by by rewrite (grid_size_N g).
  destruct group.
  - pose proof (sound_step_removeCandidateFromRow g0 (row p) v Hv0) as S1.
    pose proof (grid_removeCandidateFromRow_N g0 (row p) v) as N1.
    set (g1 := (grid_removeCandidateFromRow g0 (row p) v).1) in *.
    assert (1 <= v <= grid_size g1) as Hv1 by by rewrite (grid_size_N g0).
    pose proof (sound_step_removeCandidateFromColumn g1 (column p) v Hv1) as S2.
    exact (sound_step_trans _ _ _ S0 (sound_step_trans _ _ _ S1 S2)).
  - pose proof (sound_step_removeCandidateFromBlock g0 (row p) (column p) v Hv0)
      as S1.
    pose proof (grid_removeCandidateFromBlock_N g0 (row p) (column p) v) as N1.
    set (g1 := (grid_removeCandidateFromBlock g0 (row p) (column p) v).1) in *.
    assert (1 <= v <= grid_size g1) as Hv1 by by rewrite (grid_size_N g0).
    pose proof (sound_step_removeCandidateFromColumn g1 (column p) v Hv1) as S2.
    exact (sound_step_trans _ _ _ S0 (sound_step_trans _ _ _ S1 S2)).
  - pose proof (sound_step_removeCandidateFromBlock g0 (row p) (column p) v Hv0)
      as S1.
    pose proof (grid_removeCandidateFromBlock_N g0 (row p) (column p) v) as N1.
    set (g1 := (grid_removeCandidateFromBlock g0 (row p) (column p) v).1) in *.
    assert (1 <= v <= grid_size g1) as Hv1 by by rewrite (grid_size_N g0).
    pose proof (sound_step_removeCandidateFromRow g1 (row p) v Hv1) as S2.
    exact (sound_step_trans _ _ _ S0 (sound_step_trans _ _ _ S1 S2)).
Qed.

Lemma sound_step_hiddenSingleton_group group r0 r1 c0 c1 g pos p g' pos' p' :
  hiddenSingleton_group group r0 r1 c0 c1 (g, pos, p) = Some (g', pos', p') ->
  sound_step g g'.
Proof.
  unfold hiddenSingleton_group. intros H.
  apply bind_Some in H as ([v q] & E & H).
  destruct (v =? 0) eqn:Ev.
  - simplify_eq. apply sound_step_refl.
  - apply Nat.eqb_neq in Ev. simplify_eq.
    destruct (findUniqueCandidate_found _ _ _ _ _ _ _ _ E Ev).
    by apply sound_step_hiddenSingleton_commit.
Qed.

Lemma sound_step_hiddenSingleton g r c g' b :
  technique_hiddenSingleton g r c = Some (g', b) -> sound_step g g'.
Proof.
  unfold technique_hiddenSingleton. intros H.
  apply bind_Some in H as ([[g1 pos1] p1] & E1 & H).
  apply bind_Some in H as ([[g2 pos2] p2] & E2 & H).
  apply bind_Some in H as ([[g3 pos3] p3] & E3 & H).
  cbn [fst snd] in *. simplify_eq.
  apply sound_step_hiddenSingleton_group in E1, E2, E3.
  exact (sound_step_trans _ _ _ E1 (sound_step_trans _ _ _ E2 E3)).
Qed.

Lemma sound_step_nakedPair_remove g0 pair g rc :
  1 <= pair.1 <= grid_size g0 -> 1 <= pair.2 <= grid_size g0 -> N g = N g0 ->
  sound_step g (nakedPair_remove pair g rc).1.
Proof.
  intros H1 H2 HN. unfold nakedPair_remove.
  destruct (negb _); [|apply sound_step_refl].
  pose proof (sound_step_removeCandidate_N g0 g rc.1 rc.2 pair.1 H1 HN) as S1.
  pose proof (grid_cell_removeCandidate_N g rc.1 rc.2 pair.1) as N1.
  destruct (grid_cell_removeCandidate g rc.1 rc.2 pair.1) as [g1 b1].
  simpl in *.
  pose proof (sound_step_removeCandidate_N g0 g1 rc.1 rc.2 pair.2 H2
                ltac:(congruence)) as S2.
  destruct (grid_cell_removeCandidate g1 rc.1 rc.2 pair.2) as [g2 b2].
  simpl in *. exact (sound_step_trans _ _ _ S1 S2).
Qed.

Lemma sound_step_nakedPair g r c :
  sound_step g (technique_nakedPair g r c).1.
Proof.
  unfold technique_nakedPair.
  destruct (cell_candidate_count (grid_cellAt g r c) =? 2) eqn:E;
    [|apply sound_step_refl].
  destruct (nakedPair_count _ _ _ _ _ _ =? 2); [|apply sound_step_refl].
  apply Nat.eqb_eq in E. unfold cell_candidate_count in E.
  intros Hp. pose proof Hp as [Hwf Hci].
  pose proof (grid_cell_invariant_at g r c Hci) as [Hcount _].
  assert (length (hasCandidate (grid_cellAt g r c)) = grid_size g + 1) as Hlen
    by (apply grid_wf_cell_length_count; [done|lia]).
  destruct (cell_candidateAt_range (grid_size g) (grid_cellAt g r c) 1 Hlen
              ltac:(lia)) as [H1 _].
  destruct (cell_candidateAt_range (grid_size g) (grid_cellAt g r c) 2 Hlen
              ltac:(lia)) as [H2 _].
  revert Hp. apply (sound_step_or_loop _ _ (g, false)).
  intros g' rc _ HN. by apply (sound_step_nakedPair_remove g).
Qed.

Lemma removePairCells_step_N candidates pos g v :
  N (removePairCells_step candidates pos g v).1 = N g.
Proof.
  unfold removePairCells_step. destruct (_ && _); [|done].
  apply grid_cell_removeCandidate_N.
Qed.

Lemma sound_step_removePairCells g positions candidates :
  sound_step g (technique_hiddenPair_removePairCells g positions candidates).1.
Proof.
  unfold technique_hiddenPair_removePairCells.
  assert (forall pos g0 gp, N gp.1 = N g0 ->
            sound_step gp.1
              (or_loop (removePairCells_step candidates pos)
                       (range 1 (grid_size g0 + 1)) gp).1) as Hloop.
  { intros pos g0 gp HN0. apply sound_step_or_loop.
    intros g' v Hv%elem_of_range HN. unfold removePairCells_step.
    destruct (_ && _); [|apply sound_step_refl].
    apply (sound_step_removeCandidate_N g0); [lia|congruence]. }
  eapply sound_step_trans; [apply (Hloop positions.1 g (g, false) eq_refl)|].
  apply Hloop. apply (or_loop_N _ _ (g, false)).
  intros. apply removePairCells_step_N.
Qed.

Lemma sound_step_hiddenPair_group r c r0 r1 c0 c1 st :
  sound_step st.1.1 (hiddenPair_group r c r0 r1 c0 c1 st).1.1.
Proof.
  destruct st as [[g p1] progress]. unfold hiddenPair_group.
  destruct (2 <=? _); [|apply sound_step_refl].
  destruct (technique_hiddenPair_findPair _ _ _ _ _ _) as [[candidates|] p1'];
    [|apply sound_step_refl].
  pose proof (sound_step_removePairCells g (mkPos r c, p1') candidates) as S1.
  by destruct (technique_hiddenPair_removePairCells _ _ _) as [g' b].
Qed.

Lemma sound_step_hiddenPair g r c :
  sound_step g (technique_hiddenPair g r c).1.
Proof.
  unfold technique_hiddenPair. cbn zeta. cbn [fst snd].
  eapply sound_step_trans; [|apply sound_step_hiddenPair_group].
  eapply sound_step_trans; [|apply sound_step_hiddenPair_group].
  apply (sound_step_hiddenPair_group r c _ _ _ _ (g, mkPos 0 0, false)).
Qed.

Lemma sound_step_perform_cell g progress rc g' progress' :
  perform_cell (g, progress) rc = Some (g', progress') -> sound_step g g'.
Proof.
  unfold perform_cell.
  destruct (cell_hasValue _); [intros [= <- _]; apply sound_step_refl|].
  pose proof (sound_step_nakedSingleton g rc.1 rc.2) as S1.
  destruct (technique_nakedSingleton g rc.1 rc.2) as [g1 b1]. simpl in S1.
  destruct (cell_hasValue _); [by intros [= <- _]|].
  destruct (technique_hiddenSingleton g1 rc.1 rc.2) as [[g2 b2]|] eqn:E2;
    cbn [mbind option_bind]; [|done].
  apply sound_step_hiddenSingleton in E2.
  pose proof (sound_step_trans _ _ _ S1 E2) as S2.
  destruct (cell_hasValue _); [by intros [= <- _]|].
  pose proof (sound_step_nakedPair g2 rc.1 rc.2) as S3.
  destruct (technique_nakedPair g2 rc.1 rc.2) as [g3 b3]. simpl in S3.
  pose proof (sound_step_trans _ _ _ S2 S3) as S3'.
  destruct (cell_hasValue _); [by intros [= <- _]|].
  pose proof (sound_step_hiddenPair g3 rc.1 rc.2) as S4.
  destruct (technique_hiddenPair g3 rc.1 rc.2) as [g4 b4]. simpl in S4.
  intros [= <- _]. exact (sound_step_trans _ _ _ S3' S4).
Qed.

Lemma sound_step_for_abort_perform_cell l g progress g' progress' :
  for_abort perform_cell l (g, progress) = Some (g', progress') ->
  sound_step g g'.
Proof.
  revert g progress. induction l as [|rc l IH]; intros g progress H; simpl in H.
  - simplify_eq. apply sound_step_refl.
  - apply bind_Some in H as ([g1 p1] & E & H).
    apply sound_step_perform_cell in E. apply IH in H.
    exact (sound_step_trans _ _ _ E H).
Qed.

Lemma sound_step_x_wing_eliminate cellOf j1 j2 v i1 i2 g0 g j :
  1 <= v <= grid_size g0 -> N g = N g0 ->
  sound_step g (x_wing_eliminate cellOf j1 j2 v i1 i2 g j).1.
Proof.
  intros Hv HN. unfold x_wing_eliminate.
  destruct (_ && _); [|apply sound_step_refl].
  pose proof (sound_step_removeCandidate_N g0 g (cellOf i1 j).1 (cellOf i1 j).2
                v Hv HN) as S1.
  pose proof (grid_cell_removeCandidate_N g (cellOf i1 j).1 (cellOf i1 j).2 v)
    as N1.
  destruct (grid_cell_removeCandidate g _ _ v) as [g1 b1]. simpl in *.
  pose proof (sound_step_removeCandidate_N g0 g1 (cellOf i2 j).1
                (cellOf i2 j).2 v Hv ltac:(congruence)) as S2.
  destruct (grid_cell_removeCandidate g1 _ _ v) as [g2 b2]. simpl in *.
  exact (sound_step_trans _ _ _ S1 S2).
Qed.

Lemma sound_step_x_wing_step pass g a1 a2 v :
  1 <= v <= grid_size g -> sound_step g (x_wing_step pass g a1 a2 v).1.
Proof.
  intros Hv.
  destruct pass; unfold x_wing_step, x_wing_vertical_step,
    x_wing_horizontal_step;
    (destruct (x_wing_found _); [|apply sound_step_refl]);
    apply (sound_step_or_loop _ _ (g, false)); intros g' j _ HN;
    by apply (sound_step_x_wing_eliminate _ _ _ _ _ _ g).
Qed.

Lemma x_wing_step_N pass g a1 a2 v : N (x_wing_step pass g a1 a2 v).1 = N g.
Proof.
  assert (forall cellOf j1 j2 i1 i2 g j,
            N (x_wing_eliminate cellOf j1 j2 v i1 i2 g j).1 = N g) as Hel.
  { intros. unfold x_wing_eliminate. destruct (_ && _); [|done].
    pose proof (grid_cell_removeCandidate_N g0 (cellOf i1 j).1 (cellOf i1 j).2 v)
      as N1.
    destruct (grid_cell_removeCandidate g0 _ _ v) as [g1 b1]. simpl in *.
    pose proof (grid_cell_removeCandidate_N g1 (cellOf i2 j).1 (cellOf i2 j).2 v)
      as N2.
    destruct (grid_cell_removeCandidate g1 _ _ v) as [g2 b2]. simpl in *.
    congruence. }
  destruct pass; unfold x_wing_step, x_wing_vertical_step,
    x_wing_horizontal_step;
    (destruct (x_wing_found _); [|done]);
    apply (or_loop_N _ _ (g, false)); intros; apply Hel.
Qed.

Lemma elem_of_x_wing_triples size i1 i2 v :
  (i1, i2, v) ∈ x_wing_triples size -> 1 <= v <= size.
Proof.
  unfold x_wing_triples. intros (a & H & _)%list_elem_of_bind.
  apply list_elem_of_bind in H as (b & H & _).
  apply list_elem_of_bind in H as (w & H & Hw%elem_of_range).
  apply list_elem_of_singleton in H. simplify_eq. lia.
Qed.

Lemma sound_step_x_wing g : sound_step g (technique_x_wing g).1.
Proof.
  unfold technique_x_wing.
  assert (forall pass gp, N gp.1 = N g ->
            sound_step gp.1
              (or_loop (fun g t => x_wing_step pass g t.1.1 t.1.2 t.2)
                       (x_wing_triples (grid_size g)) gp).1) as Hpass.
  { intros pass gp HN0. apply sound_step_or_loop.
    intros g' [[i1 i2] v] Hv%elem_of_x_wing_triples HN. simpl.
    apply sound_step_x_wing_step. rewrite (grid_size_N g); [done|congruence]. }
  eapply sound_step_trans; [apply (Hpass Vertical (g, false) eq_refl)|].
  apply (Hpass Horizontal).
  apply (or_loop_N (fun g t => x_wing_step Vertical g t.1.1 t.1.2 t.2) _
                   (g, false)).
  intros. apply x_wing_step_N.
Qed.

(** [perform_simpleTechniques], on a well-formed grid that satisfies the
    cell invariant, returns a grid that is well formed and satisfies the
    cell invariant again; no cell that had a value has another value
    afterwards, and no cell has a candidate that it did not have before. *)
Theorem perform_simpleTechniques_sound g g' progress :
  propagated g -> perform_simpleTechniques g = Some (g', progress) ->
  propagated g' /\ grid_kept g g'.
Proof.
  intros Hp H. unfold perform_simpleTechniques in H.
  apply sound_step_for_abort_perform_cell in H. exact (H Hp).
Qed.

(** [technique_x_wing], on a well-formed grid that satisfies the cell
    invariant, returns a grid that is well formed and satisfies the cell
    invariant again; no cell that had a value has another value afterwards,
    and no cell has a candidate that it did not have before. *)
Theorem technique_x_wing_sound g :
  propagated g ->
  propagated (technique_x_wing g).1 /\ grid_kept g (technique_x_wing g).1.
Proof. exact (sound_step_x_wing g). Qed.

Lemma grid_threeColumns_propagated : propagated grid_threeColumns.
Proof.
  split; [exact grid_threeColumns_wf|].
  decide_with (grid_cell_invariant_dec grid_threeColumns).
Qed.

Lemma perform_simpleTechniques_sound_witness :
  exists g' progress,
    perform_simpleTechniques grid_threeColumns = Some (g', progress)
    /\ propagated g' /\ grid_kept grid_threeColumns g'.
Proof.
  destruct (perform_simpleTechniques grid_threeColumns) as [[g' b]|] eqn:E.
  - exists g', b. split; [reflexivity|].
    exact (perform_simpleTechniques_sound grid_threeColumns g' b
             grid_threeColumns_propagated E).
  - vm_compute in E. discriminate E.
Defined.

Lemma technique_x_wing_sound_witness :
  propagated (technique_x_wing grid_threeColumns).1
  /\ grid_kept grid_threeColumns (technique_x_wing grid_threeColumns).1.
Proof.
  exact (technique_x_wing_sound grid_threeColumns grid_threeColumns_propagated).
Defined.

(** ** The loader *)

Lemma for_return_app {St I} (body : St -> I -> St + St) l1 l2 s :
  for_return body (l1 ++ l2) s
  = match for_return body l1 s with
    | inl s' => inl s'
    | inr s' => for_return body l2 s'
    end.
Proof.
  revert s. induction l1 as [|i l1 IH]; intros s; simpl; [done|].
  destruct (body s i); [done|apply IH].
Qed.

Lemma grid_wf_sized g : grid_wf g -> grid_sized g.
Proof. intros (H1 & _ & H2). by split. Qed.

Lemma grid_sized_setCellAt g r c cell :
  grid_sized g -> grid_sized (grid_setCellAt g r c cell).
Proof.
  intros (H1 & H2). split; [|done]. simpl. by rewrite length_insert.
Qed.

Lemma grid_sized_markValueFree b g r c v :
  grid_sized g -> grid_sized (grid_markValueFree b g r c v).
Proof.
  intros (H1 & H2 & H3 & H4). unfold grid_sized. simpl.
  by rewrite !length_insert.
Qed.

Lemma grid_cellAt_set g r c cell r' c' :
  in_grid g (r, c) -> in_grid g (r', c') -> grid_sized g ->
  grid_cellAt (grid_setCellAt g r c cell) r' c'
  = if decide ((r', c') = (r, c)) then cell else grid_cellAt g r' c'.
Proof.
  intros [Hr Hc] [Hr' Hc'] Hwf. simpl in *. case_decide as E.
  - simplify_eq. apply grid_cellAt_set_eq. destruct Hwf as [-> _]. by apply at2d_lt.
  - apply grid_cellAt_set_ne. intros [-> ->]%at2d_inj; done.
Qed.

(** One step of the first loops of [grid_load], for a value within range. *)
Lemma grid_load_value_step vals g rc :
  grid_sized g -> in_grid g rc ->
  stream_value (grid_size g) vals rc <= grid_size g ->
  let v := stream_value (grid_size g) vals rc in
  exists g',
    grid_load_value vals g rc = inr g'
    /\ N g' = N g /\ grid_sized g'
    /\ (forall rc', in_grid g rc' ->
        grid_cellAt g' rc'.1 rc'.2
        = if decide (rc' = rc)
          then mkCell (if v =? 0 then _value (grid_cellAt g rc.1 rc.2) else v)
                      (replicate (grid_size g + 1) false)
                      (_candidateCount (grid_cellAt g rc.1 rc.2))
          else grid_cellAt g rc'.1 rc'.2)
    /\ (forall i, rd false (_isRowFree g') i
          = rd false (_isRowFree g) i
            && negb (negb (v =? 0) && (at2d (grid_size g + 1) rc.1 v =? i)))
    /\ (forall i, rd false (_isColumnFree g') i
          = rd false (_isColumnFree g) i
            && negb (negb (v =? 0) && (at2d (grid_size g + 1) rc.2 v =? i)))
    /\ (forall i, rd false (_isBlockFree g') i
          = rd false (_isBlockFree g) i
            && negb (negb (v =? 0)
                     && (at3d (N g) (grid_size g + 1) (rc.1 / N g) (rc.2 / N g) v
                         =? i))).
Proof.
  intros Hwf Hin Hle v. destruct rc as [r c]. pose proof Hin as [Hr Hc].
  simpl in Hr, Hc. unfold grid_load_value. fold (stream_value (grid_size g) vals (r, c)).
  fold v. cbn [fst snd].
  set (cell := grid_cellAt g r c).
  set (allocated := replicate (grid_size g + 1) false).
  set (g1 := grid_setCellAt g r c (mkCell (_value cell) allocated (_candidateCount cell))).
  assert (grid_sized g1) as Hwf1.
  { by apply grid_sized_setCellAt. }
  destruct (v =? 0) eqn:Ev; simpl.
  - exists g1. split; [done|]. split; [done|]. split; [done|].
    split; [|by repeat split; intros; rewrite andb_true_r].
    intros [r' c'] Hin'. simpl. subst g1.
    by rewrite (grid_cellAt_set g r c _ r' c' Hin Hin' Hwf).
  - rewrite (proj2 (Nat.ltb_ge _ _)) by done.
    set (g2 := grid_setCellAt g1 r c (mkCell v allocated (_candidateCount cell))).
    assert (grid_sized g2) as Hwf2.
    { by apply grid_sized_setCellAt. }
    exists (grid_markValueFree false g2 r c v).
    split; [done|]. split; [done|]. split; [by apply grid_sized_markValueFree|].
    pose proof Hwf as (_ & Hcol & Hrow & Hblock).
    split; [|split; [|split]].
    + intros [r' c'] Hin'. simpl. rewrite grid_cellAt_mark. subst g2.
      rewrite (grid_cellAt_set g1 r c _ r' c' Hin Hin' Hwf1).
      case_decide; [done|].
      subst g1. rewrite (grid_cellAt_set g r c _ r' c' Hin Hin' Hwf).
      by rewrite decide_False.
    + intros i. simpl. destruct (decide (at2d (grid_size g + 1) r v < length (_isRowFree g))) as [Hlt|Hge].
      * by rewrite rd_insert_false.
      * exfalso. apply Hge. rewrite Hrow. apply at2d_lt; lia.
    + intros i. simpl. rewrite rd_insert_false; [done|].
      rewrite Hcol. apply at2d_lt; lia.
    + intros i. simpl. rewrite rd_insert_false; [done|].
      rewrite Hblock. apply at3d_lt; [by apply block_coord_lt..|lia].
Qed.

(** The first loops of [grid_load] over distinct cells, for values within
    range. *)
Lemma grid_load_values_spec vals n l g :
  let size := n * n in
  N g = n -> grid_sized g -> NoDup l ->
  (forall rc, rc ∈ l -> in_grid g rc) ->
  (forall rc, rc ∈ l -> stream_value size vals rc <= size) ->
  exists g',
    for_return (grid_load_value vals) l g = inr g'
    /\ N g' = n /\ grid_sized g'
    /\ (forall rc, in_grid g rc ->
        grid_cellAt g' rc.1 rc.2
        = if decide (rc ∈ l)
          then mkCell (if stream_value size vals rc =? 0
                       then _value (grid_cellAt g rc.1 rc.2)
                       else stream_value size vals rc)
                      (replicate (size + 1) false)
                      (_candidateCount (grid_cellAt g rc.1 rc.2))
          else grid_cellAt g rc.1 rc.2)
    /\ (forall i, rd false (_isRowFree g') i
          = rd false (_isRowFree g) i
            && negb (existsb
                       (fun rc => negb (stream_value size vals rc =? 0)
                                  && (at2d (size + 1) rc.1
                                           (stream_value size vals rc) =? i)) l))
    /\ (forall i, rd false (_isColumnFree g') i
          = rd false (_isColumnFree g) i
            && negb (existsb
                       (fun rc => negb (stream_value size vals rc =? 0)
                                  && (at2d (size + 1) rc.2
                                           (stream_value size vals rc) =? i)) l))
    /\ (forall i, rd false (_isBlockFree g') i
          = rd false (_isBlockFree g) i
            && negb (existsb
                       (fun rc => negb (stream_value size vals rc =? 0)
                                  && (at3d n (size + 1) (rc.1 / n) (rc.2 / n)
                                           (stream_value size vals rc) =? i)) l)).
Proof.
  intros size HN Hwf Hnd Hin Hle. revert g HN Hwf Hin.
  induction l as [|rc l IH]; intros g HN Hwf Hin.
  - exists g. split; [done|]. split; [done|]. split; [done|].
    split; [|by repeat split; intros; cbn [existsb negb]; rewrite andb_true_r].
    intros rc _. destruct (decide (rc ∈ [])) as [H|_]; [|done].
    by apply elem_of_nil in H.
  - apply NoDup_cons in Hnd as [Hrc Hnd].
    assert (grid_size g = size) as Hsize by (unfold grid_size; by rewrite HN).
    destruct (grid_load_value_step vals g rc Hwf) as
      (g1 & E1 & HN1 & Hwf1 & Hc1 & Hr1 & Hcol1 & Hb1).
    { apply Hin. left. }
    { rewrite Hsize. apply Hle. left. }
    rewrite Hsize, HN in *.
    destruct (IH Hnd (fun rc' H => Hle rc' (list_elem_of_further _ _ _ H)) g1)
      as (g' & E' & HN' & Hwf' & Hc' & Hr' & Hcol' & Hb').
    { congruence. }
    { done. }
    { intros rc' Hrc'. apply (in_grid_N g); [congruence|]. apply Hin. by right. }
    exists g'. cbn [for_return]. rewrite E1. split; [done|]. split; [done|].
    split; [done|]. split; [|split; [|split]].
    + intros rc' Hrc'. rewrite Hc' by (apply (in_grid_N g); [congruence|done]).
      rewrite !Hc1 by done.
      destruct (decide (rc' = rc)) as [->|Hne].
      * destruct (decide (rc ∈ l)) as [?|_]; [done|].
        destruct (decide (rc ∈ rc :: l)) as [_|Hn]; [done|].
        exfalso. apply Hn. left.
      * destruct (decide (rc' ∈ l)) as [Hl|Hl];
          destruct (decide (rc' ∈ rc :: l)) as [Hl'|Hl']; try done.
        -- exfalso. apply Hl'. by right.
        -- exfalso. by apply elem_of_cons in Hl' as [?|?].
    + intros i. rewrite Hr', Hr1. cbn [existsb].
      rewrite negb_orb, andb_assoc. done.
    + intros i. rewrite Hcol', Hcol1. cbn [existsb].
      rewrite negb_orb, andb_assoc. done.
    + intros i. rewrite Hb', Hb1. cbn [existsb].
      rewrite negb_orb, andb_assoc. done.
Qed.

(** A value beyond the size of the grid makes the first loops return. *)
Lemma grid_load_values_invalid vals n l g :
  let size := n * n in
  N g = n -> grid_sized g -> NoDup l ->
  (forall rc, rc ∈ l -> in_grid g rc) ->
  (exists rc, rc ∈ l /\ size < stream_value size vals rc) ->
  exists g', for_return (grid_load_value vals) l g = inl g'.
Proof.
  intros size HN Hwf Hnd Hin Hbad. revert g HN Hwf Hin.
  induction l as [|rc l IH]; intros g HN Hwf Hin.
  - destruct Hbad as (rc & H%elem_of_nil & _). done.
  - apply NoDup_cons in Hnd as [Hrc Hnd].
    assert (grid_size g = size) as Hsize by (unfold grid_size; by rewrite HN).
    cbn [for_return].
    destruct (decide (stream_value size vals rc <= size)) as [Hle|Hgt].
    + destruct (grid_load_value_step vals g rc Hwf) as
        (g1 & E1 & HN1 & Hwf1 & _).
      { apply Hin. left. }
      { by rewrite Hsize. }
      rewrite E1. apply IH; try done.
      * destruct Hbad as (rc' & [->|H]%elem_of_cons & Hlt); [lia|].
        by exists rc'.
      * congruence.
      * intros rc' Hrc'. apply (in_grid_N g); [congruence|].
        apply Hin. by right.
    + unfold grid_load_value.
      fold (stream_value (grid_size g) vals rc). rewrite Hsize.
      rewrite (proj2 (Nat.eqb_neq _ 0)) by lia. cbn [negb].
      rewrite (proj2 (Nat.ltb_lt _ _)) by lia. by eexists.
Qed.

Lemma grid_possible_ext g g' r c v :
  N g' = N g -> _isColumnFree g' = _isColumnFree g ->
  _isRowFree g' = _isRowFree g -> _isBlockFree g' = _isBlockFree g ->
  grid_possible g' r c v = grid_possible g r c v.
Proof.
  intros HN H1 H2 H3. unfold grid_possible, grid_size.
  by rewrite HN, H1, H2, H3.
Qed.

(** The candidates loop on one cell. *)
Lemma cell_fill_loop (possible : nat -> bool) vs cell :
  NoDup vs -> (forall v, v ∈ vs -> v < length (hasCandidate cell)) ->
  let cell' :=
    fold_left
      (fun cell candidate =>
         mkCell (_value cell)
                (<[candidate := possible candidate]> (hasCandidate cell))
                (_candidateCount cell + Nat.b2n (possible candidate)))
      vs cell in
  _value cell' = _value cell
  /\ length (hasCandidate cell') = length (hasCandidate cell)
  /\ (forall v, cell_hasCandidate cell' v
                = if decide (v ∈ vs) then possible v
                  else cell_hasCandidate cell v)
  /\ _candidateCount cell'
     = _candidateCount cell + length (List.filter possible vs).
Proof.
  intros Hnd. revert cell. induction Hnd as [|v vs Hv Hnd IH];
    intros cell Hlen; cbn [fold_left].
  - split; [done|]. split; [done|]. split; [|simpl; lia].
    intros v. destruct (decide (v ∈ [])) as [H|_]; [|done].
    by apply elem_of_nil in H.
  - set (cell1 := mkCell _ _ _).
    destruct (IH cell1) as (H1 & H2 & H3 & H4).
    { intros w Hw. simpl. rewrite length_insert. apply Hlen. by right. }
    split; [by rewrite H1|]. split; [by rewrite H2; simpl; rewrite length_insert|].
    split.
    + intros w. rewrite H3. unfold cell_hasCandidate. simpl.
      destruct (decide (w = v)) as [->|Hne].
      * destruct (decide (v ∈ vs)) as [?|_]; [done|].
        destruct (decide (v ∈ v :: vs)) as [_|Hn]; [|exfalso; apply Hn; left].
        apply rd_insert_eq. apply Hlen. left.
      * rewrite rd_insert_ne by done.
        destruct (decide (w ∈ vs)) as [Hl|Hl];
          destruct (decide (w ∈ v :: vs)) as [Hl'|Hl']; try done.
        -- exfalso. apply Hl'. by right.
        -- exfalso. by apply elem_of_cons in Hl' as [?|?].
    + rewrite H4. simpl. destruct (possible v); simpl; lia.
Qed.

Lemma cell_fill_spec possible size cell :
  length (hasCandidate cell) = size + 1 ->
  let cell' := cell_fill possible size cell in
  _value cell' = _value cell
  /\ length (hasCandidate cell') = size + 1
  /\ (forall v, 1 <= v <= size -> cell_hasCandidate cell' v = possible v)
  /\ _candidateCount cell'
     = _candidateCount cell
       + length (List.filter possible (range 1 (size + 1))).
Proof.
  intros Hlen cell'.
  destruct (cell_fill_loop possible (range 1 (size + 1)) cell)
    as (H1 & H2 & H3 & H4).
  { apply NoDup_range. }
  { intros v Hv%elem_of_range. lia. }
  split; [exact H1|]. split; [by rewrite <- Hlen|]. split; [|exact H4].
  intros v Hv. subst cell'. unfold cell_fill. rewrite H3.
  rewrite decide_True; [done|]. apply elem_of_range. lia.
Qed.

Lemma grid_setCellAt_set g r c cell cell' :
  grid_setCellAt (grid_setCellAt g r c cell) r c cell'
  = grid_setCellAt g r c cell'.
Proof. unfold grid_setCellAt. simpl. by rewrite list_insert_insert_eq. Qed.

Lemma grid_setCellAt_id g r c :
  at2d (grid_size g) r c < length (cells g) ->
  grid_setCellAt g r c (grid_cellAt g r c) = g.
Proof.
  intros Hi. unfold grid_setCellAt, grid_cellAt, rd.
  apply lookup_lt_is_Some_2 in Hi as [cell E]. rewrite E. simpl.
  rewrite list_insert_id by done. by destruct g.
Qed.

Lemma grid_load_candidates_loop g r c vs cell0 :
  at2d (grid_size g) r c < length (cells g) ->
  fold_left
    (fun g' candidate =>
       let cell := grid_cellAt g' r c in
       let possible := grid_possible g' r c candidate in
       grid_setCellAt g' r c
         (mkCell (_value cell)
                 (<[candidate := possible]> (hasCandidate cell))
                 (_candidateCount cell + Nat.b2n possible)))
    vs (grid_setCellAt g r c cell0)
  = grid_setCellAt g r c
      (fold_left
         (fun cell candidate =>
            mkCell (_value cell)
                   (<[candidate := grid_possible g r c candidate]>
                      (hasCandidate cell))
                   (_candidateCount cell
                    + Nat.b2n (grid_possible g r c candidate)))
         vs cell0).
Proof.
  intros Hidx. revert cell0. induction vs as [|v vs IH]; intros cell0; [done|].
  cbn [fold_left]. cbv zeta. rewrite grid_cellAt_set_eq by done.
  rewrite grid_setCellAt_set.
  change (grid_possible (grid_setCellAt g r c cell0) r c v)
    with (grid_possible g r c v).
  apply IH.
Qed.

(** The second loops of [grid_load] on one cell: the cell is replaced by
    its filled version. *)
Lemma grid_load_candidates_cell g rc :
  grid_wf g -> in_grid g rc ->
  grid_load_candidates g rc
  = grid_setCellAt g rc.1 rc.2
      (if cell_hasValue (grid_cellAt g rc.1 rc.2) then grid_cellAt g rc.1 rc.2
       else cell_fill (grid_possible g rc.1 rc.2) (grid_size g)
                      (grid_cellAt g rc.1 rc.2)).
Proof.
  intros Hwf [Hr Hc]. destruct rc as [r c]. simpl in *.
  pose proof (grid_wf_cell_index g r c Hwf Hr Hc) as Hidx.
  unfold grid_load_candidates. cbn [fst snd].
  destruct (cell_hasValue _); [by rewrite grid_setCellAt_id|].
  unfold cell_fill.
  rewrite <- (grid_load_candidates_loop g r c _ _ Hidx).
  by rewrite grid_setCellAt_id.
Qed.

Lemma fold_left_ext_all {A B} (f f' : A -> B -> A) l a :
  (forall a b, f a b = f' a b) -> fold_left f l a = fold_left f' l a.
Proof.
  intros H. revert a. induction l as [|b l IH]; intros a; simpl; [done|].
  by rewrite H, IH.
Qed.

Lemma grid_filled_cell_ext g g' rc :
  N g' = N g -> _isColumnFree g' = _isColumnFree g ->
  _isRowFree g' = _isRowFree g -> _isBlockFree g' = _isBlockFree g ->
  grid_cellAt g' rc.1 rc.2 = grid_cellAt g rc.1 rc.2 ->
  grid_filled_cell g' rc = grid_filled_cell g rc.
Proof.
  intros HN H1 H2 H3 Hc. unfold grid_filled_cell. rewrite Hc.
  rewrite (grid_size_N g g' HN). destruct (cell_hasValue _); [done|].
  unfold cell_fill. apply fold_left_ext_all. intros cell v.
  by rewrite (grid_possible_ext g g').
Qed.

Lemma grid_filled_cell_length g rc :
  grid_wf g -> in_grid g rc ->
  length (hasCandidate (grid_filled_cell g rc)) = grid_size g + 1.
Proof.
  intros Hwf [Hr Hc]. unfold grid_filled_cell.
  pose proof (grid_wf_cell_length g rc.1 rc.2 Hwf Hr Hc) as Hlen.
  destruct (cell_hasValue _); [done|].
  by destruct (cell_fill_spec (grid_possible g rc.1 rc.2) (grid_size g) _ Hlen)
    as (_ & H & _).
Qed.

(** The second loops of [grid_load] over distinct cells. *)
Lemma grid_load_candidates_spec l g :
  grid_wf g -> NoDup l -> (forall rc, rc ∈ l -> in_grid g rc) ->
  let g' := fold_left grid_load_candidates l g in
  N g' = N g /\ _isColumnFree g' = _isColumnFree g
  /\ _isRowFree g' = _isRowFree g /\ _isBlockFree g' = _isBlockFree g
  /\ grid_wf g'
  /\ (forall rc, in_grid g rc ->
      grid_cellAt g' rc.1 rc.2
      = if decide (rc ∈ l) then grid_filled_cell g rc
        else grid_cellAt g rc.1 rc.2).
Proof.
  intros Hwf Hnd. revert g Hwf. induction Hnd as [|rc l Hrc Hnd IH];
    intros g Hwf Hin; cbn [fold_left].
  - do 5 (split; [done|]). intros rc _.
    destruct (decide (rc ∈ [])) as [H|_]; [|done]. by apply elem_of_nil in H.
  - assert (in_grid g rc) as Hrcin by (apply Hin; left).
    rewrite (grid_load_candidates_cell g rc Hwf Hrcin).
    fold (grid_filled_cell g rc).
    set (g1 := grid_setCellAt g rc.1 rc.2 (grid_filled_cell g rc)).
    assert (grid_wf g1) as Hwf1.
    { apply grid_wf_setCellAt; [done|]. by apply grid_filled_cell_length. }
    destruct (IH g1 Hwf1) as (HN & H1 & H2 & H3 & Hwf' & Hcells).
    { intros rc' Hrc'. apply (in_grid_N g); [done|]. apply Hin. by right. }
    split; [by rewrite HN|]. split; [by rewrite H1|]. split; [by rewrite H2|].
    split; [by rewrite H3|]. split; [done|].
    intros rc' Hrc'. rewrite (Hcells rc') by done.
    assert (grid_cellAt g1 rc'.1 rc'.2
            = if decide (rc' = rc) then grid_filled_cell g rc
              else grid_cellAt g rc'.1 rc'.2) as Hc1.
    { destruct rc as [r c], rc' as [r' c']. subst g1.
      apply grid_cellAt_set; [done..|]. by apply grid_wf_sized. }
    destruct (decide (rc' = rc)) as [->|Hne].
    + destruct (decide (rc ∈ l)) as [?|_]; [done|].
      destruct (decide (rc ∈ rc :: l)) as [_|Hn]; [done|].
      exfalso. apply Hn. left.
    + destruct (decide (rc' ∈ l)) as [Hl|Hl];
        destruct (decide (rc' ∈ rc :: l)) as [Hl'|Hl']; try done.
      * by apply grid_filled_cell_ext.
      * exfalso. apply Hl'. by right.
      * exfalso. by apply elem_of_cons in Hl' as [?|?].
Qed.

(** ** Cells and indices *)

Lemma at2d_div_mod size k : size <> 0 -> at2d size (k / size) (k mod size) = k.
Proof.
  intros Hs. unfold at2d. pose proof (Nat.div_mod_eq k size). lia.
Qed.

Lemma index_in_grid g k :
  k < grid_size g * grid_size g ->
  in_grid g (k / grid_size g, k mod grid_size g)
  /\ at2d (grid_size g) (k / grid_size g) (k mod grid_size g) = k.
Proof.
  intros Hk. assert (grid_size g <> 0) as Hs by lia.
  split; [split; simpl|by apply at2d_div_mod].
  - by apply block_coord_lt.
  - by apply Nat.mod_upper_bound.
Qed.

(** A property of every cell of the grid, position by position, is a
    property of every element of the array of cells. *)
Lemma Forall_cells (P : tCell -> Prop) g :
  grid_sized g ->
  (forall rc, in_grid g rc -> P (grid_cellAt g rc.1 rc.2)) ->
  Forall P (cells g).
Proof.
  intros (Hlen & _) H. apply Forall_lookup. intros k cell E.
  assert (k < grid_size g * grid_size g) as Hk
    by (rewrite <- Hlen; by eapply lookup_lt_Some).
  destruct (index_in_grid g k Hk) as [Hin Hidx].
  specialize (H _ Hin). unfold grid_cellAt, rd in H. simpl in H.
  by rewrite Hidx, E in H.
Qed.

Lemma rd_take {A} (d : A) n l i : i < n -> rd d (take n l) i = rd d l i.
Proof. intros Hi. unfold rd. by rewrite lookup_take_lt. Qed.

Lemma stream_value_take size inStream rc :
  rc.1 < size -> rc.2 < size ->
  stream_value size (take (size * size) inStream) rc
  = rd 0 inStream (at2d size rc.1 rc.2).
Proof. intros Hr Hc. apply rd_take. by apply at2d_lt. Qed.

Lemma stream_valid_lookup size (inStream : list nat) :
  Forall (fun v => v <= size) (take (size * size) inStream) ->
  forall k, k < size * size -> rd 0 inStream k <= size.
Proof.
  intros H k Hk. rewrite <- (rd_take 0 (size * size)) by done.
  apply (rd_Forall (fun v => v <= size)); [lia|done].
Qed.

(** What [grid_load] returns for a stream that it accepts: the grid [g1]
    after the first loops, then the second loops. *)
Lemma grid_load_result inStream g :
  let size := grid_size g in
  let vals := take (size * size) inStream in
  stream_valid size inStream ->
  exists g1,
    grid_load inStream g
    = (0%Z, fold_left grid_load_candidates (rect 0 size 0 size) g1)
    /\ N g1 = N g /\ grid_wf g1
    /\ (forall rc, in_grid g rc ->
        grid_cellAt g1 rc.1 rc.2
        = mkCell (rd 0 inStream (at2d size rc.1 rc.2))
                 (replicate (size + 1) false) 0)
    /\ (forall i, i < size * (size + 1) ->
        rd false (_isRowFree g1) i
        = negb (stream_marks size vals
                  (fun rc v => at2d (size + 1) rc.1 v) i))
    /\ (forall i, i < size * (size + 1) ->
        rd false (_isColumnFree g1) i
        = negb (stream_marks size vals
                  (fun rc v => at2d (size + 1) rc.2 v) i))
    /\ (forall i, i < N g * N g * (size + 1) ->
        rd false (_isBlockFree g1) i
        = negb (stream_marks size vals
                  (fun rc v => at3d (N g) (size + 1) (rc.1 / N g) (rc.2 / N g) v)
                  i)).
Proof.
  intros size vals [Hlen Hall].
  pose proof (stream_valid_lookup size inStream Hall) as Hle.
  unfold grid_load. fold size.
  rewrite (proj2 (Nat.ltb_ge _ _)) by done. fold vals.
  set (g0 := mkGrid _ _ _ _ _).
  assert (N g0 = N g) as HN0 by done.
  assert (grid_size g0 = size) as Hs0 by done.
  assert (grid_sized g0) as Hsized0.
  { unfold grid_sized. rewrite Hs0. simpl. by rewrite !length_replicate. }
  assert (forall rc, rc ∈ rect 0 size 0 size <-> in_grid g0 rc) as Hrect.
  { intros [r c]. rewrite elem_of_rect. unfold in_grid. rewrite Hs0. simpl. lia. }
  assert (forall rc, in_grid g0 rc ->
            stream_value size vals rc = rd 0 inStream (at2d size rc.1 rc.2))
    as Hsv.
  { intros rc [Hr Hc]. rewrite Hs0 in *. by apply stream_value_take. }
  destruct (grid_load_values_spec vals (N g) (rect 0 size 0 size) g0)
    as (g1 & E1 & HN1 & Hsized1 & Hcells & Hrow & Hcol & Hblock).
  { done. } { done. } { apply NoDup_rect. }
  { intros rc. apply Hrect. }
  { intros rc Hin%Hrect. fold size. rewrite Hsv by done. apply Hle.
    destruct Hin. rewrite Hs0 in *. by apply at2d_lt. }
  fold size in Hcells, Hrow, Hcol, Hblock.
  rewrite E1. exists g1.
  assert (forall rc, in_grid g rc ->
            grid_cellAt g1 rc.1 rc.2
            = mkCell (rd 0 inStream (at2d size rc.1 rc.2))
                     (replicate (size + 1) false) 0) as Hcells1.
  { intros rc Hin. rewrite (Hcells rc) by done.
    rewrite decide_True by by apply Hrect. rewrite Hsv by done.
    assert (grid_cellAt g0 rc.1 rc.2 = cell_zero) as ->.
    { unfold grid_cellAt, rd. simpl.
      destruct (replicate (size * size) cell_zero !! _) as [x|] eqn:E; [|done].
      by apply lookup_replicate in E as [-> _]. }
    simpl. by destruct (Nat.eqb_spec (rd 0 inStream (at2d size rc.1 rc.2)) 0)
      as [->|]. }
  split; [done|]. split; [done|]. split; [|split; [done|]].
  - destruct Hsized1 as (H1 & H2 & H3 & H4). split; [done|]. split; [|done].
    apply (Forall_cells _ g1); [done|]. intros rc Hin.
    rewrite Hcells1 by (by apply (in_grid_N g1)). simpl.
    rewrite length_replicate. unfold grid_size. by rewrite HN1.
  - split; [|split].
    + intros i Hi. rewrite Hrow. simpl. by rewrite rd_replicate.
    + intros i Hi. rewrite Hcol. simpl. by rewrite rd_replicate.
    + intros i Hi. rewrite Hblock. simpl. by rewrite rd_replicate.
Qed.

(** The grid that [grid_load] returns for a stream that it accepts, cell by
    cell in terms of the grid [g1] after the first loops. *)
Lemma grid_load_loaded inStream g :
  let size := grid_size g in
  let vals := take (size * size) inStream in
  let res := (grid_load inStream g).2 in
  stream_valid size inStream ->
  (grid_load inStream g).1 = 0%Z
  /\ N res = N g /\ grid_wf res
  /\ (forall i, i < size * (size + 1) ->
      rd false (_isRowFree res) i
      = negb (stream_marks size vals (fun rc v => at2d (size + 1) rc.1 v) i))
  /\ (forall i, i < size * (size + 1) ->
      rd false (_isColumnFree res) i
      = negb (stream_marks size vals (fun rc v => at2d (size + 1) rc.2 v) i))
  /\ (forall i, i < N g * N g * (size + 1) ->
      rd false (_isBlockFree res) i
      = negb (stream_marks size vals
                (fun rc v => at3d (N g) (size + 1) (rc.1 / N g) (rc.2 / N g) v)
                i))
  /\ (forall rc, in_grid g rc ->
      let cell := grid_cellAt res rc.1 rc.2 in
      let v := rd 0 inStream (at2d size rc.1 rc.2) in
      _value cell = v
      /\ (forall w, 1 <= w <= size ->
          cell_hasCandidate cell w = (v =? 0) && grid_possible res rc.1 rc.2 w)
      /\ _candidateCount cell = length (cell_candidates size cell)).
Proof.
  intros size vals res Hvalid. subst res.
  destruct (grid_load_result inStream g Hvalid)
    as (g1 & E & HN1 & Hwf1 & Hcells1 & Hrow & Hcol & Hblock).
  fold size in E, Hcells1, Hrow, Hcol, Hblock. fold vals in Hrow, Hcol, Hblock.
  rewrite E. cbn [fst snd].
  assert (grid_size g1 = size) as Hs1 by by apply grid_size_N.
  destruct (grid_load_candidates_spec (rect 0 size 0 size) g1 Hwf1)
    as (HN & H1 & H2 & H3 & Hwf' & Hcells).
  { apply NoDup_rect. }
  { intros [r c] Hin%elem_of_rect. unfold in_grid. rewrite Hs1. simpl. lia. }
  set (res := fold_left _ _ g1) in *.
  split; [done|]. split; [congruence|]. split; [done|].
  split; [by rewrite H2|]. split; [by rewrite H1|]. split; [by rewrite H3|].
  intros rc Hin. cbv zeta.
  set (v := rd 0 inStream (at2d size rc.1 rc.2)).
  assert (in_grid g1 rc) as Hin1 by by apply (in_grid_N g).
  rewrite (Hcells rc Hin1).
  rewrite decide_True
    by (destruct rc as [r c]; destruct Hin as [Hr Hc]; apply elem_of_rect;
        simpl in Hr, Hc; unfold size; lia).
  unfold grid_filled_cell. rewrite (Hcells1 rc Hin). fold v.
  unfold cell_hasValue. cbn [_value]. rewrite Hs1.
  assert (forall w, grid_possible res rc.1 rc.2 w = grid_possible g1 rc.1 rc.2 w)
    as Hposs by (intros w; by apply grid_possible_ext).
  destruct (Nat.eqb_spec v 0) as [Ev|Ev]; cbn [negb].
  - destruct (cell_fill_spec (grid_possible g1 rc.1 rc.2) size
                (mkCell v (replicate (size + 1) false) 0))
      as (Hv & Hl & Hhas & Hcount).
    { simpl. apply length_replicate. }
    split; [done|]. split.
    + intros w Hw. rewrite Hhas by done. by rewrite Hposs.
    + rewrite Hcount. simpl. f_equal. symmetry.
      by apply filter_ext_range; intros w Hw; apply Hhas; lia.
  - split; [done|].
    assert (forall w, cell_hasCandidate
                        (mkCell v (replicate (size + 1) false) 0) w = false)
      as Hnone.
    { intros w. unfold cell_hasCandidate, rd. simpl.
      destruct (replicate (size + 1) false !! w) as [x|] eqn:E'; [|done].
      by apply lookup_replicate in E' as [-> _]. }
    split; [by intros w _; rewrite Hnone|].
    simpl. symmetry. apply length_zero_iff_nil.
    apply cell_candidates_nil. intros w _. apply Hnone.
Qed.

Lemma stream_marks_true size vals slot i :
  stream_marks size vals slot i = true
  <-> exists rc, rc.1 < size /\ rc.2 < size
        /\ stream_value size vals rc <> 0
        /\ slot rc (stream_value size vals rc) = i.
Proof.
  unfold stream_marks. rewrite existsb_exists. split.
  - intros (rc & Hin%list_elem_of_In & H). destruct rc as [r c].
    apply elem_of_rect in Hin.
    apply andb_true_iff in H as [H1%negb_true_iff%Nat.eqb_neq H2%Nat.eqb_eq].
    exists (r, c). simpl. repeat split; try done; lia.
  - intros ([r c] & Hr & Hc & H1 & H2). exists (r, c). split.
    + apply list_elem_of_In, elem_of_rect. simpl in *. lia.
    + apply andb_true_iff. split; [by apply negb_true_iff, Nat.eqb_neq|].
      by apply Nat.eqb_eq.
Qed.

(** [grid_load] returns 0 exactly for the streams that hold [S·S] values
    with the first [S·S] of them at most [S]; for every other stream it
    returns [ERROR_INVALID_DATA], and a stream that is too short leaves the
    grid untouched. *)
Theorem grid_load_returns inStream g :
  let size := grid_size g in
  (stream_valid size inStream -> (grid_load inStream g).1 = 0%Z)
  /\ (~ stream_valid size inStream ->
      (grid_load inStream g).1 = ERROR_INVALID_DATA)
  /\ (length inStream < size * size ->
      grid_load inStream g = (ERROR_INVALID_DATA, g)).
Proof.
  intros size.
  assert (length inStream < size * size ->
          grid_load inStream g = (ERROR_INVALID_DATA, g)) as Hshort.
  { intros Hlt. unfold grid_load. fold size.
    by rewrite (proj2 (Nat.ltb_lt _ _)). }
  split; [|split; [|done]].
  - intros Hvalid. by destruct (grid_load_loaded inStream g Hvalid) as [H _].
  - intros Hinvalid.
    destruct (decide (length inStream < size * size)) as [Hlt|Hge];
      [by rewrite Hshort|].
    assert (~ Forall (fun v => v <= size) (take (size * size) inStream))
      as Hnot by (intros H; apply Hinvalid; split; [lia|done]).
    apply not_Forall_Exists in Hnot; [|apply _].
    apply Exists_exists in Hnot as (x & Hx & Hbad). simpl in Hbad.
    apply list_elem_of_lookup in Hx as [k Hk].
    assert (k < size * size) as Hklt.
    { apply lookup_lt_Some in Hk. rewrite length_take in Hk. lia. }
    unfold grid_load. fold size. rewrite (proj2 (Nat.ltb_ge _ _)) by lia.
    set (g0 := mkGrid _ _ _ _ _).
    assert (grid_size g0 = size) as Hs0 by done.
    destruct (index_in_grid g0 k) as [Hin Hidx]; [by rewrite Hs0|].
    destruct (grid_load_values_invalid (take (size * size) inStream) (N g)
                (rect 0 size 0 size) g0) as [g' E].
    + done.
    + unfold grid_sized. rewrite Hs0. simpl. by rewrite !length_replicate.
    + apply NoDup_rect.
    + intros [r c] H%elem_of_rect. unfold in_grid. rewrite Hs0. simpl. lia.
    + rewrite Hs0 in Hin, Hidx. exists (k / size, k mod size). split.
      * destruct Hin as [H1 H2]. cbn [fst snd] in H1, H2.
        apply elem_of_rect. lia.
      * change (size < stream_value size (take (size * size) inStream)
                         (k / size, k mod size)).
        unfold stream_value. cbn [fst snd]. rewrite Hidx.
        unfold rd. rewrite Hk. simpl. lia.
    + fold size in E. by rewrite E.
Qed.

(** For a stream that it accepts, [grid_load] builds a well-formed grid of
    the same size factor that satisfies the cell invariant, and the value
    of the cell [(r, c)] is the value at [r·S + c] in the stream. *)
Theorem grid_load_values inStream g :
  let size := grid_size g in
  let res := (grid_load inStream g).2 in
  stream_valid size inStream ->
  N res = N g /\ grid_wf res /\ grid_cell_invariant res
  /\ forall r c, r < size -> c < size ->
       _value (grid_cellAt res r c) = rd 0 inStream (at2d size r c).
Proof.
  intros size res Hvalid.
  destruct (grid_load_loaded inStream g Hvalid)
    as (_ & HN & Hwf & _ & _ & _ & Hcells).
  fold size res in HN, Hwf, Hcells.
  assert (grid_size res = size) as Hs by by apply grid_size_N.
  split; [done|]. split; [done|]. split.
  - apply Forall_cells; [by apply grid_wf_sized|]. intros rc Hin.
    destruct (Hcells rc) as (Hv & Hhas & Hcount); [by apply (in_grid_N res)|].
    rewrite Hs. split; [done|]. intros Hne. apply cell_candidates_nil.
    intros w Hw. rewrite Hhas by done. rewrite Hv in Hne.
    by rewrite (proj2 (Nat.eqb_neq _ 0)).
  - intros r c Hr Hc. by destruct (Hcells (r, c)) as (Hv & _); [split|].
Qed.

(** What [grid_possible] says on the grid that [grid_load] returns, in
    terms of the values of the cells. *)
Lemma grid_load_possible_iff inStream g r c v :
  let size := grid_size g in
  let res := (grid_load inStream g).2 in
  stream_valid size inStream ->
  r < size -> c < size -> 1 <= v <= size ->
  grid_possible res r c v = true
  <-> forall r' c', r' < size -> c' < size ->
        _value (grid_cellAt res r' c') = v ->
        r' <> r /\ c' <> c /\ ~ (r' / N g = r / N g /\ c' / N g = c / N g).
Proof.
  intros size res Hvalid Hr Hc Hv.
  destruct (grid_load_loaded inStream g Hvalid)
    as (_ & HN & Hwf & Hrow & Hcol & Hblock & Hcells).
  fold size res in HN, Hwf, Hrow, Hcol, Hblock, Hcells.
  assert (grid_size res = size) as Hs by by apply grid_size_N.
  assert (size = N g * N g) as HsN by done.
  assert (r / N g < N g /\ c / N g < N g) as [Hbr Hbc]
    by (split; apply block_coord_lt; lia).
  assert (forall rc, rc.1 < size -> rc.2 < size ->
            stream_value size (take (size * size) inStream) rc
            = _value (grid_cellAt res rc.1 rc.2)
            /\ stream_value size (take (size * size) inStream) rc <= size)
    as Hval.
  { intros rc H1 H2. rewrite stream_value_take by done. split.
    - symmetry. by apply Hcells.
    - destruct Hvalid as [_ Hall].
      apply (stream_valid_lookup size inStream Hall). by apply at2d_lt. }
  unfold grid_possible. rewrite Hs, HN.
  rewrite Hcol by (apply at2d_lt; lia).
  rewrite Hrow by (apply at2d_lt; lia).
  rewrite Hblock by (apply at3d_lt; lia).
  rewrite !andb_true_iff, !negb_true_iff. split.
  - intros [[H1 H2] H3] r' c' Hr' Hc' E.
    destruct (Hval (r', c') Hr' Hc') as [Hsv _]. cbn [fst snd] in Hsv.
    rewrite E in Hsv.
    split; [|split].
    + intros ->. apply not_true_iff_false in H2. apply H2.
      apply stream_marks_true. exists (r, c'). cbn [fst snd].
      rewrite Hsv. repeat split; try done; lia.
    + intros ->. apply not_true_iff_false in H1. apply H1.
      apply stream_marks_true. exists (r', c). cbn [fst snd].
      rewrite Hsv. repeat split; try done; lia.
    + intros [E1 E2]. apply not_true_iff_false in H3. apply H3.
      apply stream_marks_true. exists (r', c'). cbn [fst snd].
      rewrite Hsv, E1, E2. repeat split; try done; lia.
  - intros H. split; [split|]; apply not_true_iff_false;
      intros ([r' c'] & Hr' & Hc' & Hne & E)%stream_marks_true;
      cbn [fst snd] in Hr', Hc', E;
      destruct (Hval (r', c') Hr' Hc') as [Hsv Hle]; cbn [fst snd] in Hsv.
    + apply at2d_inj in E as [-> E]; [|lia..].
      destruct (H r' c Hr' Hc) as (_ & Hx & _); [congruence|done].
    + apply at2d_inj in E as [-> E]; [|lia..].
      destruct (H r c' Hr Hc') as (Hx & _); [congruence|done].
    + assert (r' / N g < N g /\ c' / N g < N g) as [Hbr' Hbc']
        by (split; apply block_coord_lt; lia).
      apply at3d_inj in E as (E1 & E2 & E); [|lia..].
      destruct (H r' c' Hr' Hc') as (_ & _ & Hx); [congruence|].
      by apply Hx.
Qed.

(** After a load that succeeds, the three tables say exactly which values
    are taken: [v] is possible at [(r, c)] when no cell of the row [r], of
    the column [c] or of the block of [(r, c)] has the value [v]. *)
Theorem grid_load_possible inStream g r c v :
  let size := grid_size g in
  let res := (grid_load inStream g).2 in
  stream_valid size inStream ->
  r < size -> c < size -> 1 <= v <= size ->
  grid_possible res r c v = true
  <-> forall r' c', r' < size -> c' < size ->
        _value (grid_cellAt res r' c') = v ->
        r' <> r /\ c' <> c /\ ~ (r' / N g = r / N g /\ c' / N g = c / N g).
Proof. exact (grid_load_possible_iff inStream g r c v). Qed.

(** [grid_cellPossibleValuesCount] counts the values that [grid_possible]
    accepts. *)
Lemma grid_cellPossibleValuesCount_filter g r c :
  grid_cellPossibleValuesCount g r c
  = length (List.filter (grid_possible g r c) (range 1 (grid_size g + 1))).
Proof.
  unfold grid_cellPossibleValuesCount.
  assert (forall l n,
            fold_left (fun out val => out + Nat.b2n (grid_possible g r c val)) l n
            = n + length (List.filter (grid_possible g r c) l)) as H.
  { induction l as [|x l IH]; intros n; simpl; [lia|].
    rewrite IH. destruct (grid_possible g r c x); simpl; lia. }
  by rewrite H.
Qed.

Lemma filter_ext_elem {A} (f f' : A -> bool) (l : list A) :
  (forall x, x ∈ l -> f x = f' x) -> List.filter f l = List.filter f' l.
Proof.
  induction l as [|x l IH]; intros H; simpl; [done|].
  rewrite (H x) by left. rewrite IH; [done|].
  intros y Hy. apply H. by right.
Qed.

(** The candidates that [grid_load] computes: a cell with a value has none,
    and the candidates of an empty cell are the values that are possible at
    its position, its count being what [grid_cellPossibleValuesCount]
    counts there. *)
Theorem grid_load_cell_candidates inStream g r c :
  let size := grid_size g in
  let res := (grid_load inStream g).2 in
  let cell := grid_cellAt res r c in
  stream_valid size inStream -> r < size -> c < size ->
  (cell_hasValue cell = true ->
   cell_candidates size cell = [] /\ cell_candidate_count cell = 0)
  /\ (cell_hasValue cell = false ->
      cell_candidates size cell
      = List.filter (grid_possible res r c) (range 1 (size + 1))
      /\ cell_candidate_count cell = grid_cellPossibleValuesCount res r c).
Proof.
  intros size res cell Hvalid Hr Hc.
  destruct (grid_load_loaded inStream g Hvalid)
    as (_ & HN & _ & _ & _ & _ & Hcells).
  fold size res in HN, Hcells.
  assert (grid_size res = size) as Hs by by apply grid_size_N.
  destruct (Hcells (r, c)) as (Hv & Hhas & Hcount); [by split|].
  cbn [fst snd] in Hv, Hhas, Hcount. fold cell in Hv, Hhas, Hcount.
  unfold cell_hasValue, cell_candidate_count. rewrite Hcount.
  split; intros E.
  - apply negb_true_iff, Nat.eqb_neq in E.
    assert (cell_candidates size cell = []) as ->; [|done].
    apply cell_candidates_nil. intros w Hw. rewrite Hhas by done.
    rewrite <- Hv. by rewrite (proj2 (Nat.eqb_neq _ 0)).
  - apply negb_false_iff, Nat.eqb_eq in E.
    assert (cell_candidates size cell
            = List.filter (grid_possible res r c) (range 1 (size + 1))) as ->.
    { unfold cell_candidates. apply filter_ext_elem.
      intros w Hw%elem_of_range. rewrite Hhas by lia.
      rewrite <- Hv, E. done. }
    split; [done|]. by rewrite grid_cellPossibleValuesCount_filter, Hs.
Qed.

(** The values read at [a], [a + 1], ... are the next values of the list. *)
Lemma fmap_rd_seq {A} (d : A) (l : list A) a n :
  a + n <= length l ->
  (fun i => rd d l (a + i)) <$> seq 0 n = take n (drop a l).
Proof.
  intros Hlen. apply list_eq. intros i.
  rewrite list_lookup_fmap.
  destruct (decide (i < n)) as [Hi|Hi].
  - rewrite lookup_seq_lt by done. rewrite lookup_take_lt by done.
    rewrite lookup_drop. simpl. unfold rd.
    destruct (lookup_lt_is_Some_2 l (a + i)) as [x ->]; [lia|done].
  - rewrite lookup_seq_ge by lia. rewrite lookup_take_ge by lia. done.
Qed.

Lemma fmap_bind_singleton {A B C} (f : B -> C) (g : A -> B) (l : list A) :
  f <$> (l ≫= fun x => [g x]) = (fun x => f (g x)) <$> l.
Proof. induction l as [|x l IH]; [done|]. cbn. by rewrite <- IH. Qed.

(** Reading a flat array row by row gives back its first [h · w] elements. *)
Lemma fmap_rd_rect {A} (d : A) (l : list A) h w :
  h * w <= length l ->
  (fun rc => rd d l (at2d w rc.1 rc.2)) <$> rect 0 h 0 w = take (h * w) l.
Proof.
  unfold rect, range. rewrite !Nat.sub_0_r.
  induction h as [|h IH]; intros Hlen; [done|].
  rewrite seq_S, bind_app, fmap_app, IH by lia.
  replace (S h * w) with (h * w + w) by lia.
  rewrite <- (take_take_drop l (h * w) w). f_equal.
  rewrite <- (fmap_rd_seq d l (h * w) w) by lia.
  cbn [mbind list_bind mret]. rewrite app_nil_r.
  rewrite (fmap_bind_singleton _ (fun c => (0 + h, c))). done.
Qed.

(** Writing the grid that [grid_load] has read gives back the values that
    were read from the stream. *)
Theorem grid_write_load inStream g :
  let size := grid_size g in
  stream_valid size inStream ->
  grid_write (grid_load inStream g).2 = take (size * size) inStream.
Proof.
  intros size Hvalid.
  destruct (grid_load_loaded inStream g Hvalid)
    as (_ & HN & _ & _ & _ & _ & Hcells).
  fold size in HN, Hcells.
  set (res := (grid_load inStream g).2) in *.
  assert (grid_size res = size) as Hs by by apply grid_size_N.
  unfold grid_write. rewrite Hs.
  rewrite <- (fmap_rd_rect 0 inStream size size) by apply Hvalid.
  apply list_fmap_ext. intros k [r c] Hin.
  apply list_elem_of_lookup_2, elem_of_rect in Hin.
  destruct (Hcells (r, c)) as (Hv & _); [split; simpl; lia|]. done.
Qed.

Lemma puzzle_threeColumns_valid :
  stream_valid (grid_size (grid_create 2)) puzzle_threeColumns.
Proof.
  split; [vm_compute; lia|]. vm_compute. repeat (constructor; [lia|]).
  constructor.
Qed.

Lemma grid_load_returns_witness :
  (grid_load puzzle_threeColumns (grid_create 2)).1 = 0%Z
  /\ (grid_load [5] (grid_create 1)).1 = ERROR_INVALID_DATA
  /\ grid_load [] (grid_create 1) = (ERROR_INVALID_DATA, grid_create 1).
Proof.
  split; [|split].
  - destruct (grid_load_returns puzzle_threeColumns (grid_create 2))
      as (H & _).
    exact (H puzzle_threeColumns_valid).
  - destruct (grid_load_returns [5] (grid_create 1)) as (_ & H & _).
    apply H. intros [_ Hall]. vm_compute in Hall.
    inversion Hall as [|x l Hx]. lia.
  - destruct (grid_load_returns [] (grid_create 1)) as (_ & _ & H).
    apply H. vm_compute. lia.
Defined.

Lemma grid_load_values_witness :
  N (grid_load puzzle_threeColumns (grid_create 2)).2 = N (grid_create 2)
  /\ grid_wf (grid_load puzzle_threeColumns (grid_create 2)).2
  /\ grid_cell_invariant (grid_load puzzle_threeColumns (grid_create 2)).2
  /\ forall r c, r < grid_size (grid_create 2) ->
       c < grid_size (grid_create 2) ->
       _value (grid_cellAt (grid_load puzzle_threeColumns (grid_create 2)).2
                 r c)
       = rd 0 puzzle_threeColumns (at2d (grid_size (grid_create 2)) r c).
Proof.
  exact (grid_load_values puzzle_threeColumns (grid_create 2)
           puzzle_threeColumns_valid).
Defined.

Lemma grid_load_possible_witness :
  grid_possible (grid_load puzzle_threeColumns (grid_create 2)).2 1 0 1 = true
  <-> forall r' c', r' < grid_size (grid_create 2) ->
        c' < grid_size (grid_create 2) ->
        _value (grid_cellAt (grid_load puzzle_threeColumns (grid_create 2)).2
                  r' c') = 1 ->
        r' <> 1 /\ c' <> 0
        /\ ~ (r' / N (grid_create 2) = 1 / N (grid_create 2)
              /\ c' / N (grid_create 2) = 0 / N (grid_create 2)).
Proof.
  assert (1 < grid_size (grid_create 2)) as H1 by (vm_compute; lia).
  assert (0 < grid_size (grid_create 2)) as H0 by (vm_compute; lia).
  assert (1 <= 1 <= grid_size (grid_create 2)) as Hv by (vm_compute; lia).
  exact (grid_load_possible puzzle_threeColumns (grid_create 2) 1 0 1
           puzzle_threeColumns_valid H1 H0 Hv).
Defined.

Lemma grid_load_cell_candidates_witness :
  (cell_hasValue
     (grid_cellAt (grid_load puzzle_threeColumns (grid_create 2)).2 1 0) = true ->
   cell_candidates (grid_size (grid_create 2))
     (grid_cellAt (grid_load puzzle_threeColumns (grid_create 2)).2 1 0) = []
   /\ cell_candidate_count
        (grid_cellAt (grid_load puzzle_threeColumns (grid_create 2)).2 1 0) = 0)
  /\ (cell_hasValue
        (grid_cellAt (grid_load puzzle_threeColumns (grid_create 2)).2 1 0)
      = false ->
      cell_candidates (grid_size (grid_create 2))
        (grid_cellAt (grid_load puzzle_threeColumns (grid_create 2)).2 1 0)
      = List.filter
          (grid_possible (grid_load puzzle_threeColumns (grid_create 2)).2 1 0)
          (range 1 (grid_size (grid_create 2) + 1))
      /\ cell_candidate_count
           (grid_cellAt (grid_load puzzle_threeColumns (grid_create 2)).2 1 0)
         = grid_cellPossibleValuesCount
             (grid_load puzzle_threeColumns (grid_create 2)).2 1 0).
Proof.
  assert (1 < grid_size (grid_create 2)) as H1 by (vm_compute; lia).
  assert (0 < grid_size (grid_create 2)) as H0 by (vm_compute; lia).
  exact (grid_load_cell_candidates puzzle_threeColumns (grid_create 2) 1 0
           puzzle_threeColumns_valid H1 H0).
Defined.

Lemma grid_write_load_witness :
  grid_write (grid_load puzzle_threeColumns (grid_create 2)).2
  = take (grid_size (grid_create 2) * grid_size (grid_create 2))
         puzzle_threeColumns.
Proof.
  exact (grid_write_load puzzle_threeColumns (grid_create 2)
           puzzle_threeColumns_valid).
Defined.

(** ** The driver always returns *)







